(** * Real-time subscription and update-broadcast engine

    A shallow embedding of [src/utils/websocket.js] (the socket handlers,
    the snapshot for a fresh subscribe, the update timer, the refresh cycle,
    the statistics and the forced update), of the stock API module and three
    API utilities ([src/unnamed/part_002]) and of the statics of the Watchlist
    model ([src/unnamed/part_001]), followed by the properties of the
    registry, the scheduler, the fan-out and the provider calls.

    Conventions of the embedding:
    - a JS [Map] is a [gmap], a JS [Set] a [gset]; JS iterates both in
      insertion order, the model iterates in the order of [elements], and
      every statement below is insensitive to that order;
    - strings are strings of ASCII characters ([is_ascii]): on these
      [toUpperCase] maps the letters a-z and [trim] strips blank, tab, line
      feed, vertical tab, form feed and carriage return, as
      [String.prototype.toUpperCase] and [String.prototype.trim] do; a
      string with other characters is outside the model;
    - values that arrive from a client or from the upstream provider are
      untyped JS values ([JsVal]);
    - time stamps and the floating-point fields of a quote are left out. *)

From Stdlib Require Import Ascii String.
From stdpp Require Import gmap strings list fin_maps.

Set Warnings "-register-all,-clear-no-such-hyp".

(** ** JavaScript values and the string primitives the handlers use *)

Inductive JsVal : Type :=
| JUndefined
| JNull
| JBool (b : bool)
| JNum (n : Z)
| JStr (s : string)
| JArr (items : list JsVal)
| JObj (fields : list (string * JsVal)).

(** Outcome of an expression or call that may throw: the value, or the
    message of the [Error]. *)
Inductive Completion (A : Type) : Type :=
| Return (a : A)
| Throw (message : string).
Arguments Return {A} a.
Arguments Throw {A} message.

(** [!v] is false exactly on the truthy values. *)
Definition truthy (v : JsVal) : bool :=
  match v with
  | JUndefined | JNull => false
  | JBool b => b
  | JNum n => negb (n =? 0)%Z
  | JStr s => negb (String.eqb s "")
  | JArr _ | JObj _ => true
  end.

Fixpoint assoc_get (name : string) (fields : list (string * JsVal)) : JsVal :=
  match fields with
  | [] => JUndefined
  | (k, v) :: rest => if String.eqb k name then v else assoc_get name rest
  end.

(** [v.name], as used by the destructuring [const { name } = v]: reading a
    property of [undefined] or [null] throws, a primitive or an array has no
    such own property. *)
Definition get_prop (name : string) (v : JsVal) : Completion JsVal :=
  match v with
  | JUndefined => Throw "Cannot destructure property of undefined"
  | JNull => Throw "Cannot destructure property of null"
  | JObj fields => Return (assoc_get name fields)
  | _ => Return JUndefined
  end.

Definition ascii_toUpperCase (a : ascii) : ascii :=
  let n := nat_of_ascii a in
  if Nat.leb 97 n && Nat.leb n 122 then ascii_of_nat (n - 32) else a.

Fixpoint toUpperCase (s : string) : string :=
  match s with
  | EmptyString => EmptyString
  | String a s' => String (ascii_toUpperCase a) (toUpperCase s')
  end.

Definition is_whitespace (a : ascii) : bool :=
  let n := nat_of_ascii a in
  Nat.eqb n 32 || (Nat.leb 9 n && Nat.leb n 13).

Fixpoint trimStart (s : string) : string :=
  match s with
  | EmptyString => EmptyString
  | String a s' => if is_whitespace a then trimStart s' else s
  end.

Fixpoint trimEnd (s : string) : string :=
  match s with
  | EmptyString => EmptyString
  | String a s' =>
      match trimEnd s' with
      | EmptyString => if is_whitespace a then EmptyString else String a EmptyString
      | t => String a t
      end
  end.

Definition trim (s : string) : string := trimEnd (trimStart s).

(** The strings on which the two primitives above are those of JavaScript:
    every character is below 128. *)
Fixpoint is_ascii (s : string) : bool :=
  match s with
  | EmptyString => true
  | String a s' => Nat.ltb (nat_of_ascii a) 128 && is_ascii s'
  end.

(** [symbol.toUpperCase()] on an arbitrary value: only a string has the
    method. *)
Definition js_toUpperCase (v : JsVal) : Completion string :=
  match v with
  | JStr s => Return (toUpperCase s)
  | JUndefined => Throw "Cannot read properties of undefined (reading 'toUpperCase')"
  | JNull => Throw "Cannot read properties of null (reading 'toUpperCase')"
  | _ => Throw "symbol.toUpperCase is not a function"
  end.

(** [symbol.toUpperCase().trim()]. *)
Definition cleanSymbol (v : JsVal) : Completion string :=
  match js_toUpperCase v with
  | Return up => Return (trim up)
  | Throw msg => Throw msg
  end.

(** ** Registry state *)

Abbreviation SocketId := string (only parsing).

(** One entry of [connections]; [socket_connected] is [socket.connected]. *)
Record Connection : Type := mkConnection {
  conn_subscriptions : gset string;
  conn_userId : JsVal;
  socket_connected : bool
}.

(** A fetched quote as the fan-out sees it: [stock.symbol] (absent when the
    upstream quote carried none) and the upstream quote the remaining fields
    are computed from. *)
Record Stock : Type := mkStock {
  stock_symbol : option string;
  stock_quote : JsVal
}.

(** An entry [{ symbol, error }] of an [errors] array. *)
Record SymError : Type := mkSymError {
  err_symbol : JsVal;
  err_error : string
}.

(** A refresh cycle suspended at [await getMultipleStockPrices(batch)]:
    the snapshot of the symbols, the loop index and the accumulators. *)
Record Cycle : Type := mkCycle {
  cy_symbols : list string;
  cy_i : nat;
  cy_allUpdates : list Stock;
  cy_allErrors : list SymError
}.

(** The module-level variables [connections], [subscriptions] and
    [updateInterval] ([true] when it holds a timer), and the refresh cycles
    that are in flight. *)
Record State : Type := mkState {
  connections : gmap string Connection;
  subscriptions : gmap string (gset string);
  updateInterval : bool;
  inflight : list Cycle
}.

Definition UPDATE_INTERVAL : Z := 30000.
Definition MAX_SUBSCRIPTIONS_PER_CLIENT : nat := 50.

Definition initial_state : State :=
  mkState ∅ ∅ false [].

Definition set_connections (f : gmap string Connection → gmap string Connection)
    (st : State) : State :=
  mkState (f (connections st)) (subscriptions st) (updateInterval st) (inflight st).

Definition set_subscriptions
    (f : gmap string (gset string) → gmap string (gset string))
    (st : State) : State :=
  mkState (connections st) (f (subscriptions st)) (updateInterval st) (inflight st).

Definition set_updateInterval (b : bool) (st : State) : State :=
  mkState (connections st) (subscriptions st) b (inflight st).

Definition set_inflight (f : list Cycle → list Cycle) (st : State) : State :=
  mkState (connections st) (subscriptions st) (updateInterval st) (f (inflight st)).

(** The registry accessors of the specification. *)
Definition symbolsFor (c : SocketId) (st : State) : gset string :=
  match connections st !! c with
  | Some conn => conn_subscriptions conn
  | None => ∅
  end.

Definition connectionsFor (s : string) (st : State) : gset string :=
  default ∅ (subscriptions st !! s).

Definition allSubscribedSymbols (st : State) : gset string :=
  dom (subscriptions st).

(** ** Messages and effects *)

Inductive Outbound : Type :=
| authenticated (userId : JsVal)
| authentication_error (error : string)
| subscribed (symbols : list string) (errors : list SymError)
| subscription_error (error : string)
| unsubscribed (symbols : list string)
| unsubscription_error (error : string)
| watchlist_subscribed (symbols : list JsVal) (message : string)
| subscribe_event (symbols : list JsVal)
| pong
| stock_update (symbol : option string) (data : Stock) (forced : bool)
| stock_error (symbol : JsVal) (error : string).

(** What a handler does besides changing the state: a message pushed to a
    client with [socket.emit], the asynchronous snapshot started for a fresh
    subscribe, and a call of the stock API module. *)
Inductive Effect : Type :=
| Emit (to : SocketId) (m : Outbound)
| Call_sendInitialStockData (to : SocketId) (symbols : list string)
| Call_getMultipleStockPrices (symbols : JsVal).

(** ** The timer *)

Definition startUpdateInterval (st : State) : State :=
  set_updateInterval true st.

Definition stopUpdateInterval (st : State) : State :=
  if updateInterval st then set_updateInterval false st else st.

(** [if (subscriptions.size === 0 && updateInterval) stopUpdateInterval()]. *)
Definition stop_if_unused (st : State) : State :=
  if Nat.eqb (size (subscriptions st)) 0 && updateInterval st
  then stopUpdateInterval st else st.

(** [if (subscriptions.size > 0 && !updateInterval) startUpdateInterval(io)]. *)
Definition start_if_needed (st : State) : State :=
  if Nat.ltb 0 (size (subscriptions st)) && negb (updateInterval st)
  then startUpdateInterval st else st.

(** ** The connection handler and the [authenticate] handler *)

Definition on_connection (clientId : SocketId) (st : State) : State * list Effect :=
  (set_connections (insert clientId (mkConnection ∅ JNull true)) st, []).

Definition conn_set_userId (u : JsVal) (conn : Connection) : Connection :=
  mkConnection (conn_subscriptions conn) u (socket_connected conn).

Definition on_authenticate (clientId : SocketId) (data : JsVal) (st : State)
    : State * list Effect :=
  match get_prop "userId" data with
  | Throw _ => (st, [Emit clientId (authentication_error "Authentication failed")])
  | Return userId =>
      if truthy userId then
        match connections st !! clientId with
        | Some _ =>
            (set_connections (alter (conn_set_userId userId) clientId) st,
             [Emit clientId (authenticated userId)])
        | None => (st, [])
        end
      else (st, [Emit clientId (authentication_error "Invalid credentials")])
  end.

(** ** The [subscribe] handler *)

Definition conn_add (s : string) (conn : Connection) : Connection :=
  mkConnection (conn_subscriptions conn ∪ {[ s ]}) (conn_userId conn)
    (socket_connected conn).

Definition conn_delete (s : string) (conn : Connection) : Connection :=
  mkConnection (conn_subscriptions conn ∖ {[ s ]}) (conn_userId conn)
    (socket_connected conn).

(** [if (!subscriptions.has(s)) subscriptions.set(s, new Set());
     subscriptions.get(s).add(clientId)]. *)
Definition index_add (s : string) (clientId : SocketId)
    (idx : gmap string (gset string)) : gmap string (gset string) :=
  let idx1 := match idx !! s with
              | Some _ => idx
              | None => <[ s := ∅ ]> idx
              end in
  alter (λ clients, clients ∪ {[ clientId ]}) s idx1.

(** [if (subscriptions.has(s)) { subscriptions.get(s).delete(clientId);
     if (subscriptions.get(s).size === 0) subscriptions.delete(s) }]. *)
Definition index_remove (s : string) (clientId : SocketId)
    (idx : gmap string (gset string)) : gmap string (gset string) :=
  match idx !! s with
  | Some _ =>
      let idx1 := alter (λ clients, clients ∖ {[ clientId ]}) s idx in
      if Nat.eqb (size (default ∅ (idx1 !! s))) 0 then delete s idx1 else idx1
  | None => idx
  end.

(** The accumulators of the [symbols.forEach] of the subscribe handler. *)
Record SubAcc : Type := mkSubAcc {
  sa_state : State;
  sa_subscribedSymbols : list string;
  sa_errors : list SymError
}.

(** One iteration of the loop: the body of the [try] and its [catch]. *)
Definition subscribe_symbol (clientId : SocketId) (acc : SubAcc) (symbol : JsVal)
    : SubAcc :=
  match cleanSymbol symbol with
  | Throw msg =>
      mkSubAcc (sa_state acc) (sa_subscribedSymbols acc)
        (sa_errors acc ++ [mkSymError symbol msg])
  | Return clean =>
      if String.eqb clean "" then
        mkSubAcc (sa_state acc) (sa_subscribedSymbols acc)
          (sa_errors acc ++ [mkSymError symbol "Invalid symbol"])
      else
        let st1 := set_connections (alter (conn_add clean) clientId) (sa_state acc) in
        let st2 := set_subscriptions (index_add clean clientId) st1 in
        mkSubAcc st2 (sa_subscribedSymbols acc ++ [clean]) (sa_errors acc)
  end.

Definition subscribe_loop (clientId : SocketId) (symbols : list JsVal) (st : State)
    : SubAcc :=
  fold_left (subscribe_symbol clientId) symbols (mkSubAcc st [] []).

Definition limit_message : string :=
  "Maximum 50 subscriptions allowed per client".

Definition on_subscribe (clientId : SocketId) (data : JsVal) (st : State)
    : State * list Effect :=
  match get_prop "symbols" data with
  | Throw _ => (st, [Emit clientId (subscription_error "Subscription failed")])
  | Return (JArr symbols) =>
      match connections st !! clientId with
      | None => (st, [Emit clientId (subscription_error "Connection not found")])
      | Some connection =>
          if Nat.ltb MAX_SUBSCRIPTIONS_PER_CLIENT
               (size (conn_subscriptions connection) + length symbols)
          then (st, [Emit clientId (subscription_error limit_message)])
          else
            let acc := subscribe_loop clientId symbols st in
            (start_if_needed (sa_state acc),
             Emit clientId (subscribed (sa_subscribedSymbols acc) (sa_errors acc))
             :: (if Nat.ltb 0 (length (sa_subscribedSymbols acc))
                 then [Call_sendInitialStockData clientId (sa_subscribedSymbols acc)]
                 else []))
      end
  | Return _ => (st, [Emit clientId (subscription_error "Invalid symbols array")])
  end.

(** ** The [unsubscribe] handler *)

(** The [symbols.forEach] of the unsubscribe handler. Its body has no [try]:
    an element without [toUpperCase] ends the loop with an exception, and the
    state keeps the removals made so far. The third component is the message
    of that exception. *)
Fixpoint unsubscribe_loop (clientId : SocketId) (symbols : list JsVal)
    (st : State) (unsubscribedSymbols : list string)
    : State * list string * option string :=
  match symbols with
  | [] => (st, unsubscribedSymbols, None)
  | symbol :: rest =>
      match cleanSymbol symbol with
      | Throw msg => (st, unsubscribedSymbols, Some msg)
      | Return clean =>
          let st1 := set_connections (alter (conn_delete clean) clientId) st in
          let st2 := set_subscriptions (index_remove clean clientId) st1 in
          unsubscribe_loop clientId rest st2 (unsubscribedSymbols ++ [clean])
      end
  end.

Definition on_unsubscribe (clientId : SocketId) (data : JsVal) (st : State)
    : State * list Effect :=
  match get_prop "symbols" data with
  | Throw _ => (st, [Emit clientId (unsubscription_error "Unsubscription failed")])
  | Return (JArr symbols) =>
      match connections st !! clientId with
      | None => (st, [])
      | Some _ =>
          match unsubscribe_loop clientId symbols st [] with
          | (st', _, Some _) =>
              (st', [Emit clientId (unsubscription_error "Unsubscription failed")])
          | (st', unsubscribedSymbols, None) =>
              (stop_if_unused st', [Emit clientId (unsubscribed unsubscribedSymbols)])
          end
      end
  | Return _ => (st, [Emit clientId (unsubscription_error "Invalid symbols array")])
  end.

(** ** The [disconnect] handler *)

Definition index_remove_all (clientId : SocketId) (symbols : list string)
    (idx : gmap string (gset string)) : gmap string (gset string) :=
  fold_left (λ idx' symbol, index_remove symbol clientId idx') symbols idx.

Definition on_disconnect (clientId : SocketId) (st : State) : State * list Effect :=
  let st1 :=
    match connections st !! clientId with
    | Some connection =>
        set_subscriptions
          (index_remove_all clientId (elements (conn_subscriptions connection))) st
    | None => st
    end in
  let st2 := set_connections (delete clientId) st1 in
  (stop_if_unused st2, []).

(** ** The Watchlist model

    The model of the watchlist collection ([src/unnamed/part_001]). Its
    schema keeps the entries of a watchlist in the field [stocks], and gives
    the model four static methods; each of them runs one query. The methods
    every model has from mongoose ([find], [findOne], ...) are not listed: the
    engine calls none of them on this model. *)

Inductive WatchlistStatic : Type :=
| findByUserId
| findDefaultByUserId
| findByShareToken
| findPublicWatchlists.

(** The property [name] of the model, for a name that mongoose does not
    itself define on every model. *)
Definition Watchlist_static (name : string) : option WatchlistStatic :=
  if String.eqb name "findByUserId" then Some findByUserId
  else if String.eqb name "findDefaultByUserId" then Some findDefaultByUserId
  else if String.eqb name "findByShareToken" then Some findByShareToken
  else if String.eqb name "findPublicWatchlists" then Some findPublicWatchlists
  else None.

(** ** The collaborators of the engine

    The market-data provider and the database are outside the engine.
    [World] fixes how they answer: the API key of the environment, the body
    [response.data] of an HTTP GET (or the message of the error [axios.get]
    raises), whether an upsert of a quote succeeds, and what the query of a
    static of the Watchlist model resolves to for its argument (a document,
    an array of documents or [null]). *)

Record World : Type := mkWorld {
  IEX_CLOUD_API_KEY : option string;
  axios_get : string → Completion JsVal;
  db_findOneAndUpdate : Stock → Completion unit;
  db_watchlist : WatchlistStatic → JsVal → Completion JsVal
}.

(** [Watchlist[name](arg)]: a property the model does not have is
    [undefined], and calling it throws a TypeError before any query is made.
    (The module exports the model by name and the engine imports its default;
    where that leaves the binding [Watchlist] undefined, the call throws a
    TypeError as well.) *)
Definition Watchlist_call (w : World) (name : string) (arg : JsVal)
    : Completion JsVal :=
  match Watchlist_static name with
  | Some static => db_watchlist w static arg
  | None => Throw ("Watchlist." +:+ name +:+ " is not a function")
  end.

(** ** The stock API module: [getMultipleStockPrices] *)

Definition IEX_BASE_URL : string := "https://cloud.iexapis.com/stable".

Definition getIEXApiKey (w : World) : Completion string :=
  match IEX_CLOUD_API_KEY w with
  | Some key => if String.eqb key "" then Throw "IEX_CLOUD_API_KEY is not configured"
                else Return key
  | None => Throw "IEX_CLOUD_API_KEY is not configured"
  end.

(** The array index a property key stands for: a decimal numeral without
    leading zeros. *)
Definition digit_value (a : ascii) : option N :=
  let n := N_of_ascii a in
  if (48 <=? n)%N && (n <=? 57)%N then Some (n - 48)%N else None.

Fixpoint numeral_value (acc : N) (s : string) : option N :=
  match s with
  | EmptyString => Some acc
  | String a s' =>
      match digit_value a with
      | Some d => numeral_value (10 * acc + d)%N s'
      | None => None
      end
  end.

Definition array_index (key : string) : option N :=
  match key with
  | EmptyString => None
  | String a rest =>
      if Ascii.eqb a "0" && negb (String.eqb rest "") then None
      else numeral_value 0 key
  end.

(** [v[key]] for a value that is neither [undefined] nor [null]. A JSON
    object is looked up by key; an array and a string have [length] and
    their elements under the numerals; a number or a boolean has no such
    property. The properties of the prototypes are left out: their names
    contain lower-case letters, and the code reads the fixed keys written out
    below and upper-cased symbols only. *)
Definition get_member (key : string) (v : JsVal) : JsVal :=
  match v with
  | JObj fields => assoc_get key fields
  | JArr items =>
      if String.eqb key "length" then JNum (Z.of_nat (length items))
      else
        match array_index key with
        | Some i =>
            if (i <? N.of_nat (length items))%N
            then nth (N.to_nat i) items JUndefined
            else JUndefined
        | None => JUndefined
        end
  | JStr s =>
      if String.eqb key "length" then JNum (Z.of_nat (String.length s))
      else
        match array_index key with
        | Some i =>
            if (i <? N.of_nat (String.length s))%N
            then match String.get (N.to_nat i) s with
                 | Some a => JStr (String a EmptyString)
                 | None => JUndefined
                 end
            else JUndefined
        | None => JUndefined
        end
  | _ => JUndefined
  end.

(** [formatStockData(data, 'iex')]: [data.symbol?.toUpperCase()] is the only
    part that can throw. *)
Definition formatStockData (data : JsVal) : Completion Stock :=
  match get_member "symbol" data with
  | JUndefined | JNull => Return (mkStock None data)
  | JStr s => Return (mkStock (Some (toUpperCase s)) data)
  | _ => Throw "data.symbol?.toUpperCase is not a function"
  end.

(** [symbols.map(s => s.toUpperCase())]. *)
Fixpoint map_toUpperCase (symbols : list JsVal) : Completion (list string) :=
  match symbols with
  | [] => Return []
  | s :: rest =>
      match s with
      | JStr str =>
          match map_toUpperCase rest with
          | Throw msg => Throw msg
          | Return ups => Return (toUpperCase str :: ups)
          end
      | JUndefined => Throw "Cannot read properties of undefined (reading 'toUpperCase')"
      | JNull => Throw "Cannot read properties of null (reading 'toUpperCase')"
      | _ => Throw "s.toUpperCase is not a function"
      end
  end.

Definition join (sep : string) (l : list string) : string := String.concat sep l.

Definition batch_url (symbolsParam apiKey : string) : string :=
  IEX_BASE_URL +:+ "/stock/market/batch?symbols=" +:+ symbolsParam
    +:+ "&types=quote&token=" +:+ apiKey.

(** The [symbols.forEach] that sorts the response into results and errors.
    It runs after [map_toUpperCase] succeeded, so every element is a string;
    the last case is never reached then. *)
Definition collect_symbol (data : JsVal) (acc : list Stock * list SymError)
    (symbol : JsVal) : list Stock * list SymError :=
  match js_toUpperCase symbol with
  | Return up =>
      let symbolData := get_member up data in
      if truthy symbolData && truthy (get_member "quote" symbolData) then
        match formatStockData (get_member "quote" symbolData) with
        | Return formattedData => (acc.1 ++ [formattedData], acc.2)
        | Throw msg => (acc.1, acc.2 ++ [mkSymError symbol msg])
        end
      else (acc.1, acc.2 ++ [mkSymError symbol "Stock not found"])
  | Throw _ => acc
  end.

Definition failed_prefix : string := "Failed to fetch multiple stock prices: ".

(** The two guards in front of the [try]. *)
Definition validate_symbols (symbols : JsVal) : Completion (list JsVal) :=
  match symbols with
  | JArr items =>
      if Nat.eqb (length items) 0 then Throw "Valid symbols array is required"
      else if Nat.ltb 100 (length items)
           then Throw "Maximum 100 symbols allowed per request"
           else Return items
  | _ => Throw "Valid symbols array is required"
  end.

Definition getMultipleStockPrices (w : World) (symbols : JsVal)
    : Completion (list Stock * list SymError) :=
  match validate_symbols symbols with
  | Throw msg => Throw msg
  | Return items =>
      match getIEXApiKey w with
      | Throw msg => Throw (failed_prefix +:+ msg)
      | Return apiKey =>
          match map_toUpperCase items with
          | Throw msg => Throw (failed_prefix +:+ msg)
          | Return ups =>
              match axios_get w (batch_url (join "," ups) apiKey) with
              | Throw msg => Throw (failed_prefix +:+ msg)
              | Return data =>
                  if truthy data
                  then Return (fold_left (collect_symbol data) items ([], []))
                  else Throw (failed_prefix +:+ "No data received from batch request")
              end
          end
      end
  end.

(** ** Fan-out *)

(** [connection && connection.socket.connected]. *)
Definition is_connected (st : State) (clientId : SocketId) : bool :=
  match connections st !! clientId with
  | Some connection => socket_connected connection
  | None => false
  end.

(** The clients a message about the index key [symbol] is pushed to:
    [subscriptions.get(symbol)], filtered by the test above. *)
Definition recipients (st : State) (symbol : string) : list SocketId :=
  match subscriptions st !! symbol with
  | Some subscribedClients => filter (λ c, is_connected st c = true) (elements subscribedClients)
  | None => []
  end.

(** [subscriptions.get(v)] finds nothing for a key that is not a string. *)
Definition recipients_of (st : State) (symbol : JsVal) : list SocketId :=
  match symbol with
  | JStr s => recipients st s
  | _ => []
  end.

Definition symbol_val (symbol : option string) : JsVal :=
  match symbol with
  | Some s => JStr s
  | None => JUndefined
  end.

Definition push_update (st : State) (forced : bool) (stock : Stock) : list Effect :=
  map (λ c, Emit c (stock_update (stock_symbol stock) stock forced))
    (recipients_of st (symbol_val (stock_symbol stock))).

Definition push_error (st : State) (error : SymError) : list Effect :=
  map (λ c, Emit c (stock_error (err_symbol error) (err_error error)))
    (recipients_of st (err_symbol error)).

(** The two broadcast loops at the end of [broadcastStockUpdates]. *)
Definition fanout (st : State) (allUpdates : list Stock) (allErrors : list SymError)
    : list Effect :=
  flat_map (push_update st false) allUpdates
  ++ (if Nat.ltb 0 (length allErrors) then flat_map (push_error st) allErrors else []).

(** ** The refresh cycle *)

Definition batchSize : nat := 10.

(** [l.slice(i, j)] for [0 <= i <= j]. *)
Definition slice {A : Type} (i j : nat) (l : list A) : list A :=
  take (j - i) (drop i l).

Definition cycle_batch (cy : Cycle) : list string :=
  slice (cy_i cy) (cy_i cy + batchSize) (cy_symbols cy).

Definition batch_arg (batch : list string) : JsVal := JArr (map JStr batch).

(** The loop test [i < symbols.length]. *)
Definition cycle_running (cy : Cycle) : bool :=
  Nat.ltb (cy_i cy) (length (cy_symbols cy)).

(** The rest of one iteration once the call for the current batch settled
    with [r]: the pushes of the [try], or the [catch] that fails every symbol
    of the batch, then [i += batchSize]. *)
Definition cycle_resume (r : Completion (list Stock * list SymError)) (cy : Cycle)
    : Cycle :=
  match r with
  | Return (stocks, errors) =>
      mkCycle (cy_symbols cy) (cy_i cy + batchSize)
        (cy_allUpdates cy ++ stocks) (cy_allErrors cy ++ errors)
  | Throw msg =>
      mkCycle (cy_symbols cy) (cy_i cy + batchSize)
        (cy_allUpdates cy)
        (cy_allErrors cy ++ map (λ symbol, mkSymError (JStr symbol) msg) (cycle_batch cy))
  end.

(** The batch loop run to its end against a fixed world; [None] when the
    fuel runs out first. The second component lists the calls made. *)
Fixpoint fetch_loop (fuel : nat) (w : World) (cy : Cycle)
    : option (Cycle * list Effect) :=
  match fuel with
  | O => None
  | S fuel' =>
      if cycle_running cy then
        let arg := batch_arg (cycle_batch cy) in
        match fetch_loop fuel' w (cycle_resume (getMultipleStockPrices w arg) cy) with
        | Some (cy', calls) => Some (cy', Call_getMultipleStockPrices arg :: calls)
        | None => None
        end
      else Some (cy, [])
  end.

(** [Array.from(subscriptions.keys())]. *)
Definition subscribed_keys (st : State) : list string :=
  elements (dom (subscriptions st)).

Definition new_cycle (st : State) : Cycle :=
  mkCycle (subscribed_keys st) 0 [] [].

(** [broadcastStockUpdates] with no other handler running between its
    suspension points. *)
Definition broadcastStockUpdates (w : World) (st : State) : option (list Effect) :=
  if Nat.eqb (size (subscriptions st)) 0 then Some []
  else
    match fetch_loop (S (length (subscribed_keys st))) w (new_cycle st) with
    | Some (cy, calls) => Some (calls ++ fanout st (cy_allUpdates cy) (cy_allErrors cy))
    | None => None
    end.

(** ** The forced update *)

Fixpoint force_loop (w : World) (st : State) (stocks : list Stock)
    : list Effect * option string :=
  match stocks with
  | [] => ([], None)
  | stock :: rest =>
      match db_findOneAndUpdate w stock with
      | Throw msg => ([], Some msg)
      | Return _ =>
          let '(effects, thrown) := force_loop w st rest in
          (push_update st true stock ++ effects, thrown)
      end
  end.

Definition forceStockUpdate (w : World) (st : State) (symbols : JsVal)
    : list Effect * Completion (list Stock * list SymError) :=
  match symbols with
  | JArr _ =>
      match getMultipleStockPrices w symbols with
      | Throw msg => ([Call_getMultipleStockPrices symbols], Throw msg)
      | Return (stocks, errors) =>
          match force_loop w st stocks with
          | (effects, Some msg) => (Call_getMultipleStockPrices symbols :: effects, Throw msg)
          | (effects, None) =>
              (Call_getMultipleStockPrices symbols :: effects, Return (stocks, errors))
          end
      end
  | _ => ([], Throw "Symbols array is required")
  end.

(** ** The [subscribe_watchlist] and [ping] handlers *)

(** [watchlist.items.map(item => item.symbol)]. *)
Fixpoint item_symbols (items : list JsVal) : Completion (list JsVal) :=
  match items with
  | [] => Return []
  | item :: rest =>
      match get_prop "symbol" item with
      | Throw msg => Throw msg
      | Return symbol =>
          match item_symbols rest with
          | Throw msg => Throw msg
          | Return symbols => Return (symbol :: symbols)
          end
      end
  end.

Definition watchlist_failed : Outbound :=
  subscription_error "Failed to subscribe to watchlist".

Definition watchlist_empty : Outbound :=
  watchlist_subscribed [] "No watchlist found or empty".

(** The handler from line 183 on, for the value [watchlist] the lookup
    resolved to: the test [!watchlist || !watchlist.items.length], the [map]
    over the items and the emit. Reading [length] of [undefined] or [null]
    throws, and so does [map] on a value that is not an array. The last
    statement is [socket.emit('subscribe', ...)] on the server's socket
    object. It sends an event named [subscribe] to the client; the listeners
    registered with [socket.on] run for events that come from the client
    only. *)
Definition watchlist_reply (watchlist : JsVal) : Outbound :=
  if truthy watchlist then
    match get_member "items" watchlist with
    | JUndefined | JNull => watchlist_failed
    | JArr items =>
        if Nat.eqb (length items) 0 then watchlist_empty
        else
          match item_symbols items with
          | Throw _ => watchlist_failed
          | Return symbols => subscribe_event symbols
          end
    | items =>
        if truthy (get_member "length" items) then watchlist_failed
        else watchlist_empty
    end
  else watchlist_empty.

(** The handler asks the model for [findDefaultWatchlist]. *)
Definition on_subscribe_watchlist (w : World) (clientId : SocketId) (data : JsVal)
    (st : State) : State * list Effect :=
  match get_prop "userId" data with
  | Throw _ => (st, [Emit clientId watchlist_failed])
  | Return userId =>
      if truthy userId then
        match Watchlist_call w "findDefaultWatchlist" userId with
        | Throw _ => (st, [Emit clientId watchlist_failed])
        | Return watchlist => (st, [Emit clientId (watchlist_reply watchlist)])
        end
      else
        (st, [Emit clientId
               (subscription_error "User ID required for watchlist subscription")])
  end.

Definition on_ping (clientId : SocketId) (st : State) : State * list Effect :=
  (st, [Emit clientId pong]).

(** ** The timer callback and the resumption of a suspended cycle *)

(** The callback of [setInterval]. A cleared timer does not fire. The
    callback enters [broadcastStockUpdates], which returns at once on an empty
    index and otherwise takes its snapshot, issues the call for the first
    batch and suspends. *)
Definition on_timer (st : State) : State * list Effect :=
  if updateInterval st then
    if Nat.eqb (size (subscriptions st)) 0 then (st, [])
    else
      let cy := new_cycle st in
      (set_inflight (λ cycles, cycles ++ [cy]) st,
       [Call_getMultipleStockPrices (batch_arg (cycle_batch cy))])
  else (st, []).

(** The call awaited by the [k]-th cycle in flight settles with [r]: the
    cycle either issues the call for its next batch and suspends again, or
    leaves the loop, fans out against the registry as it is now, and ends. *)
Definition on_settle (k : nat) (r : Completion (list Stock * list SymError))
    (st : State) : State * list Effect :=
  match inflight st !! k with
  | None => (st, [])
  | Some cy =>
      let cy' := cycle_resume r cy in
      if cycle_running cy' then
        (set_inflight (λ cycles, <[ k := cy' ]> cycles) st,
         [Call_getMultipleStockPrices (batch_arg (cycle_batch cy'))])
      else
        (set_inflight (λ cycles, delete k cycles) st,
         fanout st (cy_allUpdates cy') (cy_allErrors cy'))
  end.

(** ** Events *)

Inductive Event : Type :=
| Connect (clientId : SocketId)
| Authenticate (clientId : SocketId) (data : JsVal)
| Subscribe (clientId : SocketId) (data : JsVal)
| Unsubscribe (clientId : SocketId) (data : JsVal)
| SubscribeWatchlist (clientId : SocketId) (data : JsVal)
| Ping (clientId : SocketId)
| Disconnect (clientId : SocketId)
| TimerFires
| BatchSettles (k : nat) (r : Completion (list Stock * list SymError)).

Definition handle (w : World) (e : Event) (st : State) : State * list Effect :=
  match e with
  | Connect c => on_connection c st
  | Authenticate c data => on_authenticate c data st
  | Subscribe c data => on_subscribe c data st
  | Unsubscribe c data => on_unsubscribe c data st
  | SubscribeWatchlist c data => on_subscribe_watchlist w c data st
  | Ping c => on_ping c st
  | Disconnect c => on_disconnect c st
  | TimerFires => on_timer st
  | BatchSettles k r => on_settle k r st
  end.

(** The state after a sequence of events, and everything emitted on the way. *)
Fixpoint run (w : World) (events : list Event) (st : State) : State * list Effect :=
  match events with
  | [] => (st, [])
  | e :: rest =>
      let '(st1, out1) := handle w e st in
      let '(st2, out2) := run w rest st1 in
      (st2, out1 ++ out2)
  end.

Definition run_state (w : World) (events : list Event) (st : State) : State :=
  (run w events st).1.

(** The transport gives every connection an identifier of its own: a
    [Connect] never carries the identifier of a connection that is open. *)
Fixpoint fresh_connects (w : World) (events : list Event) (st : State) : bool :=
  match events with
  | [] => true
  | e :: rest =>
      match e with
      | Connect c => bool_decide (connections st !! c = None)
      | _ => true
      end && fresh_connects w rest (handle w e st).1
  end.

(** A world for the examples: no API key, no upstream, no watchlists. *)
Definition offline : World :=
  mkWorld None (λ _, Throw "Network Error") (λ _, Return tt) (λ _ _, Return JNull).

Definition symbols_payload (symbols : list JsVal) : JsVal :=
  JObj [("symbols", JArr symbols)].

(** ** Notions used by the statements *)

(** The set an index holds for a symbol, empty when the symbol is no key. *)
Definition entry (idx : gmap string (gset string)) (s : string) : gset string :=
  default ∅ (idx !! s).

(** An index without empty sets. *)
Definition pruned (idx : gmap string (gset string)) : Prop :=
  ∀ s clients, idx !! s = Some clients → clients ≠ ∅.

(** Both halves of the consistency invariant: the index holds no empty set,
    and the index and the subscription sets of the open connections describe
    the same relation. *)
Definition registry_inv (st : State) : Prop :=
  pruned (subscriptions st)
  ∧ ∀ c s, s ∈ symbolsFor c st ↔ c ∈ connectionsFor s st.

(** The cap rule in the words of the specification: of a request that
    would exceed the cap, the subset that fits is accepted, the remainder is
    reported as rejected with reason "limit exceeded", and the connection
    ends with exactly [MAX_SUBSCRIPTIONS_PER_CLIENT] symbols. *)
Definition accepts_what_fits (c : SocketId) (symbols : list JsVal) (st : State)
    : Prop :=
  let room := MAX_SUBSCRIPTIONS_PER_CLIENT - size (symbolsFor c st) in
  ∃ accepted rejected,
    In (Emit c (subscribed accepted rejected)) (on_subscribe c (symbols_payload symbols) st).2
    ∧ length accepted = room
    ∧ length rejected = length symbols - room
    ∧ Forall (λ e, err_error e = "limit exceeded") rejected
    ∧ size (symbolsFor c (on_subscribe c (symbols_payload symbols) st).1)
      = MAX_SUBSCRIPTIONS_PER_CLIENT.

(** Example data: [tickers n] is a request for the [n] distinct symbols
    [S], [SA], [SAA], ...; [one_client n] is the state after one client
    connected and subscribed to them. *)
Definition ticker (i : nat) : string :=
  String "S" (string_of_list_ascii (replicate i "A"%char)).

Definition tickers (n : nat) : list JsVal :=
  map (λ i, JStr (ticker i)) (seq 0 n).

Definition one_client (n : nat) : State :=
  run_state offline
    [Connect "c1"; Subscribe "c1" (symbols_payload (tickers n))] initial_state.

Definition five_new : list JsVal :=
  [JStr "NEW1"; JStr "NEW2"; JStr "NEW3"; JStr "NEW4"; JStr "NEW5"].

(** A requested element that would add nothing to the subscription set
    [subs]: it has no [toUpperCase], or it cleans to the empty string, or it
    cleans to a symbol that is in [subs] already. *)
Definition adds_nothing (subs : gset string) (v : JsVal) : bool :=
  match cleanSymbol v with
  | Return clean => String.eqb clean "" || bool_decide (clean ∈ subs)
  | Throw _ => true
  end.

(** A requested element that is some spelling of a symbol of [subs]. *)
Definition already_subscribed (subs : gset string) (v : JsVal) : bool :=
  match cleanSymbol v with
  | Return clean => bool_decide (clean ∈ subs)
  | Throw _ => false
  end.

(** No connection holds the empty symbol. *)
Definition no_blank (st : State) : Prop :=
  ∀ c, "" ∉ symbolsFor c st.

(** The idempotence rule in the words of the specification, for one
    requested element [v]: the subscribe is answered with [subscribed], [v]
    among the accepted symbols and no error. *)
Definition resubscribe_accepted (c : SocketId) (v : JsVal) (st : State) : Prop :=
  ∃ accepted,
    In (Emit c (subscribed accepted [])) (on_subscribe c (symbols_payload [v]) st).2
    ∧ ∃ clean, cleanSymbol v = Return clean ∧ In clean accepted.

(** The scheduler rule of the specification: the timer is active exactly
    when the index is not empty. *)
Definition timer_matches_index (st : State) : Prop :=
  updateInterval st = negb (Nat.eqb (size (subscriptions st)) 0).

Definition is_string (v : JsVal) : bool :=
  match v with
  | JStr _ => true
  | _ => false
  end.

(** An event other than an unsubscribe whose array holds an element that is
    not a string. *)
Definition unsubscribes_strings (e : Event) : bool :=
  match e with
  | Unsubscribe _ data =>
      match get_prop "symbols" data with
      | Return (JArr symbols) => forallb is_string symbols
      | _ => true
      end
  | _ => true
  end.

(** One client subscribes to AAPL and then unsubscribes with an array
    whose second element is a number. *)
Definition unsubscribe_with_number : list Event :=
  [Connect "c1";
   Subscribe "c1" (symbols_payload [JStr "AAPL"]);
   Unsubscribe "c1" (symbols_payload [JStr "AAPL"; JNum 42])].

(** What one batch contributes to a cycle: the quotes of a call that
    returned, and its errors or, for a call that threw, one error per symbol
    of the batch. *)
Definition batch_updates (w : World) (batch : list string) : list Stock :=
  match getMultipleStockPrices w (batch_arg batch) with
  | Return (stocks, _) => stocks
  | Throw _ => []
  end.

Definition batch_errors (w : World) (batch : list string) : list SymError :=
  match getMultipleStockPrices w (batch_arg batch) with
  | Return (_, errors) => errors
  | Throw msg => map (λ symbol, mkSymError (JStr symbol) msg) batch
  end.

Definition call_for (batch : list string) : Effect :=
  Call_getMultipleStockPrices (batch_arg batch).

Definition is_emit (e : Effect) : bool :=
  match e with
  | Emit _ _ => true
  | _ => false
  end.

(** Example data for the fan-out: a provider that knows the symbol GOOD
    only, and three clients subscribed to GOOD, to BAD, and to both. *)
Definition quote_of (symbol : string) : JsVal :=
  JObj [("quote", JObj [("symbol", JStr symbol); ("latestPrice", JNum 100)])].

Definition good_only : World :=
  mkWorld (Some "pk_test") (λ _, Return (JObj [("GOOD", quote_of "GOOD")]))
    (λ _, Return tt) (λ _ _, Return JNull).

Definition three_clients : State :=
  run_state good_only
    [Connect "g"; Connect "b"; Connect "gb";
     Subscribe "g" (symbols_payload [JStr "good"]);
     Subscribe "b" (symbols_payload [JStr "bad"]);
     Subscribe "gb" (symbols_payload [JStr "good"; JStr "bad"])] initial_state.

Definition good_stock : Stock :=
  mkStock (Some "GOOD") (JObj [("symbol", JStr "GOOD"); ("latestPrice", JNum 100)]).

Definition bad_error : SymError := mkSymError (JStr "BAD") "Stock not found".

(** A provider whose answer to a full batch of ten symbols does not arrive
    in time. *)
Definition flaky : World :=
  mkWorld (Some "pk_test")
    (λ url, if Nat.ltb 120 (String.length url)
            then Throw "timeout of 15000ms exceeded"
            else Return (JObj []))
    (λ _, Return tt) (λ _ _, Return JNull).

(** The overlap rule of the specification: at no moment are two refresh
    cycles in flight. *)
Definition cycles_never_overlap : Prop :=
  ∀ w events,
    fresh_connects w events initial_state = true →
    length (inflight (run_state w events initial_state)) ≤ 1.

(** A client subscribes to 25 symbols, which makes three batches. The
    timer fires; the calls for the first two batches settle, each after
    almost 15 seconds; the timer fires again while the third is awaited. *)
Definition slow_upstream : list Event :=
  [Connect "c1";
   Subscribe "c1" (symbols_payload (tickers 25));
   TimerFires;
   BatchSettles 0 (Throw "timeout of 15000ms exceeded");
   BatchSettles 0 (Throw "timeout of 15000ms exceeded");
   TimerFires].

(** A watchlist document as its schema has it, as far as the engine could
    read it. *)
Definition watchlist_document (userId : JsVal) (stocks : list JsVal) : JsVal :=
  JObj [("userId", userId); ("name", JStr "My Watchlist"); ("stocks", JArr stocks)].

Definition two_stocks : list JsVal :=
  [JObj [("symbol", JStr "AAPL"); ("name", JStr "Apple Inc.")];
   JObj [("symbol", JStr "MSFT"); ("name", JStr "Microsoft Corporation")]].

(** A database in which every user has one watchlist, the default one,
    with two stocks. *)
Definition with_watchlist : World :=
  mkWorld None (λ _, Throw "Network Error") (λ _, Return tt)
    (λ static userId,
       match static with
       | findDefaultByUserId => Return (watchlist_document userId two_stocks)
       | findByUserId => Return (JArr [watchlist_document userId two_stocks])
       | findByShareToken => Return JNull
       | findPublicWatchlists => Return (JArr [])
       end).

Definition watchlist_request : list Event :=
  [Connect "c1"; SubscribeWatchlist "c1" (JObj [("userId", JStr "u1")])].

Definition direct_request : list Event :=
  [Connect "c1"; Subscribe "c1" (symbols_payload [JStr "AAPL"; JStr "MSFT"])].

(** Three clients that hold 150 symbols between them. *)
Definition ticker_range (first n : nat) : list JsVal :=
  map (λ i, JStr (ticker i)) (seq first n).

Definition crowded : State :=
  run_state offline
    [Connect "c1"; Connect "c2"; Connect "c3";
     Subscribe "c1" (symbols_payload (ticker_range 0 50));
     Subscribe "c2" (symbols_payload (ticker_range 50 50));
     Subscribe "c3" (symbols_payload (ticker_range 100 50))] initial_state.

Definition is_call (e : Effect) : bool :=
  match e with
  | Call_getMultipleStockPrices _ => true
  | _ => false
  end.

(** * Further parts of the code *)

(** ** Statistics *)

(** The object [getWebSocketStats] returns. *)
Record WebSocketStats : Type := mkStats {
  activeConnections : nat;
  totalSubscriptions : nat;
  uniqueSymbols : nat;
  updateIntervalActive : bool;
  stats_updateInterval : Z
}.

(** [Array.from(subscriptions.values()).reduce((total, clients) =>
    total + clients.size, 0)]. *)
Definition total_clients (idx : gmap string (gset string)) : nat :=
  fold_left (λ total clients, total + size clients) (map snd (map_to_list idx)) 0.

Definition getWebSocketStats (st : State) : WebSocketStats :=
  mkStats (size (connections st)) (total_clients (subscriptions st))
    (size (subscriptions st)) (updateInterval st) UPDATE_INTERVAL.

(** ** Further notions used by the statements *)

(** What the subscribe loop makes of one requested element: the symbol it
    accepts, or nothing when the element has no [toUpperCase] or cleans to
    the empty string. *)
Definition accepted_symbol (v : JsVal) : option string :=
  match cleanSymbol v with
  | Return clean => if String.eqb clean "" then None else Some clean
  | Throw _ => None
  end.

(** The cleaned symbols of the elements in front of the first one that has
    no [toUpperCase]. *)
Fixpoint clean_prefix (symbols : list JsVal) : list string :=
  match symbols with
  | [] => []
  | v :: rest =>
      match cleanSymbol v with
      | Return clean => clean :: clean_prefix rest
      | Throw _ => []
      end
  end.

(** No connection holds more symbols than the cap. *)
Definition within_cap (st : State) : Prop :=
  ∀ c, size (symbolsFor c st) ≤ MAX_SUBSCRIPTIONS_PER_CLIENT.

(** The number of symbols held, summed over the open connections. *)
Definition held_total (st : State) : nat :=
  fold_left (λ total conn, total + size (conn_subscriptions conn))
    (map snd (map_to_list (connections st))) 0.

(** The pairs a list of keyed sets stands for, each pair built by [mk] from
    the key and an element, and the sum of the sizes of the sets. *)
Definition pairs_with (mk : string → string → string * string)
    (l : list (string * gset string)) : gset (string * string) :=
  ⋃ (map (λ kS, set_map (mk kS.1) kS.2) l).

Definition sum_sizes (l : list (string * gset string)) : nat :=
  fold_left (λ total (S : gset string), total + size S) (map snd l) 0.

(** A string that does not begin with white space. *)
Definition starts_clean (s : string) : bool :=
  match s with
  | EmptyString => true
  | String a _ => negb (is_whitespace a)
  end.

(** ** The stock API module: single quotes with provider fallback *)

(** A document of the [Stock] collection, as far as the engine reads it:
    the quote and [lastUpdated] in milliseconds. *)
Record StockDoc : Type := mkStockDoc {
  doc_stock : Stock;
  doc_lastUpdated : Z
}.

(** The collaborators of the single-quote path, beside those of [World]:
    the API key of the second provider, the status of the response an HTTP
    GET failed with (if it had one), the text the runtime gives
    [new Error(v)] for a value [v], and the lookup [Stock.findOne] by symbol
    among the active documents. *)
Record Services : Type := mkServices {
  sv_world : World;
  ALPHA_VANTAGE_API_KEY : option string;
  http_status : string → option nat;
  error_text : JsVal → string;
  db_findOne : string → Completion (option StockDoc)
}.

Definition ALPHA_VANTAGE_BASE_URL : string := "https://www.alphavantage.co/query".

Definition getAlphaVantageApiKey (sv : Services) : Completion string :=
  match ALPHA_VANTAGE_API_KEY sv with
  | Some key => if String.eqb key "" then Throw "ALPHA_VANTAGE_API_KEY is not configured"
                else Return key
  | None => Throw "ALPHA_VANTAGE_API_KEY is not configured"
  end.

Definition iex_quote_url (symbol apiKey : string) : string :=
  IEX_BASE_URL +:+ "/stock/" +:+ symbol +:+ "/quote?token=" +:+ apiKey.

Definition av_quote_url (symbol apiKey : string) : string :=
  ALPHA_VANTAGE_BASE_URL +:+ "?function=GLOBAL_QUOTE&symbol=" +:+ symbol
    +:+ "&apikey=" +:+ apiKey.

Definition iex_failed : string := "Failed to fetch stock data from IEX: ".
Definition av_failed : string := "Failed to fetch stock data from Alpha Vantage: ".

(** [getStockPriceFromIEX]: the URLs requested and the outcome. *)
Definition getStockPriceFromIEX (sv : Services) (symbol : string)
    : list string * Completion Stock :=
  match getIEXApiKey (sv_world sv) with
  | Throw msg => ([], Throw (iex_failed +:+ msg))
  | Return apiKey =>
      let url := iex_quote_url symbol apiKey in
      match axios_get (sv_world sv) url with
      | Throw msg =>
          ([url],
           match http_status sv url with
           | Some 404 => Throw ("Stock symbol '" +:+ symbol +:+ "' not found")
           | _ => Throw (iex_failed +:+ msg)
           end)
      | Return data =>
          if truthy data then
            match formatStockData data with
            | Return stock => ([url], Return stock)
            | Throw msg => ([url], Throw (iex_failed +:+ msg))
            end
          else ([url], Throw (iex_failed +:+ "No data received from IEX"))
      end
  end.

(** [formatStockData(data, 'alphavantage')] for a truthy [data]:
    [quote['01. symbol']?.toUpperCase()] and
    [quote['10. change percent']?.replace('%', '')] are the parts that can
    throw. *)
Definition formatStockData_alphavantage (data : JsVal) : Completion Stock :=
  let quote := if truthy (get_member "Global Quote" data)
               then get_member "Global Quote" data else data in
  match get_member "01. symbol" quote with
  | JUndefined | JNull | JStr _ =>
      match get_member "10. change percent" quote with
      | JUndefined | JNull | JStr _ =>
          Return (mkStock
                    match get_member "01. symbol" quote with
                    | JStr s => Some (toUpperCase s)
                    | _ => None
                    end quote)
      | _ => Throw "quote['10. change percent']?.replace is not a function"
      end
  | _ => Throw "quote['01. symbol']?.toUpperCase is not a function"
  end.

(** The checks of [getStockPriceFromAlphaVantage] on the body of the
    response. *)
Definition alphavantage_body (sv : Services) (data : JsVal) : Completion Stock :=
  match data with
  | JUndefined =>
      Throw (av_failed +:+ "Cannot read properties of undefined (reading 'Error Message')")
  | JNull =>
      Throw (av_failed +:+ "Cannot read properties of null (reading 'Error Message')")
  | _ =>
      if negb (truthy data) then Throw (av_failed +:+ "Invalid API call")
      else if truthy (get_member "Error Message" data)
      then Throw (av_failed +:+ error_text sv (get_member "Error Message" data))
      else if truthy (get_member "Note" data)
      then Throw (av_failed +:+ "API call frequency limit reached")
      else
        match formatStockData_alphavantage data with
        | Return stock => Return stock
        | Throw msg => Throw (av_failed +:+ msg)
        end
  end.

Definition getStockPriceFromAlphaVantage (sv : Services) (symbol : string)
    : list string * Completion Stock :=
  match getAlphaVantageApiKey sv with
  | Throw msg => ([], Throw (av_failed +:+ msg))
  | Return apiKey =>
      let url := av_quote_url symbol apiKey in
      match axios_get (sv_world sv) url with
      | Throw msg => ([url], Throw (av_failed +:+ msg))
      | Return data => ([url], alphavantage_body sv data)
      end
  end.

(** [getStockPrice]: IEX first, Alpha Vantage when IEX fails. *)
Definition getStockPrice (sv : Services) (symbol : JsVal)
    : list string * Completion Stock :=
  match symbol with
  | JStr s =>
      if String.eqb s "" then ([], Throw "Valid stock symbol is required")
      else
        let cleanSymbol := toUpperCase (trim s) in
        match getStockPriceFromIEX sv cleanSymbol with
        | (calls, Return stock) => (calls, Return stock)
        | (calls, Throw _) =>
            match getStockPriceFromAlphaVantage sv cleanSymbol with
            | (calls', Return stock) => (calls ++ calls', Return stock)
            | (calls', Throw msg) =>
                (calls ++ calls',
                 Throw ("Unable to fetch stock data for " +:+ cleanSymbol +:+ ": " +:+ msg))
            end
        end
  | _ => ([], Throw "Valid stock symbol is required")
  end.

(** [testApiConnection]: the status and the message of the object it
    returns. *)
Definition testApiConnection (sv : Services) : string * string :=
  match (getStockPrice sv (JStr "AAPL")).2 with
  | Return _ => ("success", "API connection successful")
  | Throw msg => ("error", msg)
  end.

(** ** The snapshot for a fresh subscribe *)





(** Example services: no IEX key; Alpha Vantage answers every request with
    a quote for [aapl]; no document is stored. *)
Definition alphavantage_only : Services :=
  mkServices
    (mkWorld None
       (λ _, Return (JObj [("Global Quote",
                            JObj [("01. symbol", JStr "aapl");
                                  ("10. change percent", JStr "1.2%")])]))
       (λ _, Return tt) (λ _ _, Return JNull))
    (Some "demo") (λ _, None) (λ _, "") (λ _, Return None).



(** ** The forced update: the quotes stored before the first failed upsert *)

Fixpoint stored_prefix (w : World) (stocks : list Stock) : list Stock :=
  match stocks with
  | [] => []
  | stock :: rest =>
      match db_findOneAndUpdate w stock with
      | Return _ => stock :: stored_prefix w rest
      | Throw _ => []
      end
  end.

(** A database that refuses the quote for BAD. *)
Definition picky_store : World :=
  mkWorld (Some "pk_test")
    (λ _, Return (JObj [("GOOD", quote_of "GOOD"); ("BAD", quote_of "BAD")]))
    (λ stock, if bool_decide (stock_symbol stock = Some "BAD")
              then Throw "Stock validation failed" else Return tt)
    (λ _ _, Return JNull).

(** ** API utilities *)

Definition is_upper_letter (a : ascii) : bool :=
  let n := nat_of_ascii a in
  Nat.leb 65 n && Nat.leb n 90.

(** [/^[A-Z]{1,5}$/.test(s)]. *)
Definition symbol_format (s : string) : bool :=
  Nat.leb 1 (String.length s) && Nat.leb (String.length s) 5
  && forallb is_upper_letter (list_ascii_of_string s).

Definition validateStockSymbol (symbol : JsVal) : Completion string :=
  match symbol with
  | JStr s =>
      if String.eqb s "" then Throw "Stock symbol is required and must be a string"
      else
        let sanitized := toUpperCase (trim s) in
        if symbol_format sanitized then Return sanitized
        else Throw "Invalid stock symbol format"
  | _ => Throw "Stock symbol is required and must be a string"
  end.

(** [retryWithBackoff] for a natural number [maxRetries]. [fn attempt] is
    the outcome of the call made in iteration [attempt]; [remaining] counts
    the iterations left after this one, [maxRetries - attempt]. The result
    lists the delays waited, in milliseconds, and gives the outcome. *)
Fixpoint retry_from {A : Type} (fn : nat → Completion A) (baseDelay attempt remaining : nat)
    : list nat * Completion A :=
  match fn attempt with
  | Return a => ([], Return a)
  | Throw e =>
      match remaining with
      | O => ([], Throw e)
      | S remaining' =>
          let '(delays, outcome) := retry_from fn baseDelay (S attempt) remaining' in
          (baseDelay * 2 ^ attempt :: delays, outcome)
      end
  end.

Definition retryWithBackoff {A : Type} (fn : nat → Completion A)
    (maxRetries baseDelay : nat) : list nat * Completion A :=
  retry_from fn baseDelay 0 maxRetries.

(** One call of a function made by [throttle(func, delay)], at time
    [now]: the new value of [lastCall] and whether [func] ran. *)
Definition throttle_call (delay lastCall now : Z) : Z * bool :=
  if (delay <=? now - lastCall)%Z then (now, true) else (lastCall, false).

(** The times at which [func] ran, for calls made at [times]. *)
Fixpoint throttle_run (delay lastCall : Z) (times : list Z) : list Z :=
  match times with
  | [] => []
  | now :: rest =>
      let '(lastCall', ran) := throttle_call delay lastCall now in
      if ran then now :: throttle_run delay lastCall' rest
      else throttle_run delay lastCall' rest
  end.

(** [lastCall] starts at 0. *)
Definition throttled (delay : Z) (times : list Z) : list Z :=
  throttle_run delay 0 times.

(** Successive times that lie at least [delay] apart, the first at least
    [delay] after [last]. *)
Fixpoint spaced (delay last : Z) (times : list Z) : Prop :=
  match times with
  | [] => True
  | t :: rest => (delay ≤ t - last)%Z ∧ spaced delay t rest
  end.

(** ** Authentication and the rest of the engine *)

(** The state with every [userId] back at [null], its value at connection
    time. *)
Definition forget_users (st : State) : State :=
  set_connections (fmap (conn_set_userId JNull)) st.

Definition is_authenticate (e : Event) : bool :=
  match e with
  | Authenticate _ _ => true
  | _ => false
  end.

(** The two messages the [authenticate] handler emits. *)
Definition is_authenticate_reply (x : Effect) : bool :=
  match x with
  | Emit _ (authenticated _) => true
  | Emit _ (authentication_error _) => true
  | _ => false
  end.

Definition other_events (events : list Event) : list Event :=
  List.filter (λ e, negb (is_authenticate e)) events.

Definition other_effects (effects : list Effect) : list Effect :=
  List.filter (λ x, negb (is_authenticate_reply x)) effects.

(** * Properties *)

(** ** The index primitives, seen through [connectionsFor] *)

Section IndexPrimitives.
Implicit Types (idx : gmap string (gset string)) (s : string) (c : SocketId).

Lemma index_add_lookup idx s c s' :
  index_add s c idx !! s' =
    if decide (s = s') then Some (entry idx s ∪ {[ c ]}) else idx !! s'.
Proof.
  unfold index_add, entry.
  destruct (idx !! s) as [clients|] eqn:Hs; case_decide as Heq; subst.
  - by rewrite lookup_alter_eq, Hs.
  - by rewrite lookup_alter_ne.
  - by rewrite lookup_alter_eq, lookup_insert_eq.
  - by rewrite lookup_alter_ne, lookup_insert_ne.
Qed.

Lemma index_remove_lookup idx s c s' :
  index_remove s c idx !! s' =
    if decide (s = s') then
      match idx !! s with
      | Some clients =>
          if decide (clients ∖ {[ c ]} = ∅) then None else Some (clients ∖ {[ c ]})
      | None => None
      end
    else idx !! s'.
Proof.
  unfold index_remove.
  destruct (idx !! s) as [clients|] eqn:Hs.
  - rewrite lookup_alter_eq, Hs. simpl.
    destruct (Nat.eqb_spec (size (clients ∖ {[ c ]})) 0) as [Hz|Hnz].
    + apply size_empty_inv in Hz. apply leibniz_equiv in Hz.
      case_decide as Heq; subst.
      * rewrite lookup_delete_eq. by case_decide.
      * by rewrite lookup_delete_ne, lookup_alter_ne.
    + case_decide as Heq; subst.
      * rewrite lookup_alter_eq, Hs. simpl. case_decide as He; [|done].
        exfalso. apply Hnz. rewrite He. apply size_empty.
      * by rewrite lookup_alter_ne.
  - case_decide; subst; done.
Qed.

Lemma entry_index_add idx s c s' :
  entry (index_add s c idx) s' =
    if decide (s = s') then entry idx s ∪ {[ c ]} else entry idx s'.
Proof. unfold entry at 1. rewrite index_add_lookup. by case_decide. Qed.

Lemma entry_index_remove idx s c s' :
  entry (index_remove s c idx) s' =
    if decide (s = s') then entry idx s ∖ {[ c ]} else entry idx s'.
Proof.
  unfold entry at 1. rewrite index_remove_lookup.
  case_decide as Heq; [subst|done].
  unfold entry. destruct (idx !! s') as [clients|]; simpl.
  - case_decide as He; simpl; [by rewrite He|done].
  - by rewrite empty_difference_L.
Qed.

Lemma pruned_index_add idx s c : pruned idx → pruned (index_add s c idx).
Proof.
  intros Hp s' clients. rewrite index_add_lookup.
  case_decide; [|by apply Hp]. intros [= <-]. set_solver.
Qed.

Lemma pruned_index_remove idx s c : pruned idx → pruned (index_remove s c idx).
Proof.
  intros Hp s' clients. rewrite index_remove_lookup.
  case_decide; [|by apply Hp].
  destruct (idx !! s); [|done]. case_decide; [done|]. by intros [= <-].
Qed.

Lemma entry_index_remove_all idx c (symbols : list string) s' :
  entry (index_remove_all c symbols idx) s' =
    if decide (s' ∈ symbols) then entry idx s' ∖ {[ c ]} else entry idx s'.
Proof.
  unfold index_remove_all. revert idx.
  induction symbols as [|s symbols IH]; intros idx; cbn [fold_left].
  - case_decide as Hin; [by apply elem_of_nil in Hin|done].
  - rewrite IH, !entry_index_remove.
    destruct (decide (s = s')) as [->|Hne].
    + repeat case_decide; set_solver.
    + repeat case_decide; set_solver.
Qed.

Lemma pruned_index_remove_all idx c (symbols : list string) :
  pruned idx → pruned (index_remove_all c symbols idx).
Proof.
  unfold index_remove_all. revert idx.
  induction symbols as [|s symbols IH]; intros idx Hp; simpl; [done|].
  by apply IH, pruned_index_remove.
Qed.

Lemma entry_elem_of idx s c :
  c ∈ entry idx s ↔ ∃ clients, idx !! s = Some clients ∧ c ∈ clients.
Proof.
  unfold entry. destruct (idx !! s) as [clients|]; simpl.
  - split; [eauto|]. by intros (? & [= <-] & ?).
  - split; [set_solver|]. by intros (? & ? & ?).
Qed.
End IndexPrimitives.

(** ** The registry invariant *)

Section RegistryViews.
Implicit Types (st : State) (s : string) (c : SocketId).

Lemma symbolsFor_conn_add st c s c' :
  is_Some (connections st !! c) →
  symbolsFor c' (set_connections (alter (conn_add s) c) st) =
    if decide (c = c') then symbolsFor c st ∪ {[ s ]} else symbolsFor c' st.
Proof.
  intros [conn Hc]. unfold symbolsFor, set_connections; simpl.
  case_decide as Heq; subst.
  - by rewrite lookup_alter_eq, Hc.
  - by rewrite lookup_alter_ne.
Qed.

Lemma symbolsFor_conn_delete st c s c' :
  symbolsFor c' (set_connections (alter (conn_delete s) c) st) =
    if decide (c = c') then symbolsFor c st ∖ {[ s ]} else symbolsFor c' st.
Proof.
  unfold symbolsFor, set_connections; simpl.
  case_decide as Heq; subst.
  - rewrite lookup_alter_eq. destruct (connections st !! c'); simpl; [done|].
    by rewrite empty_difference_L.
  - by rewrite lookup_alter_ne.
Qed.

Lemma symbolsFor_disconnect st c c' :
  symbolsFor c' (set_connections (delete c) st) =
    if decide (c = c') then ∅ else symbolsFor c' st.
Proof.
  unfold symbolsFor, set_connections; simpl.
  case_decide as Heq; subst.
  - by rewrite lookup_delete_eq.
  - by rewrite lookup_delete_ne.
Qed.

Lemma symbolsFor_connect_fresh st c c' :
  connections st !! c = None →
  symbolsFor c' (set_connections (insert c (mkConnection ∅ JNull true)) st)
  = symbolsFor c' st.
Proof.
  intros Hc. unfold symbolsFor, set_connections; simpl.
  destruct (decide (c = c')) as [<-|Hne].
  - by rewrite lookup_insert_eq, Hc.
  - by rewrite lookup_insert_ne.
Qed.

Lemma symbolsFor_authenticate st c u c' :
  symbolsFor c' (set_connections (alter (conn_set_userId u) c) st) = symbolsFor c' st.
Proof.
  unfold symbolsFor, set_connections; simpl.
  destruct (decide (c = c')) as [<-|Hne].
  - rewrite lookup_alter_eq. by destruct (connections st !! c).
  - by rewrite lookup_alter_ne.
Qed.

Lemma inv_add st c s :
  is_Some (connections st !! c) →
  registry_inv st →
  registry_inv
    (set_subscriptions (index_add s c) (set_connections (alter (conn_add s) c) st)).
Proof.
  intros Hc [Hp Hrel]. split.
  - by apply pruned_index_add.
  - intros c' s'.
    change (s' ∈ symbolsFor c' (set_connections (alter (conn_add s) c) st)
            ↔ c' ∈ entry (index_add s c (subscriptions st)) s').
    rewrite symbolsFor_conn_add, entry_index_add by done.
    pose proof (Hrel c' s') as H1. pose proof (Hrel c s') as H2.
    pose proof (Hrel c' s) as H3. pose proof (Hrel c s) as H4.
    change (connectionsFor ?x st) with (entry (subscriptions st) x) in *.
    repeat case_decide; subst; set_solver.
Qed.

Lemma inv_remove st c s :
  registry_inv st →
  registry_inv
    (set_subscriptions (index_remove s c)
       (set_connections (alter (conn_delete s) c) st)).
Proof.
  intros [Hp Hrel]. split.
  - by apply pruned_index_remove.
  - intros c' s'.
    change (s' ∈ symbolsFor c' (set_connections (alter (conn_delete s) c) st)
            ↔ c' ∈ entry (index_remove s c (subscriptions st)) s').
    rewrite symbolsFor_conn_delete, entry_index_remove.
    pose proof (Hrel c' s') as H1. pose proof (Hrel c s') as H2.
    pose proof (Hrel c' s) as H3. pose proof (Hrel c s) as H4.
    change (connectionsFor ?x st) with (entry (subscriptions st) x) in *.
    repeat case_decide; subst; set_solver.
Qed.

Lemma inv_disconnect st c :
  registry_inv st →
  registry_inv
    (set_connections (delete c)
       (set_subscriptions (index_remove_all c (elements (symbolsFor c st))) st)).
Proof.
  intros [Hp Hrel]. split.
  - by apply pruned_index_remove_all.
  - intros c' s'.
    change (s' ∈ symbolsFor c' (set_connections (delete c) st)
            ↔ c' ∈ entry (index_remove_all c (elements (symbolsFor c st))
                            (subscriptions st)) s').
    rewrite symbolsFor_disconnect, entry_index_remove_all.
    pose proof (Hrel c' s') as H1. pose proof (Hrel c s') as H2.
    change (connectionsFor ?x st) with (entry (subscriptions st) x) in *.
    repeat case_decide; subst; rewrite ?elem_of_elements in *; set_solver.
Qed.

Lemma inv_same_registry st st' :
  (∀ c, symbolsFor c st' = symbolsFor c st) →
  subscriptions st' = subscriptions st →
  registry_inv st → registry_inv st'.
Proof.
  intros Hsym Hsub [Hp Hrel]. split.
  - by rewrite Hsub.
  - intros c s. unfold connectionsFor. rewrite Hsym, Hsub. apply Hrel.
Qed.

(** The timer functions leave the registry alone. *)
Lemma start_if_needed_registry st :
  connections (start_if_needed st) = connections st
  ∧ subscriptions (start_if_needed st) = subscriptions st.
Proof. unfold start_if_needed. by destruct (_ && _). Qed.

Lemma stop_if_unused_registry st :
  connections (stop_if_unused st) = connections st
  ∧ subscriptions (stop_if_unused st) = subscriptions st.
Proof.
  unfold stop_if_unused, stopUpdateInterval.
  destruct (_ && _); [|done]. by destruct (updateInterval st).
Qed.

Lemma inv_same_maps st st' :
  connections st' = connections st →
  subscriptions st' = subscriptions st →
  registry_inv st → registry_inv st'.
Proof.
  intros Hc Hs. apply inv_same_registry; [|done].
  intros c. unfold symbolsFor. by rewrite Hc.
Qed.

Lemma subscribe_symbol_inv c acc v :
  is_Some (connections (sa_state acc) !! c) →
  registry_inv (sa_state acc) →
  is_Some (connections (sa_state (subscribe_symbol c acc v)) !! c)
  ∧ registry_inv (sa_state (subscribe_symbol c acc v)).
Proof.
  intros Hc Hinv. unfold subscribe_symbol.
  destruct (cleanSymbol v) as [clean|msg]; [|done].
  destruct (String.eqb clean ""); [done|]. simpl. split.
  - destruct Hc as [conn Hc]. rewrite lookup_alter_eq, Hc. by eexists.
  - by apply inv_add.
Qed.

Lemma subscribe_fold_inv c symbols acc :
  is_Some (connections (sa_state acc) !! c) →
  registry_inv (sa_state acc) →
  registry_inv (sa_state (fold_left (subscribe_symbol c) symbols acc)).
Proof.
  revert acc. induction symbols as [|v symbols IH]; intros acc Hc Hinv; [done|].
  simpl. destruct (subscribe_symbol_inv c acc v Hc Hinv). by apply IH.
Qed.

Lemma on_subscribe_inv c data st :
  registry_inv st → registry_inv (on_subscribe c data st).1.
Proof.
  intros Hinv. unfold on_subscribe.
  destruct (get_prop "symbols" data) as [[| | | | |symbols|]|]; try done.
  destruct (connections st !! c) as [conn|] eqn:Hc; [|done].
  destruct (Nat.ltb _ _); [done|]. simpl.
  destruct (start_if_needed_registry (sa_state (subscribe_loop c symbols st))).
  eapply inv_same_maps; [done..|].
  apply subscribe_fold_inv; simpl; [by eexists|done].
Qed.

Lemma unsubscribe_loop_inv c symbols st acc :
  registry_inv st → registry_inv (unsubscribe_loop c symbols st acc).1.1.
Proof.
  revert st acc. induction symbols as [|v symbols IH]; intros st acc Hinv; [done|].
  simpl. destruct (cleanSymbol v) as [clean|msg]; [|done].
  by apply IH, inv_remove.
Qed.

Lemma on_unsubscribe_inv c data st :
  registry_inv st → registry_inv (on_unsubscribe c data st).1.
Proof.
  intros Hinv. unfold on_unsubscribe.
  destruct (get_prop "symbols" data) as [[| | | | |symbols|]|]; try done.
  destruct (connections st !! c) as [conn|] eqn:Hc; [|done].
  pose proof (unsubscribe_loop_inv c symbols st [] Hinv) as Hloop.
  destruct (unsubscribe_loop c symbols st []) as [[st' unsub] [msg|]]; [done|].
  simpl in *. destruct (stop_if_unused_registry st').
  by eapply inv_same_maps.
Qed.

Lemma on_disconnect_inv c st :
  registry_inv st → registry_inv (on_disconnect c st).1.
Proof.
  intros Hinv. unfold on_disconnect. simpl.
  match goal with |- registry_inv (stop_if_unused ?x) =>
    destruct (stop_if_unused_registry x) end.
  eapply inv_same_maps; [done..|].
  pose proof (inv_disconnect st c Hinv) as Hd.
  unfold symbolsFor in Hd.
  destruct (connections st !! c) as [conn|] eqn:Hc; [done|].
  revert Hd. rewrite elements_empty. simpl.
  apply inv_same_maps; done.
Qed.

Lemma on_connection_inv c st :
  connections st !! c = None →
  registry_inv st → registry_inv (on_connection c st).1.
Proof.
  intros Hc. apply inv_same_registry; [|done].
  intros c'. by apply symbolsFor_connect_fresh.
Qed.

Lemma on_authenticate_inv c data st :
  registry_inv st → registry_inv (on_authenticate c data st).1.
Proof.
  intros Hinv. unfold on_authenticate.
  destruct (get_prop "userId" data) as [userId|]; [|done].
  destruct (truthy userId); [|done].
  destruct (connections st !! c); [|done].
  revert Hinv. apply inv_same_registry; [|done].
  intros c'. apply symbolsFor_authenticate.
Qed.

Lemma findDefaultWatchlist_is_no_static w userId :
  Watchlist_call w "findDefaultWatchlist" userId
  = Throw "Watchlist.findDefaultWatchlist is not a function".
Proof. reflexivity. Qed.

Lemma on_subscribe_watchlist_state w c data st :
  (on_subscribe_watchlist w c data st).1 = st.
Proof.
  unfold on_subscribe_watchlist.
  destruct (get_prop "userId" data) as [userId|]; [|done].
  destruct (truthy userId); [|done].
  by destruct (Watchlist_call w _ userId).
Qed.

Lemma on_timer_registry st :
  connections (on_timer st).1 = connections st
  ∧ subscriptions (on_timer st).1 = subscriptions st
  ∧ updateInterval (on_timer st).1 = updateInterval st.
Proof.
  unfold on_timer. destruct (updateInterval st) eqn:Ht; [|done].
  by destruct (Nat.eqb _ _).
Qed.

Lemma on_settle_registry k r st :
  connections (on_settle k r st).1 = connections st
  ∧ subscriptions (on_settle k r st).1 = subscriptions st
  ∧ updateInterval (on_settle k r st).1 = updateInterval st.
Proof.
  unfold on_settle. destruct (inflight st !! k) as [cy|]; [|done].
  by destruct (cycle_running _).
Qed.

Lemma initial_inv : registry_inv initial_state.
Proof.
  split.
  - intros s clients. simpl. by rewrite lookup_empty.
  - intros c s. unfold symbolsFor, connectionsFor. simpl.
    rewrite ?lookup_empty. simpl. set_solver.
Qed.

Lemma handle_inv w e st :
  fresh_connects w [e] st = true →
  registry_inv st → registry_inv (handle w e st).1.
Proof.
  intros Hfresh Hinv. destruct e as [c|c data|c data|c data|c data|c|c| |k r]; simpl.
  - simpl in Hfresh. rewrite andb_true_r in Hfresh.
    apply bool_decide_eq_true in Hfresh. by apply on_connection_inv.
  - by apply on_authenticate_inv.
  - by apply on_subscribe_inv.
  - by apply on_unsubscribe_inv.
  - by rewrite on_subscribe_watchlist_state.
  - done.
  - by apply on_disconnect_inv.
  - destruct (on_timer_registry st) as (? & ? & ?). by eapply inv_same_maps.
  - destruct (on_settle_registry k r st) as (? & ? & ?). by eapply inv_same_maps.
Qed.

Lemma run_state_cons w e events st :
  run_state w (e :: events) st = run_state w events (handle w e st).1.
Proof.
  unfold run_state. cbn [run].
  destruct (handle w e st) as [st1 out1]. simpl.
  by destruct (run w events st1).
Qed.

Lemma run_inv w events st :
  fresh_connects w events st = true →
  registry_inv st → registry_inv (run_state w events st).
Proof.
  revert st. induction events as [|e events IH]; intros st Hfresh Hinv; [done|].
  cbn [fresh_connects] in Hfresh. apply andb_true_iff in Hfresh as [He Hrest].
  rewrite run_state_cons. apply IH; [done|].
  apply handle_inv; [|done]. cbn [fresh_connects]. by rewrite He.
Qed.
End RegistryViews.

(** ** C1: consistency of the registry *)

(** C1. After every sequence of events that starts from the empty registry
    (connections, subscribes, unsubscribes, disconnects, and any of the other
    events in between), (a) a symbol is a key of the index exactly when some
    open connection holds it in its subscription set, no key maps to an
    empty set, and (b) for every open connection [c] and symbol [s], [s] is
    in the subscription set of [c] exactly when [c] is in the index entry of
    [s]. *)
Theorem registry_consistent_after_any_run (w : World) (events : list Event) :
  fresh_connects w events initial_state = true →
  let st := run_state w events initial_state in
  (∀ s, s ∈ allSubscribedSymbols st
        ↔ ∃ c conn, connections st !! c = Some conn ∧ s ∈ conn_subscriptions conn)
  ∧ (∀ s clients, subscriptions st !! s = Some clients → clients ≠ ∅)
  ∧ (∀ c conn s, connections st !! c = Some conn →
        (s ∈ conn_subscriptions conn ↔ c ∈ connectionsFor s st)).
Proof.
  intros Hfresh st.
  assert (Hinv : registry_inv st) by exact (run_inv w events _ Hfresh initial_inv).
  clearbody st. destruct Hinv as [Hp Hrel].
  assert (Hb : ∀ c conn s, connections st !! c = Some conn →
            (s ∈ conn_subscriptions conn ↔ c ∈ connectionsFor s st)).
  { intros c conn s Hc. rewrite <- Hrel. unfold symbolsFor. by rewrite Hc. }
  split; [|split]; [|exact Hp|exact Hb].
  intros s. unfold allSubscribedSymbols. rewrite elem_of_dom. split.
  - intros [clients Hs].
    destruct (set_choose_L clients (Hp s clients Hs)) as [c Hc].
    assert (Hin : c ∈ connectionsFor s st).
    { unfold connectionsFor. by rewrite Hs. }
    apply Hrel in Hin. unfold symbolsFor in Hin.
    destruct (connections st !! c) as [conn|] eqn:Hconn; [|set_solver].
    by exists c, conn.
  - intros (c & conn & Hc & Hs). apply (Hb c conn s Hc) in Hs.
    unfold connectionsFor in Hs.
    destruct (subscriptions st !! s) as [clients|]; [by eexists|set_solver].
Qed.

Lemma registry_consistent_after_any_run_witness :
  let events :=
    [Connect "c1"; Connect "c2";
     Subscribe "c1" (symbols_payload [JStr "aapl"; JStr " msft "]);
     Subscribe "c2" (symbols_payload [JStr "AAPL"]);
     Unsubscribe "c1" (symbols_payload [JStr "aapl"]);
     Disconnect "c2"] in
  fresh_connects offline events initial_state = true
  ∧ let st := run_state offline events initial_state in
    (∀ s, s ∈ allSubscribedSymbols st
          ↔ ∃ c conn, connections st !! c = Some conn ∧ s ∈ conn_subscriptions conn)
    ∧ (∀ s clients, subscriptions st !! s = Some clients → clients ≠ ∅)
    ∧ (∀ c conn s, connections st !! c = Some conn →
          (s ∈ conn_subscriptions conn ↔ c ∈ connectionsFor s st)).
Proof.
  intros events. split; [vm_compute; reflexivity|].
  apply (registry_consistent_after_any_run offline events).
  vm_compute; reflexivity.
Defined.

(** ** The subscribe handler and the cap *)

Lemma get_symbols_payload symbols :
  get_prop "symbols" (symbols_payload symbols) = Return (JArr symbols).
Proof. reflexivity. Qed.

Lemma subscribe_over_limit c data symbols st conn :
  get_prop "symbols" data = Return (JArr symbols) →
  connections st !! c = Some conn →
  MAX_SUBSCRIPTIONS_PER_CLIENT < size (conn_subscriptions conn) + length symbols →
  on_subscribe c data st = (st, [Emit c (subscription_error limit_message)]).
Proof.
  intros Hdata Hc Hlim. unfold on_subscribe. rewrite Hdata, Hc.
  apply Nat.ltb_lt in Hlim. by rewrite Hlim.
Qed.

Lemma subscribe_within_limit c data symbols st conn :
  get_prop "symbols" data = Return (JArr symbols) →
  connections st !! c = Some conn →
  size (conn_subscriptions conn) + length symbols ≤ MAX_SUBSCRIPTIONS_PER_CLIENT →
  on_subscribe c data st =
    let acc := subscribe_loop c symbols st in
    (start_if_needed (sa_state acc),
     Emit c (subscribed (sa_subscribedSymbols acc) (sa_errors acc))
     :: (if Nat.ltb 0 (length (sa_subscribedSymbols acc))
         then [Call_sendInitialStockData c (sa_subscribedSymbols acc)]
         else [])).
Proof.
  intros Hdata Hc Hlim. unfold on_subscribe. rewrite Hdata, Hc.
  apply Nat.ltb_ge in Hlim. by rewrite Hlim.
Qed.

(** C2, as the specification states it, fails: a connection with 48
    subscriptions that asks for 5 new symbols gets none of them. *)
Lemma cap_partial_acceptance_refuted :
  size (symbolsFor "c1" (one_client 48)) = 48
  ∧ ¬ accepts_what_fits "c1" five_new (one_client 48).
Proof.
  split; [vm_compute; reflexivity|].
  assert (Hout : on_subscribe "c1" (symbols_payload five_new) (one_client 48)
                 = (one_client 48, [Emit "c1" (subscription_error limit_message)])).
  { destruct (connections (one_client 48) !! "c1") as [conn|] eqn:Hc;
      [|vm_compute in Hc; discriminate Hc].
    apply (subscribe_over_limit _ _ five_new _ conn);
      [apply get_symbols_payload|exact Hc|].
    assert (conn_subscriptions conn = symbolsFor "c1" (one_client 48)) as ->.
    { unfold symbolsFor. by rewrite Hc. }
    unfold lt. vm_compute. repeat constructor. }
  unfold accepts_what_fits. rewrite Hout. cbn [fst snd].
  intros (accepted & rejected & [Hin|[]] & _). discriminate Hin.
Qed.

(** C2, amended. When the size of the connection's subscription set plus
    the length of the requested array exceeds the cap of 50, the subscribe
    handler accepts nothing: its only answer is one [subscription_error], no
    [subscribed] message is sent, and the connection's set and the index stay
    as they were. *)
Theorem subscribe_over_cap_accepts_nothing
    (c : SocketId) (symbols : list JsVal) (st : State) (conn : Connection) :
  connections st !! c = Some conn →
  size (conn_subscriptions conn) + length symbols > MAX_SUBSCRIPTIONS_PER_CLIENT →
  let result := on_subscribe c (symbols_payload symbols) st in
  result.2 = [Emit c (subscription_error limit_message)]
  ∧ (∀ accepted errors, ¬ In (Emit c (subscribed accepted errors)) result.2)
  ∧ symbolsFor c result.1 = conn_subscriptions conn
  ∧ subscriptions result.1 = subscriptions st.
Proof.
  intros Hc Hlim result. subst result.
  rewrite (subscribe_over_limit c _ symbols st conn (get_symbols_payload symbols) Hc)
    by lia.
  cbn [fst snd]. repeat split.
  - intros accepted errors [Hin|[]]. discriminate Hin.
  - unfold symbolsFor. by rewrite Hc.
Qed.

Lemma subscribe_over_cap_accepts_nothing_witness :
  ∃ conn,
    connections (one_client 48) !! "c1" = Some conn
    ∧ size (conn_subscriptions conn) + length five_new = 53
    ∧ let result := on_subscribe "c1" (symbols_payload five_new) (one_client 48) in
      result.2 = [Emit "c1" (subscription_error limit_message)]
      ∧ (∀ accepted errors, ¬ In (Emit "c1" (subscribed accepted errors)) result.2)
      ∧ symbolsFor "c1" result.1 = conn_subscriptions conn
      ∧ subscriptions result.1 = subscriptions (one_client 48).
Proof.
  destruct (connections (one_client 48) !! "c1") as [conn|] eqn:Hc;
    [|vm_compute in Hc; discriminate Hc].
  assert (Hsize : size (conn_subscriptions conn) + length five_new = 53).
  { assert (conn_subscriptions conn = symbolsFor "c1" (one_client 48)) as ->.
    { unfold symbolsFor. by rewrite Hc. }
    vm_compute. reflexivity. }
  exists conn. split; [reflexivity|]. split; [exact Hsize|].
  apply (subscribe_over_cap_accepts_nothing "c1" five_new (one_client 48) conn Hc).
  rewrite Hsize. unfold MAX_SUBSCRIPTIONS_PER_CLIENT. lia.
Defined.

(** ** What the subscribe loop does to one connection *)

Section SubscribeLoop.
Implicit Types (st : State) (c : SocketId) (acc : SubAcc).

Lemma subscribe_symbol_connected c acc v :
  is_Some (connections (sa_state acc) !! c) →
  is_Some (connections (sa_state (subscribe_symbol c acc v)) !! c).
Proof.
  intros [conn Hc]. unfold subscribe_symbol.
  destruct (cleanSymbol v) as [clean|msg]; [|by eexists].
  destruct (String.eqb clean ""); [by eexists|]. simpl.
  rewrite lookup_alter_eq, Hc. by eexists.
Qed.

(** An element that adds nothing leaves the set of the connection as it
    is. *)
Lemma subscribe_symbol_adds_nothing c acc v :
  is_Some (connections (sa_state acc) !! c) →
  adds_nothing (symbolsFor c (sa_state acc)) v = true →
  symbolsFor c (sa_state (subscribe_symbol c acc v)) = symbolsFor c (sa_state acc).
Proof.
  intros Hc Hv. unfold adds_nothing, subscribe_symbol in *.
  destruct (cleanSymbol v) as [clean|msg]; [|done].
  destruct (String.eqb clean ""); [done|]. simpl in Hv.
  apply bool_decide_eq_true in Hv.
  change (symbolsFor c (set_connections (alter (conn_add clean) c) (sa_state acc))
          = symbolsFor c (sa_state acc)).
  rewrite symbolsFor_conn_add by done. case_decide; [|done]. set_solver.
Qed.

Lemma subscribe_fold_adds_nothing c symbols acc :
  is_Some (connections (sa_state acc) !! c) →
  forallb (adds_nothing (symbolsFor c (sa_state acc))) symbols = true →
  symbolsFor c (sa_state (fold_left (subscribe_symbol c) symbols acc))
  = symbolsFor c (sa_state acc).
Proof.
  revert acc. induction symbols as [|v symbols IH]; intros acc Hc Hall; [done|].
  cbn [forallb] in Hall. apply andb_true_iff in Hall as [Hv Hall].
  cbn [fold_left].
  pose proof (subscribe_symbol_adds_nothing c acc v Hc Hv) as Hstep.
  rewrite IH.
  - exact Hstep.
  - by apply subscribe_symbol_connected.
  - by rewrite Hstep.
Qed.
End SubscribeLoop.

(** ** C9: the limit check counts the raw array *)

(** C9. For a subscribe request that carries an array, from an open
    connection, the handler answers with the limit error, and changes
    nothing, exactly when the raw length of the array plus the size of the
    connection's subscription set exceeds 50. Canonicalization and
    deduplication play no part in the test: a request whose elements would
    all add nothing to the set (already subscribed, blank, or not a string)
    is rejected in the same way, although running the loop on it would leave
    the connection's set as it is. *)
Theorem limit_check_counts_raw_length
    (c : SocketId) (data : JsVal) (symbols : list JsVal) (st : State)
    (conn : Connection) :
  get_prop "symbols" data = Return (JArr symbols) →
  connections st !! c = Some conn →
  (on_subscribe c data st = (st, [Emit c (subscription_error limit_message)])
   ↔ MAX_SUBSCRIPTIONS_PER_CLIENT < size (conn_subscriptions conn) + length symbols)
  ∧ (forallb (adds_nothing (conn_subscriptions conn)) symbols = true →
     symbolsFor c (sa_state (subscribe_loop c symbols st)) = conn_subscriptions conn).
Proof.
  intros Hdata Hc. split.
  - split.
    + intros Hrej.
      destruct (Nat.lt_ge_cases MAX_SUBSCRIPTIONS_PER_CLIENT
                  (size (conn_subscriptions conn) + length symbols)) as [Hlt|Hge];
        [done|].
      rewrite (subscribe_within_limit c data symbols st conn Hdata Hc Hge) in Hrej.
      cbv zeta in Hrej. by injection Hrej.
    + by apply subscribe_over_limit.
  - intros Hall.
    assert (Hsym : symbolsFor c st = conn_subscriptions conn).
    { unfold symbolsFor. by rewrite Hc. }
    rewrite <- Hsym. unfold subscribe_loop.
    apply (subscribe_fold_adds_nothing c symbols (mkSubAcc st [] [])); simpl.
    + by eexists.
    + by rewrite Hsym.
Qed.

Lemma limit_check_counts_raw_length_witness :
  ∃ conn,
    get_prop "symbols" (symbols_payload [JStr " s "; JStr "  "; JNum 7])
      = Return (JArr [JStr " s "; JStr "  "; JNum 7])
    ∧ connections (one_client 48) !! "c1" = Some conn
    ∧ forallb (adds_nothing (conn_subscriptions conn)) [JStr " s "; JStr "  "; JNum 7]
      = true
    ∧ (on_subscribe "c1" (symbols_payload [JStr " s "; JStr "  "; JNum 7]) (one_client 48)
         = (one_client 48, [Emit "c1" (subscription_error limit_message)])
       ↔ MAX_SUBSCRIPTIONS_PER_CLIENT
         < size (conn_subscriptions conn) + length [JStr " s "; JStr "  "; JNum 7])
    ∧ (forallb (adds_nothing (conn_subscriptions conn)) [JStr " s "; JStr "  "; JNum 7]
         = true →
       symbolsFor "c1"
         (sa_state (subscribe_loop "c1" [JStr " s "; JStr "  "; JNum 7] (one_client 48)))
       = conn_subscriptions conn).
Proof.
  destruct (connections (one_client 48) !! "c1") as [conn|] eqn:Hc;
    [|vm_compute in Hc; discriminate Hc].
  exists conn. split; [reflexivity|]. split; [reflexivity|]. split.
  - assert (conn_subscriptions conn = symbolsFor "c1" (one_client 48)) as ->.
    { unfold symbolsFor. by rewrite Hc. }
    vm_compute. reflexivity.
  - apply (limit_check_counts_raw_length "c1" _ _ (one_client 48) conn);
      [reflexivity|exact Hc].
Defined.

(** ** No connection ever holds the empty symbol *)

Section NoBlank.
Implicit Types (st : State) (c : SocketId) (acc : SubAcc).

Lemma no_blank_same_connections st st' :
  connections st' = connections st → no_blank st → no_blank st'.
Proof. intros Hc Hnb c. unfold symbolsFor. rewrite Hc. apply Hnb. Qed.

Lemma symbolsFor_conn_add_elem st c s c' x :
  x ∈ symbolsFor c' (set_connections (alter (conn_add s) c) st) →
  x ∈ symbolsFor c' st ∨ (c' = c ∧ x = s).
Proof.
  unfold symbolsFor, set_connections; simpl.
  destruct (decide (c = c')) as [<-|Hne].
  - rewrite lookup_alter_eq. destruct (connections st !! c); simpl; set_solver.
  - rewrite lookup_alter_ne by done. auto.
Qed.

Lemma cleanSymbol_Return v clean :
  cleanSymbol v = Return clean → ∃ raw, v = JStr raw ∧ clean = trim (toUpperCase raw).
Proof.
  destruct v; simpl; try discriminate. intros [= <-]. by eexists.
Qed.

(** Whatever the loop adds to a subscription set or to the keys of the
    index is the trimmed upper-case form of a requested string. *)
Lemma subscribe_fold_canonical c symbols acc :
  let acc' := fold_left (subscribe_symbol c) symbols acc in
  (∀ c' s, s ∈ symbolsFor c' (sa_state acc') →
     s ∈ symbolsFor c' (sa_state acc)
     ∨ (c' = c ∧ s ≠ "" ∧ ∃ raw, In (JStr raw) symbols ∧ s = trim (toUpperCase raw)))
  ∧ (∀ s, is_Some (subscriptions (sa_state acc') !! s) →
     is_Some (subscriptions (sa_state acc) !! s)
     ∨ (s ≠ "" ∧ ∃ raw, In (JStr raw) symbols ∧ s = trim (toUpperCase raw))).
Proof.
  revert acc. induction symbols as [|v symbols IH]; intros acc; [by auto|].
  cbn [fold_left]. cbv zeta.
  destruct (IH (subscribe_symbol c acc v)) as [IHc IHs]. cbv zeta in IHc, IHs.
  assert (Hstep :
    (∀ c' s, s ∈ symbolsFor c' (sa_state (subscribe_symbol c acc v)) →
       s ∈ symbolsFor c' (sa_state acc)
       ∨ (c' = c ∧ s ≠ "" ∧ ∃ raw, v = JStr raw ∧ s = trim (toUpperCase raw)))
    ∧ (∀ s, is_Some (subscriptions (sa_state (subscribe_symbol c acc v)) !! s) →
       is_Some (subscriptions (sa_state acc) !! s)
       ∨ (s ≠ "" ∧ ∃ raw, v = JStr raw ∧ s = trim (toUpperCase raw)))).
  { unfold subscribe_symbol.
    destruct (cleanSymbol v) as [clean|msg] eqn:Hclean; [|by auto].
    destruct (String.eqb_spec clean "") as [->|Hne]; [by auto|].
    apply cleanSymbol_Return in Hclean. simpl. split.
    - intros c' s Hs.
      change (s ∈ symbolsFor c'
                    (set_connections (alter (conn_add clean) c) (sa_state acc))) in Hs.
      apply symbolsFor_conn_add_elem in Hs as [Hs|[-> ->]]; auto.
    - intros s. rewrite index_add_lookup. case_decide; subst; auto. }
  destruct Hstep as [Hc Hs]. split.
  - intros c' s Hin. destruct (IHc c' s Hin) as [Hold|(-> & Hne & raw & Hraw & ->)].
    + destruct (Hc c' s Hold) as [?|(-> & Hne & raw & -> & ->)]; [by left|].
      right. split; [done|]. split; [done|]. exists raw. split; [by left|done].
    + right. split; [done|]. split; [done|]. exists raw. split; [by right|done].
  - intros s Hin. destruct (IHs s Hin) as [Hold|(Hne & raw & Hraw & ->)].
    + destruct (Hs s Hold) as [?|(Hne & raw & -> & ->)]; [by left|].
      right. split; [done|]. exists raw. split; [by left|done].
    + right. split; [done|]. exists raw. split; [by right|done].
Qed.

Lemma on_subscribe_no_blank c data st :
  no_blank st → no_blank (on_subscribe c data st).1.
Proof.
  intros Hnb. unfold on_subscribe.
  destruct (get_prop "symbols" data) as [[| | | | |symbols|]|]; try done.
  destruct (connections st !! c) as [conn|]; [|done].
  destruct (Nat.ltb _ _); [done|]. simpl.
  destruct (start_if_needed_registry (sa_state (subscribe_loop c symbols st))) as [Hc _].
  apply (no_blank_same_connections _ _ Hc).
  intros c' Hin.
  destruct (subscribe_fold_canonical c symbols (mkSubAcc st [] [])) as [Hcanon _].
  destruct (Hcanon c' "" Hin) as [Hold|(_ & Hne & _)]; [by apply (Hnb c')|done].
Qed.

Lemma unsubscribe_loop_symbolsFor c symbols st unsub c' :
  symbolsFor c' (unsubscribe_loop c symbols st unsub).1.1 ⊆ symbolsFor c' st.
Proof.
  revert st unsub. induction symbols as [|v symbols IH]; intros st unsub; [done|].
  simpl. destruct (cleanSymbol v) as [clean|msg]; [|done].
  etrans; [apply IH|].
  change (symbolsFor c' (set_connections (alter (conn_delete clean) c) st)
          ⊆ symbolsFor c' st).
  rewrite symbolsFor_conn_delete. case_decide; subst; set_solver.
Qed.

Lemma on_unsubscribe_no_blank c data st :
  no_blank st → no_blank (on_unsubscribe c data st).1.
Proof.
  intros Hnb. unfold on_unsubscribe.
  destruct (get_prop "symbols" data) as [[| | | | |symbols|]|]; try done.
  destruct (connections st !! c) as [conn|]; [|done].
  assert (Hloop : no_blank (unsubscribe_loop c symbols st []).1.1).
  { intros c' Hin. apply (Hnb c'). by eapply unsubscribe_loop_symbolsFor. }
  destruct (unsubscribe_loop c symbols st []) as [[st' unsub] [msg|]]; [done|].
  simpl in *. destruct (stop_if_unused_registry st') as [Hc _].
  by apply (no_blank_same_connections _ _ Hc).
Qed.

Lemma on_disconnect_no_blank c st :
  no_blank st → no_blank (on_disconnect c st).1.
Proof.
  intros Hnb. unfold on_disconnect. simpl.
  match goal with |- no_blank (stop_if_unused ?x) =>
    destruct (stop_if_unused_registry x) as [Hc _] end.
  apply (no_blank_same_connections _ _ Hc).
  intros c' Hin. apply (Hnb c').
  assert (Hin' : "" ∈ symbolsFor c' (set_connections (delete c) st)).
  { revert Hin. unfold symbolsFor. simpl. by destruct (connections st !! c). }
  rewrite symbolsFor_disconnect in Hin'. case_decide; set_solver.
Qed.

Lemma handle_no_blank w e st :
  fresh_connects w [e] st = true → no_blank st → no_blank (handle w e st).1.
Proof.
  intros Hfresh Hnb. destruct e as [c|c data|c data|c data|c data|c|c| |k r]; simpl.
  - simpl in Hfresh. rewrite andb_true_r in Hfresh.
    apply bool_decide_eq_true in Hfresh.
    intros c'. unfold on_connection. simpl.
    rewrite symbolsFor_connect_fresh by done. apply Hnb.
  - unfold on_authenticate.
    destruct (get_prop "userId" data) as [userId|]; [|done].
    destruct (truthy userId); [|done].
    destruct (connections st !! c); [|done].
    intros c'. simpl. rewrite symbolsFor_authenticate. apply Hnb.
  - by apply on_subscribe_no_blank.
  - by apply on_unsubscribe_no_blank.
  - by rewrite on_subscribe_watchlist_state.
  - done.
  - by apply on_disconnect_no_blank.
  - destruct (on_timer_registry st) as (Hc & _). by apply (no_blank_same_connections _ _ Hc).
  - destruct (on_settle_registry k r st) as (Hc & _).
    by apply (no_blank_same_connections _ _ Hc).
Qed.

Lemma run_no_blank w events st :
  fresh_connects w events st = true → no_blank st → no_blank (run_state w events st).
Proof.
  revert st. induction events as [|e events IH]; intros st Hfresh Hnb; [done|].
  cbn [fresh_connects] in Hfresh. apply andb_true_iff in Hfresh as [He Hrest].
  rewrite run_state_cons. apply IH; [done|].
  apply handle_no_blank; [|done]. cbn [fresh_connects]. by rewrite He.
Qed.

Lemma initial_no_blank : no_blank initial_state.
Proof. intros c. unfold symbolsFor. simpl. rewrite lookup_empty. set_solver. Qed.
End NoBlank.

(** ** C7: subscribing again *)

Section Idempotence.
Implicit Types (st : State) (c : SocketId) (acc : SubAcc).

Lemma conn_add_id s conn :
  s ∈ conn_subscriptions conn → conn_add s conn = conn.
Proof.
  intros Hs. destruct conn as [subs u b]. unfold conn_add; simpl in *.
  f_equal. set_solver.
Qed.

Lemma index_add_id idx s c :
  c ∈ entry idx s → index_add s c idx = idx.
Proof.
  intros Hc. apply entry_elem_of in Hc as (clients & Hs & Hc).
  unfold index_add. rewrite Hs. apply alter_id.
  intros clients' Hs'. rewrite Hs in Hs'. injection Hs' as <-. set_solver.
Qed.

Lemma set_fields_id st f g :
  f (connections st) = connections st →
  g (subscriptions st) = subscriptions st →
  set_subscriptions g (set_connections f st) = st.
Proof.
  intros Hf Hg. destruct st as [conns subs t cycles].
  unfold set_subscriptions, set_connections; simpl in *. by rewrite Hf, Hg.
Qed.

(** One more subscribe for a symbol the connection holds changes nothing
    and reports the symbol as accepted. *)
Lemma subscribe_symbol_again c acc v :
  registry_inv (sa_state acc) →
  no_blank (sa_state acc) →
  already_subscribed (symbolsFor c (sa_state acc)) v = true →
  ∃ clean,
    cleanSymbol v = Return clean
    ∧ subscribe_symbol c acc v
      = mkSubAcc (sa_state acc) (sa_subscribedSymbols acc ++ [clean]) (sa_errors acc).
Proof.
  intros [_ Hrel] Hnb Hv. unfold already_subscribed, subscribe_symbol in *.
  destruct (cleanSymbol v) as [clean|msg]; [|done].
  apply bool_decide_eq_true in Hv. exists clean. split; [done|].
  destruct (String.eqb_spec clean "") as [->|Hne]; [by destruct (Hnb c)|].
  f_equal. apply set_fields_id.
  - apply alter_id. intros conn Hc. apply conn_add_id.
    revert Hv. unfold symbolsFor. by rewrite Hc.
  - apply index_add_id. by apply Hrel in Hv.
Qed.

Lemma subscribe_fold_again c symbols acc :
  registry_inv (sa_state acc) →
  no_blank (sa_state acc) →
  forallb (already_subscribed (symbolsFor c (sa_state acc))) symbols = true →
  ∃ accepted,
    Forall2 (λ v clean, cleanSymbol v = Return clean) symbols accepted
    ∧ fold_left (subscribe_symbol c) symbols acc
      = mkSubAcc (sa_state acc) (sa_subscribedSymbols acc ++ accepted) (sa_errors acc).
Proof.
  revert acc. induction symbols as [|v symbols IH]; intros acc Hinv Hnb Hall.
  - exists []. split; [constructor|]. simpl. rewrite app_nil_r. by destruct acc.
  - cbn [forallb] in Hall. apply andb_true_iff in Hall as [Hv Hall].
    destruct (subscribe_symbol_again c acc v Hinv Hnb Hv) as (clean & Hclean & Hstep).
    cbn [fold_left]. rewrite Hstep.
    destruct (IH (mkSubAcc (sa_state acc) (sa_subscribedSymbols acc ++ [clean])
                    (sa_errors acc)) Hinv Hnb Hall) as (accepted & Hacc & Hfold).
    exists (clean :: accepted). split; [by constructor|].
    rewrite Hfold. simpl. by rewrite <- app_assoc.
Qed.
End Idempotence.

(** C7, as the specification states it, fails for a connection at the cap:
    one more subscribe for a symbol it holds is answered with an error. *)
Lemma resubscribe_at_cap_refuted :
  already_subscribed (symbolsFor "c1" (one_client 50)) (JStr " s ") = true
  ∧ ¬ resubscribe_accepted "c1" (JStr " s ") (one_client 50).
Proof.
  split; [vm_compute; reflexivity|].
  assert (Hout : (on_subscribe "c1" (symbols_payload [JStr " s "]) (one_client 50)).2
                 = [Emit "c1" (subscription_error limit_message)])
    by (vm_compute; reflexivity).
  unfold resubscribe_accepted. rewrite Hout.
  intros (accepted & [Hin|[]] & _). discriminate Hin.
Qed.

(** C7, amended. In every state the engine can reach, for a connection
    whose subscription set together with the request stays within the cap of
    50 (set size plus array length at most 50), a subscribe for symbols the
    connection holds already, in any spelling that cleans to them, is
    answered with [subscribed], all of them accepted and no error, and it
    changes neither the subscription sets nor the index. Moreover, for every
    subscribe request, whatever enters a subscription set or becomes a key of
    the index is the upper-cased, trimmed form of a requested string. *)
Theorem resubscribe_is_idempotent
    (w : World) (events : list Event) (c : SocketId) (conn : Connection) :
  fresh_connects w events initial_state = true →
  let st := run_state w events initial_state in
  connections st !! c = Some conn →
  (∀ symbols,
     forallb (already_subscribed (conn_subscriptions conn)) symbols = true →
     size (conn_subscriptions conn) + length symbols ≤ MAX_SUBSCRIPTIONS_PER_CLIENT →
     let result := on_subscribe c (symbols_payload symbols) st in
     ∃ accepted,
       Forall2 (λ v clean, cleanSymbol v = Return clean) symbols accepted
       ∧ head result.2 = Some (Emit c (subscribed accepted []))
       ∧ connections result.1 = connections st
       ∧ subscriptions result.1 = subscriptions st)
  ∧ (∀ data symbols,
       get_prop "symbols" data = Return (JArr symbols) →
       let st' := (on_subscribe c data st).1 in
       (∀ c' s, s ∈ symbolsFor c' st' → s ∉ symbolsFor c' st →
          ∃ raw, In (JStr raw) symbols ∧ s = trim (toUpperCase raw))
       ∧ (∀ s, s ∈ allSubscribedSymbols st' → s ∉ allSubscribedSymbols st →
          ∃ raw, In (JStr raw) symbols ∧ s = trim (toUpperCase raw))).
Proof.
  intros Hfresh st Hc.
  assert (Hinv : registry_inv st) by exact (run_inv w events _ Hfresh initial_inv).
  assert (Hnb : no_blank st) by exact (run_no_blank w events _ Hfresh initial_no_blank).
  clearbody st.
  assert (Hsym : symbolsFor c st = conn_subscriptions conn).
  { unfold symbolsFor. by rewrite Hc. }
  split.
  - intros symbols Hall Hsize result. subst result.
    rewrite (subscribe_within_limit c _ symbols st conn (get_symbols_payload symbols)
               Hc Hsize).
    cbv zeta. unfold subscribe_loop.
    destruct (subscribe_fold_again c symbols (mkSubAcc st [] [])) as (accepted & Hacc & ->);
      simpl; [done|done|by rewrite Hsym|].
    exists accepted. split; [done|]. split; [done|]. apply start_if_needed_registry.
  - intros data symbols Hdata st'. subst st'. unfold on_subscribe. rewrite Hdata, Hc.
    destruct (Nat.ltb _ _); [by split|]. cbn [fst].
    destruct (start_if_needed_registry (sa_state (subscribe_loop c symbols st)))
      as [Hconns Hsubs].
    destruct (subscribe_fold_canonical c symbols (mkSubAcc st [] [])) as [Hcanon Hkeys].
    split.
    + intros c' s Hin Hnot.
      assert (Hin' : s ∈ symbolsFor c' (sa_state (subscribe_loop c symbols st))).
      { revert Hin. unfold symbolsFor. by rewrite Hconns. }
      destruct (Hcanon c' s Hin') as [Hold|(_ & _ & Hraw)]; [done|exact Hraw].
    + intros s Hin Hnot. unfold allSubscribedSymbols in *.
      rewrite elem_of_dom in Hin. rewrite elem_of_dom in Hnot. rewrite Hsubs in Hin.
      destruct (Hkeys s Hin) as [Hold|(_ & Hraw)]; [done|exact Hraw].
Qed.

Lemma resubscribe_is_idempotent_witness :
  let events := [Connect "c1"; Subscribe "c1" (symbols_payload [JStr "AAPL"])] in
  let st := run_state offline events initial_state in
  ∃ conn,
    fresh_connects offline events initial_state = true
    ∧ connections st !! "c1" = Some conn
    ∧ forallb (already_subscribed (conn_subscriptions conn)) [JStr " aapl "] = true
    ∧ size (conn_subscriptions conn) + length [JStr " aapl "]
      ≤ MAX_SUBSCRIPTIONS_PER_CLIENT
    ∧ (∃ accepted,
         Forall2 (λ v clean, cleanSymbol v = Return clean) [JStr " aapl "] accepted
         ∧ head (on_subscribe "c1" (symbols_payload [JStr " aapl "]) st).2
           = Some (Emit "c1" (subscribed accepted []))
         ∧ connections (on_subscribe "c1" (symbols_payload [JStr " aapl "]) st).1
           = connections st
         ∧ subscriptions (on_subscribe "c1" (symbols_payload [JStr " aapl "]) st).1
           = subscriptions st).
Proof.
  intros events st.
  destruct (connections st !! "c1") as [conn|] eqn:Hc;
    [|vm_compute in Hc; discriminate Hc].
  assert (Hsubs : conn_subscriptions conn = symbolsFor "c1" st).
  { unfold symbolsFor. by rewrite Hc. }
  assert (Hall : forallb (already_subscribed (conn_subscriptions conn)) [JStr " aapl "]
                 = true).
  { rewrite Hsubs. vm_compute. reflexivity. }
  assert (Hsize : size (conn_subscriptions conn) + length [JStr " aapl "]
                  ≤ MAX_SUBSCRIPTIONS_PER_CLIENT).
  { rewrite Hsubs. vm_compute. repeat constructor. }
  exists conn. split; [vm_compute; reflexivity|]. split; [reflexivity|].
  split; [exact Hall|]. split; [exact Hsize|].
  assert (Hfresh : fresh_connects offline events initial_state = true)
    by (vm_compute; reflexivity).
  exact (proj1 (resubscribe_is_idempotent offline events "c1" conn Hfresh Hc)
           [JStr " aapl "] Hall Hsize).
Defined.

(** ** C3: the timer and the index *)

(** C3 fails on the code. A client subscribes to AAPL, which starts the
    timer, and unsubscribes with the array [["AAPL", 42]]. The loop of the
    unsubscribe handler removes AAPL, which empties the index, and throws at
    the number (it has no [toUpperCase]); the [catch] of the handler answers
    [unsubscription_error] and the test that stops the timer is skipped. The
    timer stays active over an empty index. *)
Theorem timer_survives_failed_unsubscribe :
  let before := run_state offline (take 2 unsubscribe_with_number) initial_state in
  let after := run_state offline unsubscribe_with_number initial_state in
  fresh_connects offline unsubscribe_with_number initial_state = true
  ∧ timer_matches_index before
  ∧ updateInterval before = true
  ∧ subscriptions after = ∅
  ∧ updateInterval after = true
  ∧ ¬ timer_matches_index after
  ∧ (run offline unsubscribe_with_number initial_state).2
    = [Emit "c1" (subscribed ["AAPL"] []);
       Call_sendInitialStockData "c1" ["AAPL"];
       Emit "c1" (unsubscription_error "Unsubscription failed")].
Proof.
  vm_compute. repeat split; try reflexivity. discriminate.
Qed.

(** Apart from that path the rule holds: along every sequence of events in
    which the arrays of the unsubscribe requests hold strings only, the timer
    is active exactly when the index is not empty. *)
Section TimerInvariant.
Implicit Types (st : State) (c : SocketId) (acc : SubAcc).

Lemma start_if_needed_matches st :
  (updateInterval st = true → subscriptions st ≠ ∅) →
  timer_matches_index (start_if_needed st).
Proof.
  intros Hrun. unfold timer_matches_index, start_if_needed, startUpdateInterval.
  destruct (Nat.eqb_spec (size (subscriptions st)) 0) as [Hz|Hnz].
  - rewrite Hz. simpl. rewrite Hz. simpl.
    apply map_size_empty_iff in Hz.
    destruct (updateInterval st); [by destruct Hrun|done].
  - destruct (size (subscriptions st)) as [|n] eqn:Hn; [done|]. simpl.
    destruct (updateInterval st) eqn:Ht; simpl; by rewrite Hn.
Qed.

Lemma stop_if_unused_matches st :
  (updateInterval st = false → subscriptions st = ∅) →
  timer_matches_index (stop_if_unused st).
Proof.
  intros Hidle. unfold timer_matches_index, stop_if_unused, stopUpdateInterval.
  destruct (Nat.eqb_spec (size (subscriptions st)) 0) as [Hz|Hnz].
  - destruct (updateInterval st) eqn:Ht; simpl; rewrite ?Ht; simpl; by rewrite Hz.
  - simpl. destruct (updateInterval st) eqn:Ht.
    + by destruct (size (subscriptions st)).
    + rewrite (Hidle eq_refl), map_size_empty in Hnz. done.
Qed.

Lemma index_add_nonempty idx s c : index_add s c idx ≠ ∅.
Proof.
  intros He. pose proof (index_add_lookup idx s c s) as Hl.
  rewrite He, lookup_empty in Hl. by case_decide.
Qed.

Lemma index_remove_empty s c : index_remove s c ∅ = ∅.
Proof. unfold index_remove. by rewrite lookup_empty. Qed.

Lemma index_remove_all_empty c symbols : index_remove_all c symbols ∅ = ∅.
Proof.
  unfold index_remove_all. induction symbols as [|s symbols IH]; [done|].
  simpl. by rewrite index_remove_empty.
Qed.

Lemma subscribe_fold_timer c symbols acc :
  let acc' := fold_left (subscribe_symbol c) symbols acc in
  updateInterval (sa_state acc') = updateInterval (sa_state acc)
  ∧ (subscriptions (sa_state acc) ≠ ∅ → subscriptions (sa_state acc') ≠ ∅).
Proof.
  revert acc. induction symbols as [|v symbols IH]; intros acc; [done|].
  cbn [fold_left]. cbv zeta. destruct (IH (subscribe_symbol c acc v)) as [IHt IHs].
  cbv zeta in IHt, IHs. rewrite IHt. unfold subscribe_symbol in *.
  destruct (cleanSymbol v) as [clean|msg]; [|done].
  destruct (String.eqb clean ""); [done|]. simpl in *.
  split; [done|]. intros _. apply IHs, index_add_nonempty.
Qed.

Lemma unsubscribe_loop_timer c symbols st unsub :
  let st' := (unsubscribe_loop c symbols st unsub).1.1 in
  updateInterval st' = updateInterval st
  ∧ (subscriptions st = ∅ → subscriptions st' = ∅).
Proof.
  revert st unsub. induction symbols as [|v symbols IH]; intros st unsub; [done|].
  simpl. destruct (cleanSymbol v) as [clean|msg]; [|done].
  match goal with |- context [unsubscribe_loop c symbols ?x ?u] =>
    destruct (IH x u) as [IHt IHs] end.
  cbv zeta in IHt, IHs. rewrite IHt. split; [done|]. simpl in *.
  intros He. apply IHs. rewrite He. apply index_remove_empty.
Qed.

Lemma unsubscribe_loop_strings c symbols st unsub :
  forallb is_string symbols = true →
  (unsubscribe_loop c symbols st unsub).2 = None.
Proof.
  revert st unsub. induction symbols as [|v symbols IH]; intros st unsub Hall; [done|].
  cbn [forallb] in Hall. apply andb_true_iff in Hall as [Hv Hall].
  destruct v; try discriminate Hv. simpl. by apply IH.
Qed.

Lemma timer_matches_running st :
  timer_matches_index st → updateInterval st = true → subscriptions st ≠ ∅.
Proof.
  unfold timer_matches_index. intros -> Hrun He.
  rewrite He, map_size_empty in Hrun. done.
Qed.

Lemma timer_matches_idle st :
  timer_matches_index st → updateInterval st = false → subscriptions st = ∅.
Proof.
  unfold timer_matches_index. intros -> Hidle. apply map_size_empty_iff.
  by destruct (Nat.eqb_spec (size (subscriptions st)) 0).
Qed.

Lemma timer_matches_same st st' :
  subscriptions st' = subscriptions st →
  updateInterval st' = updateInterval st →
  timer_matches_index st → timer_matches_index st'.
Proof. unfold timer_matches_index. by intros -> ->. Qed.

Lemma handle_timer_matches w e st :
  unsubscribes_strings e = true →
  timer_matches_index st → timer_matches_index (handle w e st).1.
Proof.
  intros He Hm. destruct e as [c|c data|c data|c data|c data|c|c| |k r]; simpl.
  - done.
  - unfold on_authenticate.
    destruct (get_prop "userId" data) as [userId|]; [|done].
    destruct (truthy userId); [|done]. by destruct (connections st !! c).
  - unfold on_subscribe.
    destruct (get_prop "symbols" data) as [[| | | | |symbols|]|]; try done.
    destruct (connections st !! c) as [conn|]; [|done].
    destruct (Nat.ltb _ _); [done|]. cbn [fst].
    destruct (subscribe_fold_timer c symbols (mkSubAcc st [] [])) as [Ht Hs].
    cbv zeta in Ht, Hs. simpl in Ht, Hs.
    apply start_if_needed_matches. unfold subscribe_loop. rewrite Ht.
    intros Hrun. by apply Hs, timer_matches_running.
  - unfold on_unsubscribe. simpl in He.
    destruct (get_prop "symbols" data) as [[| | | | |symbols|]|]; try done.
    destruct (connections st !! c) as [conn|]; [|done].
    pose proof (unsubscribe_loop_strings c symbols st [] He) as Hnone.
    destruct (unsubscribe_loop_timer c symbols st []) as [Ht Hs].
    cbv zeta in Ht, Hs.
    destruct (unsubscribe_loop c symbols st []) as [[st' unsub] thrown].
    simpl in *. subst thrown. simpl.
    apply stop_if_unused_matches. rewrite Ht.
    intros Hidle. by apply Hs, timer_matches_idle.
  - by rewrite on_subscribe_watchlist_state.
  - done.
  - unfold on_disconnect. cbn [fst]. apply stop_if_unused_matches.
    destruct (connections st !! c) as [conn|]; simpl.
    + intros Hidle. rewrite (timer_matches_idle st Hm Hidle).
      apply index_remove_all_empty.
    + by apply timer_matches_idle.
  - destruct (on_timer_registry st) as (_ & ? & ?). by eapply timer_matches_same.
  - destruct (on_settle_registry k r st) as (_ & ? & ?). by eapply timer_matches_same.
Qed.

Lemma timer_matches_index_with_string_unsubscribes w events :
  forallb unsubscribes_strings events = true →
  timer_matches_index (run_state w events initial_state).
Proof.
  assert (Hgen : ∀ st, forallb unsubscribes_strings events = true →
            timer_matches_index st → timer_matches_index (run_state w events st)).
  { induction events as [|e events IH]; intros st Hall Hm; [done|].
    cbn [forallb] in Hall. apply andb_true_iff in Hall as [He Hall].
    rewrite run_state_cons. apply IH; [done|]. by apply handle_timer_matches. }
  intros Hall. by apply Hgen.
Qed.

(** A cleared timer does not fire: no cycle starts while the scheduler is
    idle. *)
Lemma idle_timer_is_silent st :
  updateInterval st = false → on_timer st = (st, []).
Proof. intros Hidle. unfold on_timer. by rewrite Hidle. Qed.
End TimerInvariant.

(** ** C4: fan-out *)

Section FanOut.
Implicit Types (st : State) (c : SocketId) (s : string).

Lemma recipients_spec st s c :
  In c (recipients st s) ↔ c ∈ connectionsFor s st ∧ is_connected st c = true.
Proof.
  rewrite <- list_elem_of_In. unfold recipients, connectionsFor.
  destruct (subscriptions st !! s) as [clients|]; simpl.
  - rewrite list_elem_of_filter, elem_of_elements. tauto.
  - rewrite elem_of_nil. set_solver.
Qed.

Lemma recipients_NoDup st s : List.NoDup (recipients st s).
Proof.
  apply NoDup_ListNoDup. unfold recipients.
  destruct (subscriptions st !! s) as [clients|]; [|constructor].
  apply NoDup_filter, NoDup_elements.
Qed.

Lemma recipients_of_spec st v c :
  In c (recipients_of st v)
  ↔ ∃ s, v = JStr s ∧ c ∈ connectionsFor s st ∧ is_connected st c = true.
Proof.
  destruct v; simpl; try (split; [done|by intros (? & ? & _)]).
  rewrite recipients_spec. split; [by eauto|]. by intros (? & [= <-] & ?).
Qed.

Lemma recipients_of_NoDup st v : List.NoDup (recipients_of st v).
Proof. destruct v; simpl; try constructor. apply recipients_NoDup. Qed.

Lemma NoDup_map_Emit (m : Outbound) (l : list string) :
  List.NoDup l → List.NoDup (map (λ c, Emit c m) l).
Proof.
  induction 1 as [|c l Hc Hl IH]; simpl; constructor; [|done].
  rewrite in_map_iff. by intros (c' & [= ->] & Hin).
Qed.

Lemma fanout_flat st allUpdates allErrors :
  fanout st allUpdates allErrors
  = flat_map (push_update st false) allUpdates ++ flat_map (push_error st) allErrors.
Proof. unfold fanout. by destruct allErrors. Qed.

Lemma in_push_update st forced stock c m :
  In (Emit c m) (push_update st forced stock)
  ↔ m = stock_update (stock_symbol stock) stock forced
    ∧ ∃ s, stock_symbol stock = Some s
           ∧ c ∈ connectionsFor s st ∧ is_connected st c = true.
Proof.
  unfold push_update. rewrite in_map_iff. split.
  - intros (c' & [= <- <-] & Hin). split; [done|].
    apply recipients_of_spec in Hin as (s & Hs & Hin).
    exists s. split; [|done]. by destruct (stock_symbol stock); simplify_eq/=.
  - intros (-> & s & Hs & Hin). exists c. split; [done|].
    apply recipients_of_spec. exists s. by rewrite Hs.
Qed.

Lemma in_push_error st error c m :
  In (Emit c m) (push_error st error)
  ↔ m = stock_error (err_symbol error) (err_error error)
    ∧ ∃ s, err_symbol error = JStr s
           ∧ c ∈ connectionsFor s st ∧ is_connected st c = true.
Proof.
  unfold push_error. rewrite in_map_iff. split.
  - intros (c' & [= <- <-] & Hin). split; [done|]. by apply recipients_of_spec.
  - intros (-> & Hin). exists c. split; [done|]. by apply recipients_of_spec.
Qed.

Lemma push_update_emits st forced stock e :
  In e (push_update st forced stock) → ∃ c m, e = Emit c m.
Proof. unfold push_update. rewrite in_map_iff. intros (c & <- & _). by eexists _, _. Qed.

Lemma push_error_emits st error e :
  In e (push_error st error) → ∃ c m, e = Emit c m.
Proof. unfold push_error. rewrite in_map_iff. intros (c & <- & _). by eexists _, _. Qed.
End FanOut.

(** C4. For every batch of results handed to the fan-out and every state
    of the registry at that moment: a [stock_update] for a quote reaches
    exactly the clients that are in the index entry of the quote's symbol and
    are connected, a [stock_error] for a failure reaches exactly the clients
    that are in the index entry of the failed symbol and are connected, and
    each of them once per result. Nothing else is emitted: every message
    carries its symbol, none goes to a client that is gone or not connected
    (such a client is passed over without any effect), and each result is
    pushed independently of the others, so a client subscribed to a failing
    and to a succeeding symbol gets both messages. *)
Theorem fanout_reaches_exactly_the_subscribers
    (st : State) (allUpdates : list Stock) (allErrors : list SymError) :
  let out := fanout st allUpdates allErrors in
  (∀ c stock,
     In (Emit c (stock_update (stock_symbol stock) stock false)) out
     ↔ In stock allUpdates
       ∧ ∃ s, stock_symbol stock = Some s
              ∧ c ∈ connectionsFor s st ∧ is_connected st c = true)
  ∧ (∀ c v msg,
     In (Emit c (stock_error v msg)) out
     ↔ In (mkSymError v msg) allErrors
       ∧ ∃ s, v = JStr s ∧ c ∈ connectionsFor s st ∧ is_connected st c = true)
  ∧ (∀ e, In e out →
       ∃ c m, e = Emit c m ∧ is_connected st c = true
              ∧ ((∃ stock, In stock allUpdates
                           ∧ m = stock_update (stock_symbol stock) stock false)
                 ∨ (∃ error, In error allErrors
                             ∧ m = stock_error (err_symbol error) (err_error error))))
  ∧ (∀ stock, List.NoDup (push_update st false stock))
  ∧ (∀ error, List.NoDup (push_error st error))
  ∧ out = flat_map (push_update st false) allUpdates
          ++ flat_map (push_error st) allErrors.
Proof.
  intros out. subst out. rewrite fanout_flat.
  split; [|split; [|split; [|split; [|split]]]].
  - intros c stock. split.
    + intros Hin. apply in_app_iff in Hin as [Hin|Hin];
        apply in_flat_map in Hin as (x & Hx & Hpush).
      * apply in_push_update in Hpush as (Heq & Hs).
        injection Heq as Hsym <-. done.
      * apply in_push_error in Hpush as (Heq & _). discriminate Heq.
    + intros (Hin & Hs). apply in_app_iff. left. apply in_flat_map.
      exists stock. split; [done|]. by apply in_push_update.
  - intros c v msg. split.
    + intros Hin. apply in_app_iff in Hin as [Hin|Hin];
        apply in_flat_map in Hin as (x & Hx & Hpush).
      * apply in_push_update in Hpush as (Heq & _). discriminate Heq.
      * apply in_push_error in Hpush as (Heq & Hs).
        injection Heq as -> ->. split; [by destruct x|done].
    + intros (Hin & Hs). apply in_app_iff. right. apply in_flat_map.
      exists (mkSymError v msg). split; [done|]. by apply in_push_error.
  - intros e Hin. apply in_app_iff in Hin as [Hin|Hin];
      apply in_flat_map in Hin as (x & Hx & Hpush).
    + destruct (push_update_emits _ _ _ _ Hpush) as (c & m & ->).
      apply in_push_update in Hpush as (-> & s & _ & _ & Hconn).
      eexists c, _. split; [done|]. split; [done|]. left. by exists x.
    + destruct (push_error_emits _ _ _ Hpush) as (c & m & ->).
      apply in_push_error in Hpush as (-> & s & _ & _ & Hconn).
      eexists c, _. split; [done|]. split; [done|]. right. by exists x.
  - intros stock. apply NoDup_map_Emit, recipients_of_NoDup.
  - intros error. apply NoDup_map_Emit, recipients_of_NoDup.
  - done.
Qed.

Lemma fanout_reaches_exactly_the_subscribers_witness :
  let out := fanout three_clients [good_stock] [bad_error] in
  In (Emit "gb" (stock_update (Some "GOOD") good_stock false)) out
  ∧ In (Emit "gb" (stock_error (JStr "BAD") "Stock not found")) out
  ∧ In (Emit "g" (stock_update (Some "GOOD") good_stock false)) out
  ∧ ¬ In (Emit "g" (stock_error (JStr "BAD") "Stock not found")) out
  ∧ In (Emit "b" (stock_error (JStr "BAD") "Stock not found")) out
  ∧ ¬ In (Emit "b" (stock_update (Some "GOOD") good_stock false)) out.
Proof.
  assert (Hfacts :
    (bool_decide ("gb" ∈ connectionsFor "GOOD" three_clients) = true
     ∧ bool_decide ("gb" ∈ connectionsFor "BAD" three_clients) = true
     ∧ bool_decide ("g" ∈ connectionsFor "GOOD" three_clients) = true
     ∧ bool_decide ("g" ∈ connectionsFor "BAD" three_clients) = false
     ∧ bool_decide ("b" ∈ connectionsFor "BAD" three_clients) = true
     ∧ bool_decide ("b" ∈ connectionsFor "GOOD" three_clients) = false)
    ∧ is_connected three_clients "gb" = true
    ∧ is_connected three_clients "g" = true
    ∧ is_connected three_clients "b" = true).
  { vm_compute. split; [|split; [|split]]; try reflexivity.
    split; [|split; [|split; [|split; [|split]]]]; reflexivity. }
  pose proof (fanout_reaches_exactly_the_subscribers three_clients
                [good_stock] [bad_error]) as Hthm.
  revert Hfacts Hthm. generalize three_clients as st. intros st Hfacts Hthm.
  destruct Hfacts as ((Hgb1 & Hgb2 & Hg1 & Hg2 & Hb1 & Hb2) & Cgb & Cg & Cb).
  apply bool_decide_eq_true in Hgb1, Hgb2, Hg1, Hb1.
  apply bool_decide_eq_false in Hg2, Hb2.
  cbv zeta in Hthm. destruct Hthm as (Hup & Herr & _). cbv zeta.
  split; [|split; [|split; [|split; [|split]]]].
  - apply (proj2 (Hup "gb" good_stock)). split; [by left|]. by exists "GOOD".
  - apply (proj2 (Herr "gb" (JStr "BAD") "Stock not found")).
    split; [by left|]. by exists "BAD".
  - apply (proj2 (Hup "g" good_stock)). split; [by left|]. by exists "GOOD".
  - intros Hin.
    apply (proj1 (Herr "g" (JStr "BAD") "Stock not found")) in Hin
      as (_ & s & [= <-] & Hc & _).
    by apply Hg2.
  - apply (proj2 (Herr "b" (JStr "BAD") "Stock not found")).
    split; [by left|]. by exists "BAD".
  - intros Hin.
    apply (proj1 (Hup "b" good_stock)) in Hin as (_ & s & [= <-] & Hc & _).
    by apply Hb2.
Defined.

(** Two clients hold GOOD; one of them disconnects while the cycle awaits
    the provider. When the call settles, the quote goes to the other client
    and nothing is emitted for the one that left. *)
Example disconnect_during_a_cycle :
  (run good_only
     [Connect "g"; Connect "h";
      Subscribe "g" (symbols_payload [JStr "good"]);
      Subscribe "h" (symbols_payload [JStr "good"]);
      TimerFires;
      Disconnect "h";
      BatchSettles 0 (Return ([good_stock], []))]
     initial_state).2
  = [Emit "g" (subscribed ["GOOD"] []);
     Call_sendInitialStockData "g" ["GOOD"];
     Emit "h" (subscribed ["GOOD"] []);
     Call_sendInitialStockData "h" ["GOOD"];
     Call_getMultipleStockPrices (JArr [JStr "GOOD"]);
     Emit "g" (stock_update (Some "GOOD") good_stock false)].
Proof. vm_compute. reflexivity. Qed.

(** ** C5: the batch loop of the refresh cycle *)

Section BatchLoop.
Implicit Types (w : World) (cy : Cycle).

Lemma cycle_batch_eq cy :
  cycle_batch cy = take batchSize (drop (cy_i cy) (cy_symbols cy)).
Proof.
  unfold cycle_batch, slice. f_equal. lia.
Qed.

Lemma cycle_resume_spec w cy :
  cycle_resume (getMultipleStockPrices w (batch_arg (cycle_batch cy))) cy
  = mkCycle (cy_symbols cy) (cy_i cy + batchSize)
      (cy_allUpdates cy ++ batch_updates w (cycle_batch cy))
      (cy_allErrors cy ++ batch_errors w (cycle_batch cy)).
Proof.
  unfold cycle_resume, batch_updates, batch_errors.
  destruct (getMultipleStockPrices w _) as [[stocks errors]|msg]; [done|].
  by rewrite app_nil_r.
Qed.

(** With enough fuel the loop ends, and the batches it called for cut the
    rest of the snapshot into pieces of one to [batchSize] symbols. *)
Lemma fetch_loop_spec w fuel cy :
  length (cy_symbols cy) - cy_i cy < fuel →
  ∃ batches cy',
    fetch_loop fuel w cy = Some (cy', map call_for batches)
    ∧ concat batches = drop (cy_i cy) (cy_symbols cy)
    ∧ Forall (λ b, 0 < length b ≤ batchSize) batches
    ∧ cy_allUpdates cy' = cy_allUpdates cy ++ flat_map (batch_updates w) batches
    ∧ cy_allErrors cy' = cy_allErrors cy ++ flat_map (batch_errors w) batches.
Proof.
  revert cy. induction fuel as [|fuel IH]; intros cy Hfuel; [lia|].
  cbn [fetch_loop]. unfold cycle_running.
  destruct (Nat.ltb_spec (cy_i cy) (length (cy_symbols cy))) as [Hlt|Hge].
  - rewrite cycle_resume_spec.
    set (cy1 := mkCycle _ _ _ _).
    destruct (IH cy1) as (batches & cy' & Hloop & Hcat & Hlen & Hup & Herr).
    { simpl. unfold batchSize. lia. }
    exists (cycle_batch cy :: batches), cy'. rewrite Hloop.
    split; [done|]. split; [|split; [|split]].
    + simpl. rewrite Hcat. simpl. rewrite cycle_batch_eq.
      rewrite <- (drop_drop (cy_symbols cy) batchSize (cy_i cy)).
      apply take_drop.
    + constructor; [|done]. rewrite cycle_batch_eq, length_take, length_drop.
      unfold batchSize. lia.
    + rewrite Hup. simpl. by rewrite <- app_assoc.
    + rewrite Herr. simpl. by rewrite <- app_assoc.
  - exists [], cy. split; [done|]. simpl. rewrite !app_nil_r.
    split; [|by split]. symmetry. by apply drop_ge.
Qed.

Lemma batch_arg_valid (batch : list string) :
  0 < length batch ≤ batchSize →
  validate_symbols (batch_arg batch) = Return (map JStr batch).
Proof.
  intros [Hpos Hle]. unfold validate_symbols, batch_arg. rewrite length_map.
  destruct (Nat.eqb_spec (length batch) 0) as [Hz|_]; [lia|].
  destruct (Nat.ltb_spec 100 (length batch)) as [Hbig|_]; [|done].
  unfold batchSize in Hle. lia.
Qed.
End BatchLoop.

(** The cycle as a whole, for a non-empty index. *)
Lemma refresh_cycle_shape (w : World) (st : State) :
  subscriptions st ≠ ∅ →
  ∃ batches cy,
    Forall (λ b, 0 < length b ≤ batchSize) batches
    ∧ broadcastStockUpdates w st
      = Some (map call_for batches ++ fanout st (cy_allUpdates cy) (cy_allErrors cy)).
Proof.
  intros Hne.
  destruct (fetch_loop_spec w (S (length (subscribed_keys st))) (new_cycle st))
    as (batches & cy & Hloop & _ & Hlen & _); [simpl; lia|].
  exists batches, cy. split; [done|]. unfold broadcastStockUpdates.
  destruct (Nat.eqb_spec (size (subscriptions st)) 0) as [Hz|_].
  - by apply map_size_empty_iff in Hz.
  - by rewrite Hloop.
Qed.

(** C5. Whenever the index is not empty, one refresh cycle cuts the list
    of subscribed symbols into consecutive batches of one to ten symbols and
    calls the provider once for each of them, in order. The loop always
    reaches its end: a call that throws puts every symbol of its batch on the
    failure list with the message of the exception, the calls for the other
    batches are made all the same, and what they return is on the lists that
    are fanned out. *)
Theorem refresh_cycle_isolates_failed_batches (w : World) (st : State) :
  subscriptions st ≠ ∅ →
  ∃ batches cy,
    concat batches = subscribed_keys st
    ∧ Forall (λ b, 0 < length b ≤ batchSize) batches
    ∧ fetch_loop (S (length (subscribed_keys st))) w (new_cycle st)
      = Some (cy, map call_for batches)
    ∧ (∀ b msg, In b batches →
         getMultipleStockPrices w (batch_arg b) = Throw msg →
         ∀ s, In s b → In (mkSymError (JStr s) msg) (cy_allErrors cy))
    ∧ (∀ b stocks errors, In b batches →
         getMultipleStockPrices w (batch_arg b) = Return (stocks, errors) →
         incl stocks (cy_allUpdates cy) ∧ incl errors (cy_allErrors cy))
    ∧ broadcastStockUpdates w st
      = Some (map call_for batches ++ fanout st (cy_allUpdates cy) (cy_allErrors cy)).
Proof.
  intros Hne.
  destruct (fetch_loop_spec w (S (length (subscribed_keys st))) (new_cycle st))
    as (batches & cy & Hloop & Hcat & Hlen & Hup & Herr); [simpl; lia|].
  simpl in Hcat, Hup, Herr.
  exists batches, cy. split; [done|]. split; [done|]. split; [done|].
  split; [|split].
  - intros b msg Hb Hthrow s Hs. rewrite Herr. apply in_flat_map.
    exists b. split; [done|]. unfold batch_errors. rewrite Hthrow.
    apply in_map_iff. by exists s.
  - intros b stocks errors Hb Hret. split; intros x Hx.
    + rewrite Hup. apply in_flat_map. exists b. split; [done|].
      unfold batch_updates. by rewrite Hret.
    + rewrite Herr. apply in_flat_map. exists b. split; [done|].
      unfold batch_errors. by rewrite Hret.
  - unfold broadcastStockUpdates.
    destruct (Nat.eqb_spec (size (subscriptions st)) 0) as [Hz|_].
    + by apply map_size_empty_iff in Hz.
    + by rewrite Hloop.
Qed.

Lemma refresh_cycle_isolates_failed_batches_witness :
  subscriptions (one_client 12) ≠ ∅
  ∧ ∃ batches cy,
      concat batches = subscribed_keys (one_client 12)
      ∧ Forall (λ b, 0 < length b ≤ batchSize) batches
      ∧ fetch_loop (S (length (subscribed_keys (one_client 12)))) flaky
          (new_cycle (one_client 12))
        = Some (cy, map call_for batches)
      ∧ (∀ b msg, In b batches →
           getMultipleStockPrices flaky (batch_arg b) = Throw msg →
           ∀ s, In s b → In (mkSymError (JStr s) msg) (cy_allErrors cy))
      ∧ (∀ b stocks errors, In b batches →
           getMultipleStockPrices flaky (batch_arg b) = Return (stocks, errors) →
           incl stocks (cy_allUpdates cy) ∧ incl errors (cy_allErrors cy))
      ∧ broadcastStockUpdates flaky (one_client 12)
        = Some (map call_for batches
                ++ fanout (one_client 12) (cy_allUpdates cy) (cy_allErrors cy)).
Proof.
  assert (Hne : subscriptions (one_client 12) ≠ ∅).
  { intros He. apply (f_equal size) in He. vm_compute in He. discriminate He. }
  split; [exact Hne|].
  exact (refresh_cycle_isolates_failed_batches flaky (one_client 12) Hne).
Defined.

(** The cycle of twelve symbols against the provider [flaky]: the call for
    the batch of ten throws, the call for the remaining two is made and
    answered, and all twelve symbols end on the failure list, ten of them
    with the message of the exception. *)
Example failed_batch_does_not_stop_the_cycle :
  ∃ cy calls,
    fetch_loop 13 flaky (new_cycle (one_client 12)) = Some (cy, calls)
    ∧ length calls = 2
    ∧ cy_allUpdates cy = []
    ∧ map err_error (cy_allErrors cy)
      = replicate 10 "Failed to fetch multiple stock prices: timeout of 15000ms exceeded"
        ++ replicate 2 "Stock not found".
Proof.
  destruct (fetch_loop 13 flaky (new_cycle (one_client 12))) as [[cy calls]|] eqn:Hloop;
    [|vm_compute in Hloop; discriminate Hloop].
  exists cy, calls. split; [reflexivity|].
  vm_compute in Hloop. injection Hloop as <- <-.
  vm_compute. split; [|split]; reflexivity.
Qed.

(** ** C8: ticks and cycles in flight *)

(** C8, as the specification states it, fails. With 25 symbols a cycle
    makes three calls in a row; when the first two take almost 15 seconds
    each, the timer fires again while the third is awaited, and a second
    cycle starts next to the first. *)
Lemma overlapping_cycles :
  fresh_connects offline slow_upstream initial_state = true
  ∧ length (inflight (run_state offline slow_upstream initial_state)) = 2
  ∧ ¬ cycles_never_overlap.
Proof.
  assert (Hfresh : fresh_connects offline slow_upstream initial_state = true)
    by (vm_compute; reflexivity).
  assert (Htwo : length (inflight (run_state offline slow_upstream initial_state)) = 2)
    by (vm_compute; reflexivity).
  split; [exact Hfresh|]. split; [exact Htwo|].
  intros Hnever. specialize (Hnever offline slow_upstream Hfresh).
  rewrite Htwo in Hnever. lia.
Qed.

(** C8, amended. The scheduler has no guard against overlap. Whenever the
    timer is active and the index is not empty, a tick starts a new refresh
    cycle at once: it takes its snapshot and issues the call for its first
    batch, whatever the number of cycles still in flight, and the cycles in
    flight stay as they are. A tick that comes while a cycle is awaiting the
    provider is neither skipped nor queued. *)
Theorem every_tick_starts_a_cycle (st : State) :
  updateInterval st = true →
  subscriptions st ≠ ∅ →
  (on_timer st).1 = set_inflight (λ cycles, cycles ++ [new_cycle st]) st
  ∧ length (inflight (on_timer st).1) = S (length (inflight st))
  ∧ (on_timer st).2 = [call_for (cycle_batch (new_cycle st))]
  ∧ 0 < length (cycle_batch (new_cycle st)).
Proof.
  intros Hrun Hne. unfold on_timer. rewrite Hrun.
  destruct (Nat.eqb_spec (size (subscriptions st)) 0) as [Hz|Hnz].
  { by apply map_size_empty_iff in Hz. }
  simpl. split; [done|]. split; [|split; [done|]].
  - rewrite length_app. simpl. lia.
  - rewrite cycle_batch_eq. simpl. rewrite drop_0, length_take.
    unfold subscribed_keys, batchSize.
    assert (length (elements (dom (subscriptions st))) = size (subscriptions st)) as ->.
    { by rewrite <- size_dom. }
    lia.
Qed.

Lemma every_tick_starts_a_cycle_witness :
  let st := run_state offline (take 5 slow_upstream) initial_state in
  updateInterval st = true
  ∧ subscriptions st ≠ ∅
  ∧ length (inflight st) = 1
  ∧ length (inflight (on_timer st).1) = 2.
Proof.
  intros st.
  assert (Hrun : updateInterval st = true) by (vm_compute; reflexivity).
  assert (Hne : subscriptions st ≠ ∅).
  { intros He. apply (f_equal size) in He. vm_compute in He. discriminate He. }
  assert (Hone : length (inflight st) = 1) by (vm_compute; reflexivity).
  split; [exact Hrun|]. split; [exact Hne|]. split; [exact Hone|].
  destruct (every_tick_starts_a_cycle st Hrun Hne) as (_ & Hlen & _).
  rewrite Hlen, Hone. reflexivity.
Defined.

(** ** C6: the watchlist subscription *)

(** The handler calls a static the model does not have: every request with
    a user id fails before the database is asked, whatever the database
    holds; the registry is never touched. A request without a user id is
    answered with the error for the missing id. *)
Lemma watchlist_handler_branches (w : World) (c : SocketId) (data : JsVal)
    (userId : JsVal) (st : State) :
  get_prop "userId" data = Return userId →
  (on_subscribe_watchlist w c data st).1 = st
  ∧ (truthy userId = false →
     (on_subscribe_watchlist w c data st).2
     = [Emit c (subscription_error "User ID required for watchlist subscription")])
  ∧ (truthy userId = true →
     (on_subscribe_watchlist w c data st).2
     = [Emit c (subscription_error "Failed to subscribe to watchlist")]).
Proof.
  intros Hdata. split; [apply on_subscribe_watchlist_state|].
  unfold on_subscribe_watchlist. rewrite Hdata.
  split; by intros ->.
Qed.

(** The rest of the handler, had the lookup resolved: no watchlist is
    answered with [watchlist_subscribed] and an empty list; a document of the
    schema has [stocks] and no [items], so reading [items.length] throws; and a
    value with a non-empty array [items] leads to the emit of a [subscribe]
    event to the client. *)
Lemma watchlist_reply_cases :
  watchlist_reply JNull = watchlist_subscribed [] "No watchlist found or empty"
  ∧ (∀ userId stocks,
       watchlist_reply (watchlist_document userId stocks)
       = subscription_error "Failed to subscribe to watchlist")
  ∧ (∀ fields items symbols,
       assoc_get "items" fields = JArr items →
       items ≠ [] →
       item_symbols items = Return symbols →
       watchlist_reply (JObj fields) = subscribe_event symbols).
Proof.
  split; [done|]. split; [done|].
  intros fields items symbols Hitems Hne Hsym. unfold watchlist_reply.
  cbn [truthy get_member]. rewrite Hitems, Hsym. by destruct items.
Qed.

(** C6 fails on the code. The database holds a default watchlist with AAPL
    and MSFT for user u1, and the static of the model that finds it is
    [findDefaultByUserId]. Client c1 sends [subscribe_watchlist] for u1. The
    handler calls [Watchlist.findDefaultWatchlist], which the model does not
    define, so the call throws and the handler answers
    [subscription_error]. The client gets no [watchlist_subscribed], its
    subscription set and the index stay empty and the timer stays idle,
    whereas the same two symbols sent in a [subscribe] message end in the set
    and the index. *)
Theorem watchlist_symbols_are_not_subscribed :
  Watchlist_call with_watchlist "findDefaultByUserId" (JStr "u1")
    = Return (watchlist_document (JStr "u1") two_stocks)
  ∧ item_symbols two_stocks = Return [JStr "AAPL"; JStr "MSFT"]
  ∧ Watchlist_static "findDefaultWatchlist" = None
  ∧ (run with_watchlist watchlist_request initial_state).2
    = [Emit "c1" (subscription_error "Failed to subscribe to watchlist")]
  ∧ symbolsFor "c1" (run_state with_watchlist watchlist_request initial_state) = ∅
  ∧ subscriptions (run_state with_watchlist watchlist_request initial_state) = ∅
  ∧ updateInterval (run_state with_watchlist watchlist_request initial_state) = false
  ∧ symbolsFor "c1" (run_state with_watchlist direct_request initial_state)
    = {[ "AAPL"; "MSFT" ]}
  ∧ allSubscribedSymbols (run_state with_watchlist direct_request initial_state)
    = {[ "AAPL"; "MSFT" ]}.
Proof.
  split; [reflexivity|].
  split; [reflexivity|].
  split; [reflexivity|].
  split; [vm_compute; reflexivity|].
  split; [vm_compute; reflexivity|].
  split; [vm_compute; reflexivity|].
  split; [vm_compute; reflexivity|].
  split; vm_compute; reflexivity.
Qed.

(** ** C10: the forced update *)

Section ForcedUpdate.
Implicit Types (w : World) (st : State).

Lemma getMultipleStockPrices_non_array w v :
  (∀ items, v ≠ JArr items) →
  getMultipleStockPrices w v = Throw "Valid symbols array is required".
Proof. intros Hv. destruct v; try done. by destruct (Hv items). Qed.

Lemma getMultipleStockPrices_too_many w items :
  100 < length items →
  getMultipleStockPrices w (JArr items)
  = Throw "Maximum 100 symbols allowed per request".
Proof.
  intros Hlen. unfold getMultipleStockPrices, validate_symbols.
  destruct (Nat.eqb_spec (length items) 0) as [Hz|_]; [lia|].
  apply Nat.ltb_lt in Hlen. by rewrite Hlen.
Qed.

Lemma force_loop_emits w st stocks :
  forallb is_emit (force_loop w st stocks).1 = true.
Proof.
  induction stocks as [|stock stocks IH]; [done|]. simpl.
  destruct (db_findOneAndUpdate w stock); [|done].
  destruct (force_loop w st stocks) as [effects thrown]. simpl in *.
  rewrite forallb_app, IH, andb_true_r.
  unfold push_update. by induction (recipients_of _ _).
Qed.

Lemma fanout_emits st allUpdates allErrors :
  forallb is_emit (fanout st allUpdates allErrors) = true.
Proof.
  apply forallb_forall. intros e Hin. rewrite fanout_flat in Hin.
  apply in_app_iff in Hin as [Hin|Hin]; apply in_flat_map in Hin as (x & _ & Hin).
  - by destruct (push_update_emits _ _ _ _ Hin) as (c & m & ->).
  - by destruct (push_error_emits _ _ _ Hin) as (c & m & ->).
Qed.

(** The refresh cycle ends for every state, and every call it makes
    passes the two guards of [getMultipleStockPrices]. *)
Lemma broadcast_calls_are_valid w st :
  ∃ effects,
    broadcastStockUpdates w st = Some effects
    ∧ ∀ arg, In (Call_getMultipleStockPrices arg) effects →
        ∃ items, validate_symbols arg = Return items
                 ∧ 0 < length items ≤ batchSize.
Proof.
  destruct (decide (subscriptions st = ∅)) as [He|Hne].
  - exists []. unfold broadcastStockUpdates. rewrite He, map_size_empty.
    split; [done|]. by intros arg [].
  - destruct (refresh_cycle_shape w st Hne)
      as (batches & cy & Hlen & Hb).
    eexists. split; [exact Hb|]. intros arg Hin.
    apply in_app_iff in Hin as [Hin|Hin].
    + apply in_map_iff in Hin as (b & [= <-] & Hin).
      rewrite Forall_forall in Hlen. specialize (Hlen b).
      rewrite list_elem_of_In in Hlen. specialize (Hlen Hin).
      exists (map JStr b). rewrite length_map. split; [|done].
      by apply batch_arg_valid.
    + pose proof (fanout_emits st (cy_allUpdates cy) (cy_allErrors cy)) as Hem.
      rewrite forallb_forall in Hem. by apply Hem in Hin.
Qed.
(** The refresh cycle ends for every state. Its calls are the calls for
    consecutive batches of one to ten symbols that together are the keys of
    the index, and what these calls return or throw is what the cycle fans
    out. *)
Lemma broadcast_batches_the_index w st :
  ∃ batches cy,
    concat batches = subscribed_keys st
    ∧ Forall (λ b, 0 < length b ≤ batchSize) batches
    ∧ cy_allUpdates cy = flat_map (batch_updates w) batches
    ∧ cy_allErrors cy = flat_map (batch_errors w) batches
    ∧ broadcastStockUpdates w st
      = Some (map call_for batches ++ fanout st (cy_allUpdates cy) (cy_allErrors cy)).
Proof.
  destruct (decide (subscriptions st = ∅)) as [He|Hne].
  - exists [], (new_cycle st). unfold broadcastStockUpdates, subscribed_keys.
    rewrite He, map_size_empty, dom_empty_L, elements_empty. by repeat split.
  - destruct (fetch_loop_spec w (S (length (subscribed_keys st))) (new_cycle st))
      as (batches & cy & Hloop & Hcat & Hlen & Hup & Herr); [simpl; lia|].
    exists batches, cy. split; [exact Hcat|]. split; [exact Hlen|].
    split; [exact Hup|]. split; [exact Herr|]. unfold broadcastStockUpdates.
    destruct (Nat.eqb_spec (size (subscriptions st)) 0) as [Hz|_].
    + by apply map_size_empty_iff in Hz.
    + by rewrite Hloop.
Qed.
End ForcedUpdate.

(** C10. [getMultipleStockPrices] throws on an argument that is not an
    array, on the empty array and on an array of more than 100 elements.
    [forceStockUpdate] hands its whole array to one call of it and makes no
    other call, so a forced update for more than 100 symbols throws that
    error and pushes nothing to any client. The refresh cycle, for any number
    of subscribed symbols, runs to its end: it cuts the keys of the index into
    consecutive batches of one to ten symbols, calls the provider once for
    each batch, in order, and fans out what these calls returned or threw;
    each of its calls passes both guards. *)
Theorem forced_update_is_not_batched (w : World) (st : State) :
  (∀ v, (∀ items, v ≠ JArr items) →
     getMultipleStockPrices w v = Throw "Valid symbols array is required")
  ∧ getMultipleStockPrices w (JArr []) = Throw "Valid symbols array is required"
  ∧ (∀ items, 100 < length items →
       getMultipleStockPrices w (JArr items)
       = Throw "Maximum 100 symbols allowed per request")
  ∧ (∀ items, ∃ emits,
       (forceStockUpdate w st (JArr items)).1
       = Call_getMultipleStockPrices (JArr items) :: emits
       ∧ forallb is_emit emits = true)
  ∧ (∀ items, 100 < length items →
       forceStockUpdate w st (JArr items)
       = ([Call_getMultipleStockPrices (JArr items)],
          Throw "Maximum 100 symbols allowed per request"))
  ∧ (∃ batches cy effects,
       concat batches = subscribed_keys st
       ∧ Forall (λ b, 0 < length b ≤ batchSize) batches
       ∧ cy_allUpdates cy = flat_map (batch_updates w) batches
       ∧ cy_allErrors cy = flat_map (batch_errors w) batches
       ∧ effects = map call_for batches ++ fanout st (cy_allUpdates cy) (cy_allErrors cy)
       ∧ broadcastStockUpdates w st = Some effects
       ∧ ∀ arg, In (Call_getMultipleStockPrices arg) effects →
           ∃ items, validate_symbols arg = Return items
                    ∧ 0 < length items ≤ batchSize).
Proof.
  split; [apply getMultipleStockPrices_non_array|].
  split; [done|].
  split; [apply getMultipleStockPrices_too_many|].
  split; [|split].
  - intros items. unfold forceStockUpdate.
    destruct (getMultipleStockPrices w (JArr items)) as [[stocks errors]|msg].
    + pose proof (force_loop_emits w st stocks) as Hem.
      destruct (force_loop w st stocks) as [effects [msg|]]; by exists effects.
    + by exists [].
  - intros items Hlen. unfold forceStockUpdate.
    by rewrite getMultipleStockPrices_too_many.
  - destruct (broadcast_batches_the_index w st)
      as (batches & cy & Hcat & Hlen & Hup & Herr & Hcycle).
    destruct (broadcast_calls_are_valid w st) as (effects & Heff & Hvalid).
    exists batches, cy, effects. rewrite Hcycle in Heff. injection Heff as <-.
    split; [exact Hcat|]. split; [exact Hlen|]. split; [exact Hup|].
    split; [exact Herr|]. split; [reflexivity|]. split; [exact Hcycle|exact Hvalid].
Qed.

Lemma forced_update_is_not_batched_witness :
  100 < length (tickers 150)
  ∧ size (subscriptions crowded) = 150
  ∧ forceStockUpdate offline crowded (JArr (tickers 150))
    = ([Call_getMultipleStockPrices (JArr (tickers 150))],
       Throw "Maximum 100 symbols allowed per request")
  ∧ ∃ batches effects,
      concat batches = subscribed_keys crowded
      ∧ Forall (λ b, 0 < length b ≤ batchSize) batches
      ∧ broadcastStockUpdates offline crowded = Some effects
      ∧ ∀ arg, In (Call_getMultipleStockPrices arg) effects →
          ∃ items, validate_symbols arg = Return items
                   ∧ 0 < length items ≤ batchSize.
Proof.
  assert (Hlen : 100 < length (tickers 150)).
  { unfold tickers. rewrite length_map, length_seq. lia. }
  destruct (forced_update_is_not_batched offline crowded)
    as (_ & _ & _ & _ & Hforce & Hcycle).
  split; [exact Hlen|]. split; [vm_compute; reflexivity|].
  split; [exact (Hforce (tickers 150) Hlen)|].
  destruct Hcycle as (batches & cy & effects & Hcat & Hb & _ & _ & _ & Hrun & Hvalid).
  exists batches, effects.
  split; [exact Hcat|]. split; [exact Hb|]. split; [exact Hrun|exact Hvalid].
Defined.

(** The cycle over the 150 symbols of [crowded] makes fifteen calls and an
    error message for each symbol reaches its one subscriber. *)
Example crowded_cycle_makes_fifteen_calls :
  ∃ effects,
    broadcastStockUpdates offline crowded = Some effects
    ∧ length (filter (λ e, is_call e = true) effects) = 15
    ∧ length (filter (λ e, is_emit e = true) effects) = 150.
Proof.
  destruct (broadcastStockUpdates offline crowded) as [effects|] eqn:Hcycle;
    [|vm_compute in Hcycle; discriminate Hcycle].
  exists effects. split; [reflexivity|].
  vm_compute in Hcycle. injection Hcycle as <-.
  split; vm_compute; reflexivity.
Qed.

(** * Further properties of the handlers *)

(** ** What a subscribe within the cap does *)

Section SubscribeEffect.
Implicit Types (st : State) (c : SocketId) (acc : SubAcc).

Lemma omap_accepted_cons v symbols :
  omap accepted_symbol (v :: symbols)
  = match accepted_symbol v with
    | Some s => s :: omap accepted_symbol symbols
    | None => omap accepted_symbol symbols
    end.
Proof. reflexivity. Qed.

Lemma filter_rejected_cons v symbols :
  filter (λ x, accepted_symbol x = None) (v :: symbols)
  = match accepted_symbol v with
    | Some _ => filter (λ x, accepted_symbol x = None) symbols
    | None => v :: filter (λ x, accepted_symbol x = None) symbols
    end.
Proof.
  destruct (accepted_symbol v) eqn:Hv.
  - rewrite filter_cons_False; [done|]. by rewrite Hv.
  - by rewrite filter_cons_True.
Qed.

(** One iteration: the element is either accepted, and then added to the
    set of the connection and the connection to its index entry, or it goes
    to the errors and nothing changes. *)
Lemma subscribe_symbol_step c acc v :
  is_Some (connections (sa_state acc) !! c) →
  match accepted_symbol v with
  | Some s =>
      sa_subscribedSymbols (subscribe_symbol c acc v) = sa_subscribedSymbols acc ++ [s]
      ∧ sa_errors (subscribe_symbol c acc v) = sa_errors acc
      ∧ (∀ c', symbolsFor c' (sa_state (subscribe_symbol c acc v))
               = if decide (c = c') then symbolsFor c (sa_state acc) ∪ {[ s ]}
                 else symbolsFor c' (sa_state acc))
      ∧ (∀ s', entry (subscriptions (sa_state (subscribe_symbol c acc v))) s'
               = if decide (s = s') then entry (subscriptions (sa_state acc)) s ∪ {[ c ]}
                 else entry (subscriptions (sa_state acc)) s')
  | None =>
      sa_subscribedSymbols (subscribe_symbol c acc v) = sa_subscribedSymbols acc
      ∧ map err_symbol (sa_errors (subscribe_symbol c acc v))
        = map err_symbol (sa_errors acc) ++ [v]
      ∧ sa_state (subscribe_symbol c acc v) = sa_state acc
  end.
Proof.
  intros Hc. unfold accepted_symbol, subscribe_symbol.
  destruct (cleanSymbol v) as [clean|msg].
  - destruct (String.eqb clean ""); simpl.
    + by rewrite map_app.
    + split; [done|]. split; [done|]. split.
      * intros c'. by apply symbolsFor_conn_add.
      * intros s'. apply entry_index_add.
  - simpl. by rewrite map_app.
Qed.

Lemma subscribe_fold_effect c symbols acc :
  is_Some (connections (sa_state acc) !! c) →
  let acc' := fold_left (subscribe_symbol c) symbols acc in
  sa_subscribedSymbols acc' = sa_subscribedSymbols acc ++ omap accepted_symbol symbols
  ∧ map err_symbol (sa_errors acc')
    = map err_symbol (sa_errors acc) ++ filter (λ x, accepted_symbol x = None) symbols
  ∧ (∀ c', symbolsFor c' (sa_state acc')
           = if decide (c = c')
             then symbolsFor c (sa_state acc) ∪ list_to_set (omap accepted_symbol symbols)
             else symbolsFor c' (sa_state acc))
  ∧ (∀ s, entry (subscriptions (sa_state acc')) s
          = if decide (s ∈ omap accepted_symbol symbols)
            then entry (subscriptions (sa_state acc)) s ∪ {[ c ]}
            else entry (subscriptions (sa_state acc)) s).
Proof.
  revert acc. induction symbols as [|v symbols IH]; intros acc Hc; cbv zeta.
  - cbn [fold_left]. rewrite !app_nil_r. split; [done|]. split; [done|]. split.
    + intros c'. case_decide; [|done]. subst. set_solver.
    + intros s. case_decide as Hin; [|done]. by apply elem_of_nil in Hin.
  - cbn [fold_left].
    destruct (IH (subscribe_symbol c acc v) (subscribe_symbol_connected c acc v Hc))
      as (IHs & IHe & IHc & IHi).
    cbv zeta in IHs, IHe, IHc, IHi.
    pose proof (subscribe_symbol_step c acc v Hc) as Hstep.
    rewrite omap_accepted_cons, filter_rejected_cons.
    destruct (accepted_symbol v) as [s|].
    + destruct Hstep as (Hs & He & Hcs & Hi).
      split; [by rewrite IHs, Hs, <- app_assoc|].
      split; [by rewrite IHe, He|]. split.
      * intros c'. rewrite IHc, !Hcs. repeat case_decide; try done; set_solver.
      * intros s'. rewrite IHi, !Hi.
        repeat case_decide; subst; try set_solver.
    + destruct Hstep as (Hs & He & Hst).
      split; [by rewrite IHs, Hs|].
      split; [by rewrite IHe, He, <- app_assoc|]. split.
      * intros c'. by rewrite IHc, Hst.
      * intros s'. by rewrite IHi, Hst.
Qed.
End SubscribeEffect.

Lemma accepted_rejected_length symbols :
  length (omap accepted_symbol symbols)
  + length (filter (λ x, accepted_symbol x = None) symbols)
  = length symbols.
Proof.
  induction symbols as [|v symbols IH]; [done|].
  rewrite omap_accepted_cons, filter_rejected_cons.
  destruct (accepted_symbol v); simpl; lia.
Qed.

(** The subscription sets after a subscribe within the cap. *)
Lemma on_subscribe_symbolsFor c data symbols st conn :
  get_prop "symbols" data = Return (JArr symbols) →
  connections st !! c = Some conn →
  size (conn_subscriptions conn) + length symbols ≤ MAX_SUBSCRIPTIONS_PER_CLIENT →
  ∀ c', symbolsFor c' (on_subscribe c data st).1
        = if decide (c = c')
          then conn_subscriptions conn ∪ list_to_set (omap accepted_symbol symbols)
          else symbolsFor c' st.
Proof.
  intros Hdata Hc Hsize c'.
  rewrite (subscribe_within_limit c data symbols st conn Hdata Hc Hsize). cbv zeta.
  destruct (subscribe_fold_effect c symbols (mkSubAcc st [] [])) as (_ & _ & Hcs & _).
  { simpl. by eexists. }
  cbv zeta in Hcs. simpl in Hcs. fold (subscribe_loop c symbols st) in Hcs.
  destruct (start_if_needed_registry (sa_state (subscribe_loop c symbols st)))
    as [Hconns _].
  cbn [fst].
  assert (Hsym : symbolsFor c st = conn_subscriptions conn).
  { unfold symbolsFor. by rewrite Hc. }
  rewrite <- Hsym, <- Hcs. unfold symbolsFor. by rewrite Hconns.
Qed.

(** X1. A subscribe request within the cap accounts for every element of
    its array exactly once: the elements that clean to a non-empty symbol are
    accepted, in request order, the others are returned in [errors], in
    request order. The accepted symbols, and nothing else, are added to the
    subscription set of the connection, and the connection is added to the
    index entry of each accepted symbol; every other subscription set and
    index entry is as before. *)
Theorem subscribe_accounts_for_every_element
    (c : SocketId) (data : JsVal) (symbols : list JsVal) (st : State)
    (conn : Connection) :
  get_prop "symbols" data = Return (JArr symbols) →
  connections st !! c = Some conn →
  size (conn_subscriptions conn) + length symbols ≤ MAX_SUBSCRIPTIONS_PER_CLIENT →
  let accepted := omap accepted_symbol symbols in
  ∃ errors,
    head (on_subscribe c data st).2 = Some (Emit c (subscribed accepted errors))
    ∧ map err_symbol errors = filter (λ v, accepted_symbol v = None) symbols
    ∧ length accepted + length errors = length symbols
    ∧ (∀ c', symbolsFor c' (on_subscribe c data st).1
             = if decide (c = c') then conn_subscriptions conn ∪ list_to_set accepted
               else symbolsFor c' st)
    ∧ (∀ s, connectionsFor s (on_subscribe c data st).1
            = if decide (s ∈ accepted) then connectionsFor s st ∪ {[ c ]}
              else connectionsFor s st).
Proof.
  intros Hdata Hc Hsize accepted.
  rewrite (subscribe_within_limit c data symbols st conn Hdata Hc Hsize). cbv zeta.
  destruct (subscribe_fold_effect c symbols (mkSubAcc st [] [])) as (Hs & He & Hcs & Hi).
  { simpl. by eexists. }
  cbv zeta in Hs, He, Hcs, Hi. simpl in Hs, He, Hcs, Hi.
  fold (subscribe_loop c symbols st) in Hs, He, Hcs, Hi.
  destruct (start_if_needed_registry (sa_state (subscribe_loop c symbols st)))
    as [Hconns Hsubs].
  exists (sa_errors (subscribe_loop c symbols st)). cbn [fst snd head].
  split; [by rewrite Hs|]. split; [exact He|]. split.
  - rewrite <- (accepted_rejected_length symbols), <- He, length_map. done.
  - assert (Hsym : symbolsFor c st = conn_subscriptions conn).
    { unfold symbolsFor. by rewrite Hc. }
    split.
    + intros c'. rewrite <- Hsym, <- Hcs. unfold symbolsFor. by rewrite Hconns.
    + intros s. unfold connectionsFor. rewrite Hsubs. apply Hi.
Qed.

Lemma subscribe_accounts_for_every_element_witness :
  let st := run_state offline [Connect "c1"] initial_state in
  let symbols := [JStr " aapl "; JNum 7; JStr "  "; JStr "msft"] in
  ∃ conn errors,
    connections st !! "c1" = Some conn
    ∧ size (conn_subscriptions conn) + length symbols ≤ MAX_SUBSCRIPTIONS_PER_CLIENT
    ∧ head (on_subscribe "c1" (symbols_payload symbols) st).2
      = Some (Emit "c1" (subscribed ["AAPL"; "MSFT"] errors))
    ∧ map err_symbol errors = [JNum 7; JStr "  "].
Proof.
  intros st symbols.
  destruct (connections st !! "c1") as [conn|] eqn:Hc;
    [|vm_compute in Hc; discriminate Hc].
  assert (Hsize : size (conn_subscriptions conn) + length symbols
                  ≤ MAX_SUBSCRIPTIONS_PER_CLIENT).
  { assert (conn_subscriptions conn = symbolsFor "c1" st) as ->.
    { unfold symbolsFor. by rewrite Hc. }
    vm_compute. repeat constructor. }
  destruct (subscribe_accounts_for_every_element "c1" (symbols_payload symbols)
              symbols st conn (get_symbols_payload symbols) Hc Hsize)
    as (errors & Hhead & Herr & _).
  exists conn, errors. split; [reflexivity|]. split; [exact Hsize|].
  split; [exact Hhead|exact Herr].
Defined.

(** ** What an unsubscribe does *)

Section UnsubscribeEffect.
Implicit Types (st : State) (c : SocketId).

Lemma unsubscribe_loop_effect c symbols st unsub :
  (unsubscribe_loop c symbols st unsub).1.2 = unsub ++ clean_prefix symbols
  ∧ (unsubscribe_loop c symbols st unsub).2
    = (if forallb is_string symbols then None
       else (unsubscribe_loop c symbols st unsub).2)
  ∧ (forallb is_string symbols = false →
     is_Some (unsubscribe_loop c symbols st unsub).2)
  ∧ (∀ c', symbolsFor c' (unsubscribe_loop c symbols st unsub).1.1
           = if decide (c = c')
             then symbolsFor c st ∖ list_to_set (clean_prefix symbols)
             else symbolsFor c' st)
  ∧ (∀ s, entry (subscriptions (unsubscribe_loop c symbols st unsub).1.1) s
          = if decide (s ∈ clean_prefix symbols)
            then entry (subscriptions st) s ∖ {[ c ]}
            else entry (subscriptions st) s).
Proof.
  revert st unsub. induction symbols as [|v symbols IH]; intros st unsub.
  - cbn [unsubscribe_loop clean_prefix forallb fst snd]. rewrite app_nil_r.
    split; [done|]. split; [done|]. split; [done|]. split.
    + intros c'. case_decide; [|done]. set_solver.
    + intros s. case_decide as Hin; [|done]. by apply elem_of_nil in Hin.
  - cbn [unsubscribe_loop clean_prefix forallb].
    destruct (cleanSymbol v) as [clean|msg] eqn:Hclean.
    + assert (is_string v = true) as -> by by destruct v.
      cbn [andb].
      match goal with |- context [unsubscribe_loop c symbols ?x ?u] =>
        destruct (IH x u) as (IHu & IHn & IHt & IHc & IHi) end.
      split; [by rewrite IHu, <- app_assoc|]. split; [exact IHn|].
      split; [exact IHt|]. split.
      * intros c'. rewrite IHc.
        change (symbolsFor ?k (set_subscriptions ?f ?x)) with (symbolsFor k x).
        rewrite !symbolsFor_conn_delete. repeat case_decide; try done; set_solver.
      * intros s'. rewrite IHi.
        change (subscriptions (set_subscriptions ?f ?x)) with (f (subscriptions x)).
        change (subscriptions (set_connections ?f ?x)) with (subscriptions x).
        rewrite !entry_index_remove.
        repeat case_decide; subst; set_solver.
    + assert (is_string v = false) as -> by by destruct v.
      cbn [andb fst snd]. rewrite app_nil_r.
      split; [done|]. split; [done|]. split; [by eexists|]. split.
      * intros c'. case_decide; [|done]. set_solver.
      * intros s'. case_decide as Hin; [|done]. by apply elem_of_nil in Hin.
Qed.
End UnsubscribeEffect.

(** X2. An unsubscribe request that carries an array, from an open
    connection, works through the array up to the first element that is not a
    string. The symbols cleaned so far are removed from the subscription set
    of the connection, and the connection from their index entries; no other
    set or entry changes. When every element is a string the reply is
    [unsubscribed] with all cleaned symbols, in request order, whether the
    connection held them or not; otherwise it is [unsubscription_error]. *)
Theorem unsubscribe_removes_the_cleaned_symbols
    (c : SocketId) (data : JsVal) (symbols : list JsVal) (st : State)
    (conn : Connection) :
  get_prop "symbols" data = Return (JArr symbols) →
  connections st !! c = Some conn →
  (on_unsubscribe c data st).2
  = [Emit c (if forallb is_string symbols
             then unsubscribed (clean_prefix symbols)
             else unsubscription_error "Unsubscription failed")]
  ∧ (∀ c', symbolsFor c' (on_unsubscribe c data st).1
           = if decide (c = c')
             then conn_subscriptions conn ∖ list_to_set (clean_prefix symbols)
             else symbolsFor c' st)
  ∧ (∀ s, connectionsFor s (on_unsubscribe c data st).1
          = if decide (s ∈ clean_prefix symbols)
            then connectionsFor s st ∖ {[ c ]}
            else connectionsFor s st).
Proof.
  intros Hdata Hc. unfold on_unsubscribe. rewrite Hdata, Hc.
  destruct (unsubscribe_loop_effect c symbols st []) as (Hu & Hn & Ht & Hcs & Hi).
  assert (Hsym : symbolsFor c st = conn_subscriptions conn).
  { unfold symbolsFor. by rewrite Hc. }
  rewrite <- Hsym.
  destruct (unsubscribe_loop c symbols st []) as [[st' unsub] thrown].
  simpl in Hu, Hn, Ht, Hcs, Hi. subst unsub.
  destruct (forallb is_string symbols).
  - subst thrown. cbn [fst snd].
    destruct (stop_if_unused_registry st') as [Hconns Hsubs].
    split; [done|]. split.
    + intros c'. rewrite <- Hcs. unfold symbolsFor. by rewrite Hconns.
    + intros s. unfold connectionsFor. rewrite Hsubs. apply Hi.
  - destruct (Ht eq_refl) as [msg ->]. cbn [fst snd].
    split; [done|]. split; [exact Hcs|exact Hi].
Qed.

Lemma unsubscribe_removes_the_cleaned_symbols_witness :
  let st := run_state offline
              [Connect "c1"; Subscribe "c1" (symbols_payload [JStr "aapl"; JStr "msft"])]
              initial_state in
  ∃ conn,
    connections st !! "c1" = Some conn
    ∧ (on_unsubscribe "c1" (symbols_payload [JStr " aapl"; JStr "goog"]) st).2
      = [Emit "c1" (unsubscribed ["AAPL"; "GOOG"])].
Proof.
  intros st.
  destruct (connections st !! "c1") as [conn|] eqn:Hc;
    [|vm_compute in Hc; discriminate Hc].
  exists conn. split; [reflexivity|].
  exact (proj1 (unsubscribe_removes_the_cleaned_symbols "c1" _
                  [JStr " aapl"; JStr "goog"] st conn
                  (get_symbols_payload _) Hc)).
Defined.

(** ** Disconnect *)

(** X3. In every state the engine can reach, a disconnect removes the
    connection and its identifier from every index entry, leaves the other
    connections as they are, answers nothing, and a symbol stays a key of the
    index exactly when some other connection holds it. *)
Theorem disconnect_purges_the_connection
    (w : World) (events : list Event) (c : SocketId) :
  fresh_connects w events initial_state = true →
  let st := run_state w events initial_state in
  let st' := (on_disconnect c st).1 in
  (on_disconnect c st).2 = []
  ∧ connections st' = delete c (connections st)
  ∧ (∀ s, connectionsFor s st' = connectionsFor s st ∖ {[ c ]})
  ∧ (∀ s, s ∈ allSubscribedSymbols st' ↔ ∃ c', c' ≠ c ∧ s ∈ symbolsFor c' st).
Proof.
  intros Hfresh st st'.
  assert (Hinv : registry_inv st) by exact (run_inv w events _ Hfresh initial_inv).
  assert (Hinv' : registry_inv st') by by apply on_disconnect_inv.
  clearbody st. destruct Hinv as [Hp Hrel].
  assert (Hconns : connections st' = delete c (connections st)).
  { subst st'. unfold on_disconnect. cbn [fst].
    match goal with |- connections (stop_if_unused ?x) = _ =>
      destruct (stop_if_unused_registry x) as [-> _] end.
    simpl. by destruct (connections st !! c). }
  assert (Hidx : ∀ s, connectionsFor s st' = connectionsFor s st ∖ {[ c ]}).
  { intros s. subst st'. unfold on_disconnect, connectionsFor. cbn [fst].
    match goal with |- context [stop_if_unused ?x] =>
      destruct (stop_if_unused_registry x) as [_ ->] end.
    simpl. pose proof (Hrel c s) as Hcs. unfold symbolsFor, connectionsFor in Hcs.
    destruct (connections st !! c) as [conn|]; simpl.
    - fold (entry (index_remove_all c (elements (conn_subscriptions conn))
                     (subscriptions st)) s).
      rewrite entry_index_remove_all. unfold entry.
      case_decide as Hin; [done|]. rewrite elem_of_elements in Hin. set_solver.
    - set_solver. }
  split; [done|]. split; [exact Hconns|]. split; [exact Hidx|].
  intros s. clearbody st'. destruct Hinv' as [Hp' Hrel'].
  unfold allSubscribedSymbols. rewrite elem_of_dom. split.
  - intros [clients Hs].
    destruct (set_choose_L clients (Hp' s clients Hs)) as [c' Hc'].
    assert (Hin : c' ∈ connectionsFor s st') by (unfold connectionsFor; by rewrite Hs).
    rewrite Hidx in Hin. exists c'. split; [set_solver|]. apply Hrel. set_solver.
  - intros (c' & Hne & Hs). apply Hrel in Hs.
    assert (Hin : c' ∈ connectionsFor s st') by (rewrite Hidx; set_solver).
    unfold connectionsFor in Hin.
    destruct (subscriptions st' !! s); [by eexists|set_solver].
Qed.

Lemma disconnect_purges_the_connection_witness :
  let events :=
    [Connect "c1"; Connect "c2";
     Subscribe "c1" (symbols_payload [JStr "AAPL"; JStr "MSFT"]);
     Subscribe "c2" (symbols_payload [JStr "AAPL"])] in
  fresh_connects offline events initial_state = true
  ∧ connections (on_disconnect "c1" (run_state offline events initial_state)).1
    = delete "c1" (connections (run_state offline events initial_state)).
Proof.
  intros events.
  assert (Hfresh : fresh_connects offline events initial_state = true)
    by (vm_compute; reflexivity).
  split; [exact Hfresh|].
  exact (proj1 (proj2 (disconnect_purges_the_connection offline events "c1" Hfresh))).
Defined.

(** ** Subscribe, then unsubscribe *)

Section RoundTrip.
Implicit Types (st : State) (c : SocketId) (s : string).

Lemma index_remove_add idx s c :
  pruned idx → c ∉ entry idx s → index_remove s c (index_add s c idx) = idx.
Proof.
  intros Hp Hc. apply map_eq. intros s'.
  rewrite index_remove_lookup, index_add_lookup.
  case_decide as Heq; [subst|by rewrite index_add_lookup, decide_False].
  rewrite decide_True by done. unfold entry in *.
  destruct (idx !! s') as [clients|] eqn:Hs; simpl in *.
  - assert ((clients ∪ {[c]}) ∖ {[c]} = clients) as -> by set_solver.
    case_decide as He; [|done]. by destruct (Hp s' clients Hs).
  - case_decide as He; [done|]. destruct He. set_solver.
Qed.

Lemma conn_delete_add s conn :
  s ∉ conn_subscriptions conn → conn_delete s (conn_add s conn) = conn.
Proof.
  intros Hs. destruct conn as [subs u b]. unfold conn_delete, conn_add; simpl in *.
  f_equal. set_solver.
Qed.
End RoundTrip.

(** X4. In every state the engine can reach, a subscribe for one symbol
    the connection does not hold yet, followed by an unsubscribe for the same
    element, leaves the connections and the index exactly as they were. *)
Theorem unsubscribe_undoes_subscribe
    (w : World) (events : list Event) (c : SocketId) (conn : Connection)
    (v : JsVal) (s : string) :
  fresh_connects w events initial_state = true →
  let st := run_state w events initial_state in
  connections st !! c = Some conn →
  accepted_symbol v = Some s →
  s ∉ conn_subscriptions conn →
  size (conn_subscriptions conn) < MAX_SUBSCRIPTIONS_PER_CLIENT →
  let st1 := (on_subscribe c (symbols_payload [v]) st).1 in
  let st2 := (on_unsubscribe c (symbols_payload [v]) st1).1 in
  s ∈ symbolsFor c st1
  ∧ connections st2 = connections st
  ∧ subscriptions st2 = subscriptions st.
Proof.
  intros Hfresh st Hc Hv Hs Hsize.
  assert (Hinv : registry_inv st) by exact (run_inv w events _ Hfresh initial_inv).
  clearbody st. destruct Hinv as [Hp Hrel]. intros st1 st2.
  assert (Hclean : cleanSymbol v = Return s ∧ String.eqb s "" = false).
  { unfold accepted_symbol in Hv. destruct (cleanSymbol v) as [clean|]; [|done].
    destruct (String.eqb clean "") eqn:Hb; [done|]. by injection Hv as ->. }
  destruct Hclean as [Hclean Hblank].
  assert (Hst1 : connections st1 = alter (conn_add s) c (connections st)
                 ∧ subscriptions st1 = index_add s c (subscriptions st)).
  { subst st1.
    rewrite (subscribe_within_limit c _ [v] st conn (get_symbols_payload [v]) Hc)
      by (simpl; lia).
    cbv zeta. cbn [fst].
    destruct (start_if_needed_registry (sa_state (subscribe_loop c [v] st)))
      as [-> ->].
    unfold subscribe_loop. cbn [fold_left]. unfold subscribe_symbol.
    rewrite Hclean, Hblank. done. }
  destruct Hst1 as [Hc1 Hs1].
  assert (Hin1 : s ∈ symbolsFor c st1).
  { unfold symbolsFor. rewrite Hc1, lookup_alter_eq, Hc. simpl. set_solver. }
  split; [exact Hin1|].
  assert (Hopen : is_Some (connections st1 !! c)).
  { rewrite Hc1, lookup_alter_eq, Hc. by eexists. }
  destruct Hopen as [conn1 Hconn1].
  subst st2. unfold on_unsubscribe. rewrite get_symbols_payload, Hconn1.
  cbn [unsubscribe_loop]. rewrite Hclean. cbn [fst snd].
  match goal with |- connections (stop_if_unused ?x) = _ ∧ _ =>
    destruct (stop_if_unused_registry x) as [-> ->] end.
  simpl. rewrite Hc1, Hs1. split.
  - rewrite alter_alter_eq. apply alter_id. intros conn' Hc'.
    rewrite Hc in Hc'. injection Hc' as <-. simpl. by apply conn_delete_add.
  - apply index_remove_add; [done|].
    intros Hin. apply Hs. pose proof (Hrel c s) as Hcs.
    unfold symbolsFor in Hcs. rewrite Hc in Hcs. by apply Hcs.
Qed.

Lemma unsubscribe_undoes_subscribe_witness :
  let events := [Connect "c1"; Connect "c2";
                 Subscribe "c2" (symbols_payload [JStr "AAPL"])] in
  let st := run_state offline events initial_state in
  let st1 := (on_subscribe "c1" (symbols_payload [JStr " aapl "]) st).1 in
  let st2 := (on_unsubscribe "c1" (symbols_payload [JStr " aapl "]) st1).1 in
  ∃ conn,
    fresh_connects offline events initial_state = true
    ∧ connections st !! "c1" = Some conn
    ∧ accepted_symbol (JStr " aapl ") = Some "AAPL"
    ∧ ("AAPL" ∉ conn_subscriptions conn)
    ∧ size (conn_subscriptions conn) < MAX_SUBSCRIPTIONS_PER_CLIENT
    ∧ connections st2 = connections st
    ∧ subscriptions st2 = subscriptions st.
Proof.
  intros events st.
  destruct (connections st !! "c1") as [conn|] eqn:Hc;
    [|vm_compute in Hc; discriminate Hc].
  assert (Hsubs : conn_subscriptions conn = symbolsFor "c1" st).
  { unfold symbolsFor. by rewrite Hc. }
  assert (Hfresh : fresh_connects offline events initial_state = true)
    by (vm_compute; reflexivity).
  assert (Hnot : "AAPL" ∉ conn_subscriptions conn).
  { rewrite Hsubs. intros Hin.
    assert (Hb : bool_decide ("AAPL" ∈ symbolsFor "c1" st) = true)
      by by apply bool_decide_eq_true.
    vm_compute in Hb. discriminate Hb. }
  assert (Hsize : size (conn_subscriptions conn) < MAX_SUBSCRIPTIONS_PER_CLIENT).
  { rewrite Hsubs. unfold lt. vm_compute. repeat constructor. }
  intros st1 st2. exists conn.
  split; [exact Hfresh|]. split; [reflexivity|]. split; [reflexivity|].
  split; [exact Hnot|]. split; [exact Hsize|].
  exact (proj2 (unsubscribe_undoes_subscribe offline events "c1" conn
                  (JStr " aapl ") "AAPL" Hfresh Hc eq_refl Hnot Hsize)).
Defined.

(** ** The timer is never idle over a non-empty index *)

Section IdleInvariant.
Implicit Types (st : State) (c : SocketId).

Lemma start_if_needed_idle st :
  updateInterval (start_if_needed st) = false → subscriptions (start_if_needed st) = ∅.
Proof.
  unfold start_if_needed, startUpdateInterval.
  destruct (Nat.ltb_spec 0 (size (subscriptions st))) as [Hpos|Hz];
    destruct (updateInterval st) eqn:Ht; simpl; rewrite ?Ht; try done.
  intros _. apply map_size_empty_iff. lia.
Qed.

Lemma stop_if_unused_idle st :
  (updateInterval st = false → subscriptions st = ∅) →
  updateInterval (stop_if_unused st) = false → subscriptions (stop_if_unused st) = ∅.
Proof.
  intros Hidle. unfold stop_if_unused, stopUpdateInterval.
  destruct (Nat.eqb_spec (size (subscriptions st)) 0) as [Hz|Hnz]; simpl.
  - intros _. destruct (updateInterval st) eqn:Ht; simpl; by apply map_size_empty_iff.
  - done.
Qed.

Lemma handle_idle w e st :
  (updateInterval st = false → subscriptions st = ∅) →
  updateInterval (handle w e st).1 = false → subscriptions (handle w e st).1 = ∅.
Proof.
  intros Hidle. destruct e as [c|c data|c data|c data|c data|c|c| |k r]; simpl.
  - done.
  - unfold on_authenticate.
    destruct (get_prop "userId" data) as [userId|]; [|done].
    destruct (truthy userId); [|done]. by destruct (connections st !! c).
  - unfold on_subscribe.
    destruct (get_prop "symbols" data) as [[| | | | |symbols|]|]; try done.
    destruct (connections st !! c) as [conn|]; [|done].
    destruct (Nat.ltb _ _); [done|]. cbn [fst]. apply start_if_needed_idle.
  - unfold on_unsubscribe.
    destruct (get_prop "symbols" data) as [[| | | | |symbols|]|]; try done.
    destruct (connections st !! c) as [conn|]; [|done].
    destruct (unsubscribe_loop_timer c symbols st []) as [Ht Hs].
    cbv zeta in Ht, Hs.
    destruct (unsubscribe_loop c symbols st []) as [[st' unsub] [msg|]];
      simpl in *.
    + intros Hi. rewrite Ht in Hi. auto.
    + apply stop_if_unused_idle. intros Hi. rewrite Ht in Hi. auto.
  - by rewrite on_subscribe_watchlist_state.
  - done.
  - unfold on_disconnect. cbn [fst]. apply stop_if_unused_idle.
    destruct (connections st !! c) as [conn|]; simpl.
    + intros Hi. rewrite (Hidle Hi). apply index_remove_all_empty.
    + done.
  - destruct (on_timer_registry st) as (_ & -> & ->). done.
  - destruct (on_settle_registry k r st) as (_ & -> & ->). done.
Qed.

Lemma run_idle w events st :
  (updateInterval st = false → subscriptions st = ∅) →
  updateInterval (run_state w events st) = false →
  subscriptions (run_state w events st) = ∅.
Proof.
  revert st. induction events as [|e events IH]; intros st Hidle; [done|].
  rewrite run_state_cons. by apply IH, handle_idle.
Qed.
End IdleInvariant.

(** X5. After every sequence of events from the empty registry, whatever
    the requests carried, an idle timer means an empty index: the timer is
    never missing while some symbol is subscribed. A timer left active over
    an empty index is stopped by the next disconnect, and by the next
    unsubscribe of an open connection whose array holds strings only: after
    either, the timer is active exactly when the index is not empty. *)
Theorem timer_is_never_missing (w : World) (events : list Event) :
  let st := run_state w events initial_state in
  (updateInterval st = false → subscriptions st = ∅)
  ∧ (∀ c, timer_matches_index (on_disconnect c st).1)
  ∧ (∀ c data symbols,
       get_prop "symbols" data = Return (JArr symbols) →
       is_Some (connections st !! c) →
       forallb is_string symbols = true →
       timer_matches_index (on_unsubscribe c data st).1).
Proof.
  intros st.
  assert (Hidle : updateInterval st = false → subscriptions st = ∅).
  { apply run_idle. done. }
  clearbody st. split; [exact Hidle|]. split.
  - intros c. unfold on_disconnect. cbn [fst]. apply stop_if_unused_matches.
    destruct (connections st !! c) as [conn|]; simpl.
    + intros Hi. rewrite (Hidle Hi). apply index_remove_all_empty.
    + done.
  - intros c data symbols Hdata [conn Hc] Hall. unfold on_unsubscribe.
    rewrite Hdata, Hc.
    pose proof (unsubscribe_loop_strings c symbols st [] Hall) as Hnone.
    destruct (unsubscribe_loop_timer c symbols st []) as [Ht Hs].
    cbv zeta in Ht, Hs.
    destruct (unsubscribe_loop c symbols st []) as [[st' unsub] thrown].
    simpl in *. subst thrown. cbn [fst].
    apply stop_if_unused_matches. intros Hi. rewrite Ht in Hi. auto.
Qed.

Lemma timer_is_never_missing_witness :
  let st := run_state offline unsubscribe_with_number initial_state in
  updateInterval st = true
  ∧ subscriptions st = ∅
  ∧ timer_matches_index (on_disconnect "c1" st).1
  ∧ updateInterval (on_disconnect "c1" st).1 = false.
Proof.
  intros st.
  split; [vm_compute; reflexivity|]. split; [vm_compute; reflexivity|].
  split; [|vm_compute; reflexivity].
  exact (proj1 (proj2 (timer_is_never_missing offline unsubscribe_with_number)) "c1").
Defined.

(** ** The cap *)

Section Cap.
Implicit Types (st : State) (c : SocketId).

Lemma size_list_to_set_le (l : list string) :
  size (list_to_set l : gset string) ≤ length l.
Proof.
  induction l as [|x l IH].
  - change (size (∅ : gset string) ≤ 0). by rewrite size_empty.
  - rewrite list_to_set_cons. cbn [length].
    rewrite size_union_alt, size_singleton.
    assert (size (list_to_set l ∖ {[x]} : gset string) ≤ size (list_to_set l : gset string))
      by (apply subseteq_size; set_solver).
    lia.
Qed.

Lemma size_union_le (X Y : gset string) : size (X ∪ Y) ≤ size X + size Y.
Proof.
  rewrite size_union_alt.
  assert (size (Y ∖ X) ≤ size Y) by (apply subseteq_size; set_solver). lia.
Qed.

Lemma length_omap_accepted symbols :
  length (omap accepted_symbol symbols) ≤ length symbols.
Proof. pose proof (accepted_rejected_length symbols). lia. Qed.

Lemma handle_within_cap w e st :
  within_cap st → within_cap (handle w e st).1.
Proof.
  intros Hcap. destruct e as [c|c data|c data|c data|c data|c|c| |k r]; cbn [handle].
  - intros c'. unfold symbolsFor, on_connection, set_connections.
    cbn [fst connections].
    destruct (decide (c = c')) as [<-|Hne].
    + rewrite lookup_insert_eq. cbn [conn_subscriptions]. rewrite size_empty. lia.
    + rewrite lookup_insert_ne by done. apply Hcap.
  - unfold on_authenticate.
    destruct (get_prop "userId" data) as [userId|]; [|done].
    destruct (truthy userId); [|done].
    destruct (connections st !! c); [|done].
    intros c'. simpl. rewrite symbolsFor_authenticate. apply Hcap.
  - destruct (get_prop "symbols" data) as [[| | | | |symbols|]|] eqn:Hdata;
      try (unfold on_subscribe; rewrite Hdata; done).
    destruct (connections st !! c) as [conn|] eqn:Hc;
      [|unfold on_subscribe; by rewrite Hdata, Hc].
    destruct (Nat.lt_ge_cases MAX_SUBSCRIPTIONS_PER_CLIENT
                (size (conn_subscriptions conn) + length symbols)) as [Hlt|Hge].
    + by rewrite (subscribe_over_limit c data symbols st conn Hdata Hc Hlt).
    + intros c'. rewrite (on_subscribe_symbolsFor c data symbols st conn Hdata Hc Hge). case_decide; [|apply Hcap].
      pose proof (size_union_le (conn_subscriptions conn)
                    (list_to_set (omap accepted_symbol symbols))).
      pose proof (size_list_to_set_le (omap accepted_symbol symbols)).
      pose proof (length_omap_accepted symbols). lia.
  - unfold on_unsubscribe.
    destruct (get_prop "symbols" data) as [[| | | | |symbols|]|]; try done.
    destruct (connections st !! c) as [conn|]; [|done].
    assert (Hloop : within_cap (unsubscribe_loop c symbols st []).1.1).
    { intros c'. etrans; [|apply (Hcap c')].
      apply subseteq_size, unsubscribe_loop_symbolsFor. }
    destruct (unsubscribe_loop c symbols st []) as [[st' unsub] [msg|]]; [done|].
    simpl in *. destruct (stop_if_unused_registry st') as [Hconns _].
    intros c'. unfold symbolsFor. rewrite Hconns. apply Hloop.
  - by rewrite on_subscribe_watchlist_state.
  - done.
  - unfold on_disconnect. cbn [fst].
    match goal with |- within_cap (stop_if_unused ?x) =>
      destruct (stop_if_unused_registry x) as [Hconns _] end.
    intros c'. unfold symbolsFor. rewrite Hconns.
    unfold set_connections at 1. cbn [connections].
    assert (Heq : connections
              match connections st !! c with
              | Some connection =>
                  set_subscriptions
                    (index_remove_all c (elements (conn_subscriptions connection))) st
              | None => st
              end = connections st) by by destruct (connections st !! c).
    rewrite Heq. destruct (decide (c = c')) as [<-|Hne].
    + rewrite lookup_delete_eq, size_empty. lia.
    + rewrite lookup_delete_ne by done. apply Hcap.
  - destruct (on_timer_registry st) as (Hconns & _).
    intros c'. unfold symbolsFor. rewrite Hconns. apply Hcap.
  - destruct (on_settle_registry k r st) as (Hconns & _).
    intros c'. unfold symbolsFor. rewrite Hconns. apply Hcap.
Qed.

Lemma initial_within_cap : within_cap initial_state.
Proof.
  intros c. unfold symbolsFor. simpl. rewrite lookup_empty, size_empty. lia.
Qed.
End Cap.

Lemma run_within_cap w events st :
  within_cap st → within_cap (run_state w events st).
Proof.
  revert st. induction events as [|e events IH]; intros st Hcap; [done|].
  rewrite run_state_cons. by apply IH, handle_within_cap.
Qed.

(** X6. After every sequence of events from the empty registry no
    connection holds more than 50 symbols. *)
Theorem cap_is_never_exceeded (w : World) (events : list Event) (c : SocketId)
    (conn : Connection) :
  connections (run_state w events initial_state) !! c = Some conn →
  size (conn_subscriptions conn) ≤ MAX_SUBSCRIPTIONS_PER_CLIENT.
Proof.
  intros Hc.
  pose proof (run_within_cap w events initial_state initial_within_cap c) as Hcap.
  unfold symbolsFor in Hcap. by rewrite Hc in Hcap.
Qed.

Lemma cap_is_never_exceeded_witness :
  let events :=
    [Connect "c1";
     Subscribe "c1" (symbols_payload (ticker_range 0 30));
     Subscribe "c1" (symbols_payload (ticker_range 20 30));
     Subscribe "c1" (symbols_payload (ticker_range 20 20))] in
  ∃ conn,
    connections (run_state offline events initial_state) !! "c1" = Some conn
    ∧ size (conn_subscriptions conn) = 40
    ∧ size (conn_subscriptions conn) ≤ MAX_SUBSCRIPTIONS_PER_CLIENT.
Proof.
  intros events.
  destruct (connections (run_state offline events initial_state) !! "c1")
    as [conn|] eqn:Hc; [|vm_compute in Hc; discriminate Hc].
  exists conn. split; [reflexivity|]. split.
  - assert (conn_subscriptions conn
            = symbolsFor "c1" (run_state offline events initial_state)) as ->.
    { unfold symbolsFor. by rewrite Hc. }
    vm_compute. reflexivity.
  - exact (cap_is_never_exceeded offline events "c1" conn Hc).
Defined.

(** ** Statistics *)

Section Counting.
Context (mk : string → string → string * string).
Context (mk_inj : ∀ k v k' v', mk k v = mk k' v' → k = k' ∧ v = v').

Lemma fold_left_sizes (xs : list (gset string)) (a : nat) :
  fold_left (λ total (S : gset string), total + size S) xs a
  = a + fold_left (λ total (S : gset string), total + size S) xs 0.
Proof.
  revert a. induction xs as [|S xs IH]; intros a; simpl; [lia|].
  rewrite (IH (a + size S)), (IH (size S)). lia.
Qed.

Lemma sum_sizes_cons k S l : sum_sizes ((k, S) :: l) = size S + sum_sizes l.
Proof. unfold sum_sizes. simpl. apply fold_left_sizes. Qed.

Lemma elem_of_pairs_of l p :
  p ∈ pairs_with mk l ↔ ∃ k S v, (k, S) ∈ l ∧ v ∈ S ∧ p = mk k v.
Proof.
  unfold pairs_with. rewrite elem_of_union_list. split.
  - intros (X & HX & Hp). apply list_elem_of_In, in_map_iff in HX as ([k S] & <- & Hin).
    apply elem_of_map in Hp as (v & -> & Hv).
    exists k, S, v. by rewrite list_elem_of_In.
  - intros (k & S & v & Hin & Hv & ->). exists (set_map (mk k) S). split.
    + apply list_elem_of_In, in_map_iff. exists (k, S). by rewrite <- list_elem_of_In.
    + apply elem_of_map. by exists v.
Qed.

Lemma size_set_map_mk k (S : gset string) :
  size (set_map (mk k) S : gset (string * string)) = size S.
Proof.
  induction S as [|v S Hv IH] using set_ind_L.
  - by rewrite set_map_empty, !size_empty.
  - rewrite set_map_union_L, set_map_singleton_L.
    rewrite !size_union, !size_singleton, IH; [done|set_solver|].
    intros p Hp1 Hp2. apply elem_of_singleton in Hp1 as ->.
    apply elem_of_map in Hp2 as (v' & Heq & Hv').
    apply mk_inj in Heq as [_ ->]. done.
Qed.

Lemma size_pairs_of l :
  NoDup (l.*1) → size (pairs_with mk l) = sum_sizes l.
Proof.
  induction l as [|[k S] l IH]; intros Hnd.
  - change (size (∅ : gset (string * string)) = 0). apply size_empty.
  - apply NoDup_cons in Hnd as [Hk Hnd]. rewrite sum_sizes_cons, <- IH by done.
    change (pairs_with mk ((k, S) :: l))
      with ((set_map (mk k) S : gset (string * string)) ∪ pairs_with mk l).
    rewrite size_union, size_set_map_mk; [done|].
    intros p Hp1 Hp2. apply elem_of_map in Hp1 as (v & -> & Hv).
    apply elem_of_pairs_of in Hp2 as (k' & S' & v' & Hin & _ & Heq).
    apply mk_inj in Heq as [-> _]. apply Hk.
    apply list_elem_of_fmap. by exists (k', S').
Qed.

Lemma sum_sizes_ge l :
  (∀ k S, (k, S) ∈ l → S ≠ ∅) → length l ≤ sum_sizes l.
Proof.
  induction l as [|[k S] l IH]; intros Hne; [done|].
  rewrite sum_sizes_cons. simpl.
  assert (size S ≠ 0).
  { intros Hz. apply size_empty_inv, leibniz_equiv in Hz.
    by apply (Hne k S); [left|]. }
  assert (length l ≤ sum_sizes l) by (apply IH; intros ???; eapply Hne; by right).
  lia.
Qed.

Lemma sum_sizes_le (n : nat) l :
  (∀ k S, (k, S) ∈ l → size S ≤ n) → sum_sizes l ≤ n * length l.
Proof.
  induction l as [|[k S] l IH]; intros Hle.
  - unfold sum_sizes. simpl. lia.
  - rewrite sum_sizes_cons. simpl.
    assert (size S ≤ n) by (apply (Hle k S); by left).
    assert (sum_sizes l ≤ n * length l) by (apply IH; intros ???; eapply Hle; by right).
    lia.
Qed.
End Counting.

Section Stats.
Implicit Types (st : State).

Lemma held_total_sum st :
  held_total st = sum_sizes (map_to_list (conn_subscriptions <$> connections st)).
Proof.
  unfold held_total, sum_sizes. rewrite map_to_list_fmap.
  generalize 0. induction (map_to_list (connections st)) as [|[c conn] l IH];
    intros a; [done|]. simpl. apply IH.
Qed.

Lemma index_pairs st p :
  p ∈ pairs_with (λ s c, (s, c)) (map_to_list (subscriptions st))
  ↔ p.2 ∈ connectionsFor p.1 st.
Proof.
  rewrite elem_of_pairs_of. unfold connectionsFor. split.
  - intros (s & clients & c & Hin & Hc & ->). apply elem_of_map_to_list in Hin.
    simpl. by rewrite Hin.
  - destruct p as [s c]. simpl. intros Hc.
    destruct (subscriptions st !! s) as [clients|] eqn:Hs; [|set_solver].
    exists s, clients, c. by rewrite elem_of_map_to_list.
Qed.

Lemma connection_pairs st p :
  p ∈ pairs_with (λ c s, (s, c)) (map_to_list (conn_subscriptions <$> connections st))
  ↔ p.1 ∈ symbolsFor p.2 st.
Proof.
  rewrite elem_of_pairs_of. unfold symbolsFor. split.
  - intros (c & subs & s & Hin & Hs & ->). apply elem_of_map_to_list in Hin.
    rewrite lookup_fmap in Hin. simpl.
    destruct (connections st !! c) as [conn|]; simpl in *; [|done].
    by injection Hin as <-.
  - destruct p as [s c]. simpl. intros Hs.
    destruct (connections st !! c) as [conn|] eqn:Hc; [|set_solver].
    exists c, (conn_subscriptions conn), s. rewrite elem_of_map_to_list, lookup_fmap, Hc.
    done.
Qed.

Lemma total_clients_held st :
  registry_inv st → total_clients (subscriptions st) = held_total st.
Proof.
  intros [_ Hrel]. rewrite held_total_sum.
  change (total_clients (subscriptions st))
    with (sum_sizes (map_to_list (subscriptions st))).
  rewrite <- (size_pairs_of (λ s c, (s, c))), <- (size_pairs_of (λ c s, (s, c))).
  - f_equal. apply set_eq. intros p. rewrite index_pairs, connection_pairs.
    symmetry. apply Hrel.
  - intros ???? [= -> ->]. done.
  - apply NoDup_fst_map_to_list.
  - intros ???? [= -> ->]. done.
  - apply NoDup_fst_map_to_list.
Qed.
End Stats.

(** X7. In every state the engine can reach, the total that
    [getWebSocketStats] computes from the index equals the number of symbols
    held, summed over the open connections: each subscription is counted
    once. The number of unique symbols is at most that total, and the total
    is at most 50 times the number of open connections. *)
Theorem stats_count_each_subscription_once (w : World) (events : list Event) :
  fresh_connects w events initial_state = true →
  let st := run_state w events initial_state in
  let stats := getWebSocketStats st in
  totalSubscriptions stats = held_total st
  ∧ uniqueSymbols stats ≤ totalSubscriptions stats
  ∧ totalSubscriptions stats ≤ MAX_SUBSCRIPTIONS_PER_CLIENT * activeConnections stats.
Proof.
  intros Hfresh st stats.
  assert (Hinv : registry_inv st) by exact (run_inv w events _ Hfresh initial_inv).
  assert (Hcap : within_cap st)
    by exact (run_within_cap w events _ initial_within_cap).
  clearbody st. subst stats. unfold getWebSocketStats.
  cbn [totalSubscriptions uniqueSymbols activeConnections].
  split; [by apply total_clients_held|]. split.
  - change (total_clients (subscriptions st))
      with (sum_sizes (map_to_list (subscriptions st))).
    rewrite <- length_map_to_list. apply sum_sizes_ge.
    intros s clients Hin. apply elem_of_map_to_list in Hin. by apply (proj1 Hinv s).
  - rewrite total_clients_held, held_total_sum by done.
    rewrite <- (map_size_fmap conn_subscriptions), <- length_map_to_list.
    apply sum_sizes_le. intros c subs Hin. apply elem_of_map_to_list in Hin.
    rewrite lookup_fmap in Hin. specialize (Hcap c). unfold symbolsFor in Hcap.
    destruct (connections st !! c) as [conn|]; simpl in *; [|done].
    by injection Hin as <-.
Qed.

Lemma stats_count_each_subscription_once_witness :
  let events :=
    [Connect "c1"; Connect "c2"; Connect "c3";
     Subscribe "c1" (symbols_payload [JStr "AAPL"; JStr "MSFT"]);
     Subscribe "c2" (symbols_payload [JStr "AAPL"])] in
  let stats := getWebSocketStats (run_state offline events initial_state) in
  fresh_connects offline events initial_state = true
  ∧ activeConnections stats = 3
  ∧ uniqueSymbols stats = 2
  ∧ totalSubscriptions stats = 3
  ∧ totalSubscriptions stats = held_total (run_state offline events initial_state).
Proof.
  intros events stats.
  assert (Hfresh : fresh_connects offline events initial_state = true)
    by (vm_compute; reflexivity).
  split; [exact Hfresh|]. split; [vm_compute; reflexivity|].
  split; [vm_compute; reflexivity|]. split; [vm_compute; reflexivity|].
  exact (proj1 (stats_count_each_subscription_once offline events Hfresh)).
Defined.

(** ** The canonical form of a symbol *)

Section Canonical.

Lemma ascii_toUpperCase_idem a :
  ascii_toUpperCase (ascii_toUpperCase a) = ascii_toUpperCase a.
Proof. destruct a as [[] [] [] [] [] [] [] []]; reflexivity. Qed.

Lemma is_whitespace_toUpperCase a :
  is_whitespace (ascii_toUpperCase a) = is_whitespace a.
Proof. destruct a as [[] [] [] [] [] [] [] []]; reflexivity. Qed.

Lemma toUpperCase_idem s : toUpperCase (toUpperCase s) = toUpperCase s.
Proof. induction s as [|a s IH]; simpl; [done|]. by rewrite ascii_toUpperCase_idem, IH. Qed.

Lemma toUpperCase_empty s : toUpperCase s = EmptyString ↔ s = EmptyString.
Proof. by destruct s. Qed.

Lemma trimStart_toUpperCase s : trimStart (toUpperCase s) = toUpperCase (trimStart s).
Proof.
  induction s as [|a s IH]; simpl; [done|].
  rewrite is_whitespace_toUpperCase. by destruct (is_whitespace a).
Qed.

Lemma trimEnd_toUpperCase s : trimEnd (toUpperCase s) = toUpperCase (trimEnd s).
Proof.
  induction s as [|a s IH]; simpl; [done|].
  rewrite IH, is_whitespace_toUpperCase.
  destruct (trimEnd s) as [|b t]; simpl; [|done].
  by destruct (is_whitespace a).
Qed.

Lemma trim_toUpperCase s : trim (toUpperCase s) = toUpperCase (trim s).
Proof. unfold trim. by rewrite trimStart_toUpperCase, trimEnd_toUpperCase. Qed.

Lemma trimEnd_idem s : trimEnd (trimEnd s) = trimEnd s.
Proof.
  induction s as [|a s IH]; simpl; [done|].
  destruct (trimEnd s) as [|b t] eqn:Ht.
  - destruct (is_whitespace a) eqn:Ha; simpl; [done|]. by rewrite Ha.
  - change (trimEnd (String a (String b t))
            = String a (String b t)).
    cbn [trimEnd]. cbn [trimEnd] in IH. by rewrite IH.
Qed.

Lemma trimStart_starts_clean s : starts_clean (trimStart s) = true.
Proof.
  induction s as [|a s IH]; simpl; [done|].
  destruct (is_whitespace a) eqn:Ha; [done|]. simpl. by rewrite Ha.
Qed.

Lemma trimStart_clean s : starts_clean s = true → trimStart s = s.
Proof. destruct s as [|a s]; simpl; [done|]. by destruct (is_whitespace a). Qed.

Lemma trimEnd_starts_clean s : starts_clean s = true → starts_clean (trimEnd s) = true.
Proof.
  destruct s as [|a s]; simpl; [done|]. intros Ha.
  destruct (trimEnd s); simpl; [|done].
  destruct (is_whitespace a) eqn:Hw; [done|]. simpl. by rewrite Hw.
Qed.

Lemma trim_idem s : trim (trim s) = trim s.
Proof.
  unfold trim.
  rewrite (trimStart_clean (trimEnd (trimStart s))).
  - apply trimEnd_idem.
  - apply trimEnd_starts_clean, trimStart_starts_clean.
Qed.
Lemma ascii_toUpperCase_ascii a :
  Nat.ltb (nat_of_ascii (ascii_toUpperCase a)) 128 = Nat.ltb (nat_of_ascii a) 128.
Proof. destruct a as [[] [] [] [] [] [] [] []]; reflexivity. Qed.

Lemma is_ascii_toUpperCase s : is_ascii (toUpperCase s) = is_ascii s.
Proof.
  induction s as [|a s IH]; [done|]. cbn [toUpperCase is_ascii].
  by rewrite ascii_toUpperCase_ascii, IH.
Qed.

Lemma is_ascii_trimStart s : is_ascii s = true → is_ascii (trimStart s) = true.
Proof.
  induction s as [|a s IH]; [done|]. cbn [trimStart]. intros Hs.
  destruct (is_whitespace a); [|exact Hs].
  cbn [is_ascii] in Hs. apply andb_true_iff in Hs as [_ Hs]. by apply IH.
Qed.

Lemma is_ascii_trimEnd s : is_ascii s = true → is_ascii (trimEnd s) = true.
Proof.
  induction s as [|a s IH]; [done|]. cbn [trimEnd is_ascii]. intros Hs.
  apply andb_true_iff in Hs as [Ha Hs]. specialize (IH Hs).
  destruct (trimEnd s) as [|b t].
  - destruct (is_whitespace a); [done|]. cbn [is_ascii]. by rewrite Ha.
  - change (is_ascii (String a (String b t))) with
      (Nat.ltb (nat_of_ascii a) 128 && is_ascii (String b t)).
    by rewrite Ha, IH.
Qed.

Lemma is_ascii_trim s : is_ascii s = true → is_ascii (trim s) = true.
Proof. intros Hs. by apply is_ascii_trimEnd, is_ascii_trimStart. Qed.
End Canonical.

(** X8. The registry, the snapshot and the provider use one key. Let a
    subscribe request carry an ASCII string and let the handler accept the
    symbol [s] for it. Then [s] is the trimmed, upper-cased request string
    whichever of the two is done first, it is an ASCII string again, and
    every cleaning in the code returns it unchanged: [toUpperCase().trim()]
    of the subscribe and unsubscribe handlers, [toUpperCase()] of the
    database lookup in [sendInitialStockData], and [trim().toUpperCase()] of
    [getStockPrice]. *)
Theorem canonical_symbol_is_stable (raw s : string) :
  is_ascii raw = true →
  accepted_symbol (JStr raw) = Some s →
  s = trim (toUpperCase raw)
  ∧ s = toUpperCase (trim raw)
  ∧ s ≠ ""
  ∧ is_ascii s = true
  ∧ cleanSymbol (JStr s) = Return s
  ∧ accepted_symbol (JStr s) = Some s
  ∧ toUpperCase s = s
  ∧ toUpperCase (trim s) = s.
Proof.
  intros Hraw Hacc. unfold accepted_symbol, cleanSymbol in Hacc.
  cbn [js_toUpperCase] in Hacc.
  destruct (String.eqb_spec (trim (toUpperCase raw)) "") as [|Hne]; [discriminate|].
  injection Hacc as <-.
  assert (Hup : toUpperCase (trim (toUpperCase raw)) = trim (toUpperCase raw)).
  { by rewrite <- trim_toUpperCase, toUpperCase_idem. }
  assert (Hclean : cleanSymbol (JStr (trim (toUpperCase raw)))
                   = Return (trim (toUpperCase raw))).
  { unfold cleanSymbol. cbn [js_toUpperCase].
    by rewrite <- !trim_toUpperCase, toUpperCase_idem, trim_idem. }
  split; [done|]. split; [by rewrite trim_toUpperCase|]. split; [done|].
  split; [by apply is_ascii_trim; rewrite is_ascii_toUpperCase|].
  split; [exact Hclean|]. split.
  - unfold accepted_symbol. rewrite Hclean.
    by destruct (String.eqb_spec (trim (toUpperCase raw)) "").
  - split; [exact Hup|]. by rewrite trim_idem.
Qed.

Lemma canonical_symbol_is_stable_witness :
  is_ascii " aapl " = true
  ∧ accepted_symbol (JStr " aapl ") = Some "AAPL"
  ∧ cleanSymbol (JStr "AAPL") = Return "AAPL"
  ∧ toUpperCase (trim "AAPL") = "AAPL".
Proof.
  assert (Hraw : is_ascii " aapl " = true) by reflexivity.
  assert (Hacc : accepted_symbol (JStr " aapl ") = Some "AAPL") by reflexivity.
  destruct (canonical_symbol_is_stable " aapl " "AAPL" Hraw Hacc)
    as (_ & _ & _ & _ & Hclean & _ & _ & Htrim).
  split; [exact Hraw|]. split; [exact Hacc|]. split; [exact Hclean|exact Htrim].
Defined.

(** ** Single quotes: provider fallback *)

(** X9. [getStockPrice] asks IEX first and Alpha Vantage only after IEX
    failed, each at most once and each for the trimmed, upper-cased symbol.
    It returns the quote of the first provider that answers; when both fail
    it throws a message that names the cleaned symbol and carries the reason
    of Alpha Vantage only. A symbol that is not a non-empty string is refused
    before any request is made. *)
Theorem getStockPrice_falls_back (sv : Services) (symbol : JsVal) :
  (∀ s, symbol = JStr s → s ≠ "" →
     let clean := toUpperCase (trim s) in
     let iex := getStockPriceFromIEX sv clean in
     let av := getStockPriceFromAlphaVantage sv clean in
     match iex.2, av.2 with
     | Return stock, _ => getStockPrice sv symbol = (iex.1, Return stock)
     | Throw _, Return stock => getStockPrice sv symbol = (iex.1 ++ av.1, Return stock)
     | Throw _, Throw reason =>
         getStockPrice sv symbol
         = (iex.1 ++ av.1,
            Throw ("Unable to fetch stock data for " +:+ clean +:+ ": " +:+ reason))
     end
     ∧ length iex.1 ≤ 1 ∧ length av.1 ≤ 1
     ∧ (∀ url, In url iex.1 → ∃ key, url = iex_quote_url clean key)
     ∧ (∀ url, In url av.1 → ∃ key, url = av_quote_url clean key))
  ∧ ((∀ s, symbol = JStr s → s = "") →
     getStockPrice sv symbol = ([], Throw "Valid stock symbol is required")).
Proof.
  split.
  - intros s -> Hne clean iex av. subst clean iex av.
    unfold getStockPrice.
    destruct (String.eqb_spec s "") as [->|_]; [done|].
    split; [|split; [|split; [|split]]].
    + destruct (getStockPriceFromIEX sv _) as [calls [stock|msg]]; [done|].
      by destruct (getStockPriceFromAlphaVantage sv _) as [calls' [stock|msg']].
    + unfold getStockPriceFromIEX. destruct (getIEXApiKey _); [|simpl; lia].
      destruct (axios_get _ _) as [data|]; [|simpl; lia].
      destruct (truthy data); [|simpl; lia]. destruct (formatStockData data); simpl; lia.
    + unfold getStockPriceFromAlphaVantage.
      destruct (getAlphaVantageApiKey _); [|simpl; lia].
      destruct (axios_get _ _); simpl; lia.
    + intros url. unfold getStockPriceFromIEX.
      destruct (getIEXApiKey _) as [key|]; [|done].
      destruct (axios_get _ _) as [data|].
      * destruct (truthy data); [destruct (formatStockData data)|];
          intros [<-|[]]; by exists key.
      * intros [<-|[]]; by exists key.
    + intros url. unfold getStockPriceFromAlphaVantage.
      destruct (getAlphaVantageApiKey _) as [key|]; [|done].
      destruct (axios_get _ _); intros [<-|[]]; by exists key.
  - intros Hbad. destruct symbol; try done. simpl. by rewrite (Hbad s eq_refl).
Qed.

Lemma getStockPrice_falls_back_witness :
  getStockPrice alphavantage_only (JStr " aapl ")
  = ([av_quote_url "AAPL" "demo"],
     Return (mkStock (Some "AAPL")
               (JObj [("01. symbol", JStr "aapl"); ("10. change percent", JStr "1.2%")]))).
Proof.
  pose proof (proj1 (getStockPrice_falls_back alphavantage_only (JStr " aapl "))
                " aapl " eq_refl) as Hthm.
  assert (Hne : " aapl " ≠ "") by discriminate.
  destruct (Hthm Hne) as [Hres _]. clear Hthm.
  vm_compute in Hres. vm_compute. exact Hres.
Defined.

(** ** The snapshot *)

Section Snapshot.
Implicit Types (sv : Services).






End Snapshot.



(** ** Every requested symbol is answered once *)

Section BatchAccounting.
Implicit Types (w : World).

Lemma map_toUpperCase_strings items ups :
  map_toUpperCase items = Return ups → forallb is_string items = true.
Proof.
  revert ups. induction items as [|v items IH]; intros ups; [done|].
  cbn [map_toUpperCase forallb].
  destruct v; try discriminate. cbn [js_toUpperCase is_string andb].
  destruct (map_toUpperCase items) as [ups'|]; [|discriminate].
  intros _. by eapply IH.
Qed.

Lemma collect_fold_accounts data items acc :
  forallb is_string items = true →
  let r := fold_left (collect_symbol data) items acc in
  length r.1 + length r.2 = length acc.1 + length acc.2 + length items
  ∧ (∀ e, In e r.2 → In e acc.2 ∨ In (err_symbol e) items).
Proof.
  revert acc. induction items as [|v items IH]; intros acc Hall; cbv zeta.
  - cbn [fold_left length]. split; [lia|auto].
  - cbn [forallb] in Hall. apply andb_true_iff in Hall as [Hv Hall].
    cbn [fold_left]. destruct (IH (collect_symbol data acc v) Hall) as [IHl IHe].
    cbv zeta in IHl, IHe.
    assert (Hstep :
      length (collect_symbol data acc v).1 + length (collect_symbol data acc v).2
      = length acc.1 + length acc.2 + 1
      ∧ (∀ e, In e (collect_symbol data acc v).2 → In e acc.2 ∨ err_symbol e = v)).
    { destruct v; try discriminate Hv. unfold collect_symbol. cbn [js_toUpperCase].
      destruct (_ && _).
      - destruct (formatStockData _); cbn [fst snd]; rewrite length_app; simpl.
        + split; [lia|auto].
        + split; [lia|]. intros e He. apply in_app_iff in He as [?|[<-|[]]]; auto.
      - cbn [fst snd]. rewrite length_app. simpl.
        split; [lia|]. intros e He. apply in_app_iff in He as [?|[<-|[]]]; auto. }
    destruct Hstep as [Hl He]. split; [cbn [length]; lia|].
    intros e Hin. destruct (IHe e Hin) as [Hacc|Hitems].
    + destruct (He e Hacc) as [?|<-]; [by left|]. right. by left.
    + right. by right.
Qed.
End BatchAccounting.

(** A returned batch has one answer per element of the array. *)
Lemma getMultipleStockPrices_counts
    (w : World) (symbols : JsVal) (stocks : list Stock) (errors : list SymError) :
  getMultipleStockPrices w symbols = Return (stocks, errors) →
  ∃ items,
    symbols = JArr items
    ∧ forallb is_string items = true
    ∧ length stocks + length errors = length items
    ∧ (∀ e, In e errors → In (err_symbol e) items).
Proof.
  unfold getMultipleStockPrices, validate_symbols.
  destruct symbols as [| | | | |items|]; try discriminate.
  destruct (length items =? 0); [discriminate|].
  destruct (100 <? length items); [discriminate|].
  destruct (getIEXApiKey w) as [apiKey|]; [|discriminate].
  destruct (map_toUpperCase items) as [ups|] eqn:Hups; [|discriminate].
  destruct (axios_get w _) as [data|]; [|discriminate].
  destruct (truthy data); [|discriminate].
  intros Hret. pose proof (map_toUpperCase_strings items ups Hups) as Hstr.
  destruct (collect_fold_accounts data items ([], []) Hstr) as [Hlen Herr].
  cbv zeta in Hlen, Herr. injection Hret as Hret. rewrite Hret in Hlen, Herr.
  cbn [fst snd length] in Hlen, Herr.
  exists items. split; [done|]. split; [done|]. split; [lia|].
  intros e He. by destruct (Herr e He).
Qed.

Lemma getMultipleStockPrices_bounds
    (w : World) (items : list JsVal) (r : list Stock * list SymError) :
  getMultipleStockPrices w (JArr items) = Return r → 0 < length items ≤ 100.
Proof.
  unfold getMultipleStockPrices, validate_symbols.
  destruct (Nat.eqb_spec (length items) 0) as [Hz|Hnz]; [discriminate|].
  destruct (Nat.ltb_spec 100 (length items)) as [Hbig|Hle]; [discriminate|].
  intros _. lia.
Qed.

(** X11. When [getMultipleStockPrices] returns, its argument was an array
    of 1 to 100 strings, and every element is answered exactly once, by a
    quote or by an error that carries the element: the numbers of quotes and
    errors add up to the length of the array. *)
Theorem getMultipleStockPrices_answers_every_symbol
    (w : World) (symbols : JsVal) (stocks : list Stock) (errors : list SymError) :
  getMultipleStockPrices w symbols = Return (stocks, errors) →
  ∃ items,
    symbols = JArr items
    ∧ 0 < length items ≤ 100
    ∧ forallb is_string items = true
    ∧ length stocks + length errors = length items
    ∧ (∀ e, In e errors → In (err_symbol e) items).
Proof.
  intros Hret.
  destruct (getMultipleStockPrices_counts w symbols stocks errors Hret)
    as (items & -> & Hstr & Hlen & Herr).
  exists items. split; [done|].
  split; [exact (getMultipleStockPrices_bounds w items _ Hret)|].
  split; [exact Hstr|]. split; [exact Hlen|exact Herr].
Qed.

Lemma getMultipleStockPrices_answers_every_symbol_witness :
  ∃ stocks errors,
    getMultipleStockPrices good_only (JArr [JStr "good"; JStr "bad"])
    = Return (stocks, errors)
    ∧ length stocks + length errors = 2.
Proof.
  destruct (getMultipleStockPrices good_only (JArr [JStr "good"; JStr "bad"]))
    as [[stocks errors]|] eqn:Hret; [|vm_compute in Hret; discriminate Hret].
  exists stocks, errors. split; [reflexivity|].
  destruct (getMultipleStockPrices_answers_every_symbol good_only _ stocks errors Hret)
    as (items & [= <-] & _ & _ & Hlen & _).
  exact Hlen.
Defined.

Section CycleAccounting.
Implicit Types (w : World).

Lemma batch_accounts w (batch : list string) :
  length (batch_updates w batch) + length (batch_errors w batch) = length batch
  ∧ (∀ e, In e (batch_errors w batch) → ∃ s, In s batch ∧ err_symbol e = JStr s).
Proof.
  unfold batch_updates, batch_errors.
  destruct (getMultipleStockPrices w (batch_arg batch)) as [[stocks errors]|msg] eqn:Hret.
  - destruct (getMultipleStockPrices_counts w _ stocks errors Hret)
      as (items & [= <-] & _ & Hlen & Herr).
    rewrite length_map in Hlen. split; [done|].
    intros e He. apply Herr, in_map_iff in He as (s & <- & Hs). by exists s.
  - rewrite length_map. split; [done|].
    intros e He. apply in_map_iff in He as (s & <- & Hs). by exists s.
Qed.

Lemma batches_account w (batches : list (list string)) :
  length (flat_map (batch_updates w) batches) + length (flat_map (batch_errors w) batches)
  = length (concat batches).
Proof.
  induction batches as [|b batches IH]; [done|]. simpl.
  rewrite !length_app. pose proof (proj1 (batch_accounts w b)). lia.
Qed.
End CycleAccounting.

(** X12. One refresh cycle answers every subscribed symbol exactly once:
    when the batch loop is over, the quotes and the errors it gathered add
    up to the number of keys of the index, and every error carries a
    subscribed symbol. *)
Theorem cycle_answers_every_subscribed_symbol (w : World) (st : State) :
  subscriptions st ≠ ∅ →
  ∃ cy calls,
    fetch_loop (S (length (subscribed_keys st))) w (new_cycle st) = Some (cy, calls)
    ∧ length (cy_allUpdates cy) + length (cy_allErrors cy) = size (subscriptions st)
    ∧ (∀ e, In e (cy_allErrors cy) →
         ∃ s, err_symbol e = JStr s ∧ s ∈ allSubscribedSymbols st).
Proof.
  intros Hne.
  destruct (fetch_loop_spec w (S (length (subscribed_keys st))) (new_cycle st))
    as (batches & cy & Hloop & Hcat & _ & Hup & Herr); [simpl; lia|].
  change (concat batches = subscribed_keys st) in Hcat.
  change (cy_allUpdates cy = [] ++ flat_map (batch_updates w) batches) in Hup.
  change (cy_allErrors cy = [] ++ flat_map (batch_errors w) batches) in Herr.
  rewrite app_nil_l in Hup, Herr.
  exists cy, (map call_for batches).
  split; [done|]. rewrite Hup, Herr. split.
  - rewrite batches_account, Hcat. unfold subscribed_keys.
    by rewrite <- size_dom.
  - intros e He. apply in_flat_map in He as (b & Hb & He).
    destruct (proj2 (batch_accounts w b) e He) as (s & Hs & Hsym).
    exists s. split; [done|]. unfold allSubscribedSymbols.
    apply elem_of_elements. fold (subscribed_keys st). rewrite <- Hcat.
    apply list_elem_of_In, in_concat. by exists b.
Qed.

Lemma cycle_answers_every_subscribed_symbol_witness :
  subscriptions crowded ≠ ∅
  ∧ ∃ cy calls,
      fetch_loop (S (length (subscribed_keys crowded))) offline (new_cycle crowded)
      = Some (cy, calls)
      ∧ length (cy_allUpdates cy) + length (cy_allErrors cy) = size (subscriptions crowded).
Proof.
  assert (Hne : subscriptions crowded ≠ ∅).
  { intros He. apply (f_equal size) in He. vm_compute in He. discriminate He. }
  split; [exact Hne|].
  destruct (cycle_answers_every_subscribed_symbol offline crowded Hne)
    as (cy & calls & Hloop & Hlen & _).
  exists cy, calls. split; [exact Hloop|exact Hlen].
Defined.

(** ** The forced update *)

Section Forced.
Implicit Types (w : World) (st : State).

Lemma force_loop_spec w st stocks :
  (force_loop w st stocks).1 = flat_map (push_update st true) (stored_prefix w stocks)
  ∧ ((force_loop w st stocks).2 = None ↔ stored_prefix w stocks = stocks).
Proof.
  induction stocks as [|stock stocks [IHe IHt]]; [done|].
  cbn [force_loop stored_prefix].
  destruct (db_findOneAndUpdate w stock); [|by split].
  destruct (force_loop w st stocks) as [effects thrown]. cbn [fst snd] in *.
  rewrite IHe. split; [done|]. rewrite IHt. split; [by intros ->|by intros [= ->]].
Qed.
End Forced.

(** X13. A forced update tells the clients about quotes only. Each quote
    that was stored is pushed, marked as forced, to the connected clients in
    the index entry of its symbol, in the order the provider returned them;
    the first quote the database refuses ends the update with that
    exception, the quotes before it having been pushed and the later ones
    not. The per-symbol errors of the provider are returned to the caller and
    never sent to a client. *)
Theorem forced_update_pushes_stored_quotes
    (w : World) (st : State) (symbols : JsVal) :
  let r := forceStockUpdate w st symbols in
  (∀ c v msg, ¬ In (Emit c (stock_error v msg)) r.1)
  ∧ (∀ stocks errors,
       getMultipleStockPrices w symbols = Return (stocks, errors) →
       r.1 = Call_getMultipleStockPrices symbols
             :: flat_map (push_update st true) (stored_prefix w stocks)
       ∧ (stored_prefix w stocks = stocks ↔ r.2 = Return (stocks, errors)))
  ∧ (∀ c m, In (Emit c m) r.1 →
       ∃ stock s, m = stock_update (Some s) stock true
                  ∧ stock_symbol stock = Some s
                  ∧ c ∈ connectionsFor s st ∧ is_connected st c = true).
Proof.
  intros r. subst r.
  assert (Hemit : ∀ c m stocks,
    In (Emit c m) (flat_map (push_update st true) stocks) →
    ∃ stock s, m = stock_update (Some s) stock true
               ∧ stock_symbol stock = Some s
               ∧ c ∈ connectionsFor s st ∧ is_connected st c = true).
  { intros c m stocks Hin. apply in_flat_map in Hin as (stock & _ & Hin).
    apply in_push_update in Hin as (-> & s & Hs & Hc).
    exists stock, s. by rewrite Hs. }
  assert (Hshape : ∀ stocks errors,
    getMultipleStockPrices w symbols = Return (stocks, errors) →
    (forceStockUpdate w st symbols).1
    = Call_getMultipleStockPrices symbols
      :: flat_map (push_update st true) (stored_prefix w stocks)
    ∧ (stored_prefix w stocks = stocks
       ↔ (forceStockUpdate w st symbols).2 = Return (stocks, errors))).
  { intros stocks errors Hret. unfold forceStockUpdate.
    destruct symbols as [| | | | |items|]; try discriminate Hret.
    rewrite Hret. destruct (force_loop_spec w st stocks) as [He Ht].
    destruct (force_loop w st stocks) as [effects [msg|]]; cbn [fst snd] in *.
    - rewrite He. split; [done|]. split; [|done]. intros Hall. by apply Ht in Hall.
    - rewrite He. split; [done|]. split; [done|]. intros _. by apply Ht. }
  assert (Hall : ∀ c m, In (Emit c m) (forceStockUpdate w st symbols).1 →
    ∃ stock s, m = stock_update (Some s) stock true
               ∧ stock_symbol stock = Some s
               ∧ c ∈ connectionsFor s st ∧ is_connected st c = true).
  { intros c m Hin.
    destruct (getMultipleStockPrices w symbols) as [[stocks errors]|msg] eqn:Hret.
    - destruct (Hshape stocks errors eq_refl) as [Heff _]. rewrite Heff in Hin.
      destruct Hin as [Heq|Hin]; [discriminate Heq|]. by eapply Hemit.
    - revert Hin. unfold forceStockUpdate.
      destruct symbols as [| | | | |items|]; try (by intros []).
      rewrite Hret. by intros [Heq|[]]. }
  split; [|split; [exact Hshape|exact Hall]].
  intros c v msg Hin. by destruct (Hall c _ Hin) as (stock & s & Heq & _).
Qed.

Lemma forced_update_pushes_stored_quotes_witness :
  getMultipleStockPrices picky_store (JArr [JStr "good"; JStr "bad"])
  = Return ([good_stock;
             mkStock (Some "BAD") (JObj [("symbol", JStr "BAD"); ("latestPrice", JNum 100)])],
            [])
  ∧ (forceStockUpdate picky_store three_clients (JArr [JStr "good"; JStr "bad"])).1
    = Call_getMultipleStockPrices (JArr [JStr "good"; JStr "bad"])
      :: flat_map (push_update three_clients true) [good_stock]
  ∧ (forceStockUpdate picky_store three_clients (JArr [JStr "good"; JStr "bad"])).2
    = Throw "Stock validation failed".
Proof.
  assert (Hret : getMultipleStockPrices picky_store (JArr [JStr "good"; JStr "bad"])
    = Return ([good_stock;
               mkStock (Some "BAD")
                 (JObj [("symbol", JStr "BAD"); ("latestPrice", JNum 100)])],
              [])) by (vm_compute; reflexivity).
  split; [exact Hret|]. split.
  - exact (proj1 (proj1 (proj2 (forced_update_pushes_stored_quotes picky_store
                                  three_clients (JArr [JStr "good"; JStr "bad"])))
                    _ _ Hret)).
  - vm_compute. reflexivity.
Defined.

(** ** API utilities *)

Section Utilities.

Lemma symbol_format_nonempty t : symbol_format t = true → t ≠ "".
Proof. by destruct t. Qed.

Lemma upper_letter_not_whitespace a : is_upper_letter a = true → is_whitespace a = false.
Proof. destruct a as [[] [] [] [] [] [] [] []]; by vm_compute. Qed.

Lemma retry_from_first_success {A : Type} (fn : nat → Completion A) baseDelay i r k a :
  k ≤ r →
  (∀ j, j < k → ∃ e, fn (i + j) = Throw e) →
  fn (i + k) = Return a →
  retry_from fn baseDelay i r
  = (map (λ j, baseDelay * 2 ^ (i + j)) (seq 0 k), Return a).
Proof.
  revert i r. induction k as [|k IH]; intros i r Hk Hfail Hok.
  - rewrite Nat.add_0_r in Hok. destruct r; simpl; by rewrite Hok.
  - destruct r as [|r]; [lia|]. cbn [retry_from].
    destruct (Hfail 0) as [e He]; [lia|]. rewrite Nat.add_0_r in He. rewrite He.
    rewrite (IH (S i) r).
    + cbn [seq map]. rewrite Nat.add_0_r. f_equal. f_equal.
      rewrite <- seq_shift, map_map. apply map_ext. intros j. f_equal. f_equal. lia.
    + lia.
    + intros j Hj. destruct (Hfail (S j)) as [e' He']; [lia|].
      exists e'. by rewrite <- He', Nat.add_succ_comm.
    + by rewrite Nat.add_succ_comm.
Qed.

Lemma retry_from_all_fail {A : Type} (fn : nat → Completion A) baseDelay i r e :
  (∀ j, j < r → ∃ e', fn (i + j) = Throw e') →
  fn (i + r) = Throw e →
  retry_from fn baseDelay i r
  = (map (λ j, baseDelay * 2 ^ (i + j)) (seq 0 r), Throw e).
Proof.
  revert i. induction r as [|r IH]; intros i Hfail Hlast.
  - rewrite Nat.add_0_r in Hlast. simpl. by rewrite Hlast.
  - cbn [retry_from].
    destruct (Hfail 0) as [e0 He]; [lia|]. rewrite Nat.add_0_r in He. rewrite He.
    rewrite (IH (S i)).
    + cbn [seq map]. rewrite Nat.add_0_r. f_equal. f_equal.
      rewrite <- seq_shift, map_map. apply map_ext. intros j. f_equal. f_equal. lia.
    + intros j Hj. destruct (Hfail (S j)) as [e' He']; [lia|].
      exists e'. by rewrite <- He', Nat.add_succ_comm.
    + by rewrite Nat.add_succ_comm.
Qed.

Lemma sum_of_doubling_delays baseDelay k :
  list_sum (map (λ j, baseDelay * 2 ^ j) (seq 0 k)) = baseDelay * (2 ^ k - 1).
Proof.
  induction k as [|k IH]; [simpl; lia|].
  rewrite seq_S, map_app, list_sum_app, IH. simpl.
  assert (1 ≤ 2 ^ k) by (apply Nat.neq_0_lt_0, Nat.pow_nonzero; lia). nia.
Qed.
End Utilities.

(** X14. Whatever [validateStockSymbol] returns is the trimmed,
    upper-cased argument, consists of one to five letters A to Z, and is a
    fixed point of the validation and of the canonical form of the subscribe
    handler: validating it again returns it unchanged, and a subscribe
    request accepts it as it is. *)
Theorem validated_symbol_is_canonical (symbol : JsVal) (t : string) :
  validateStockSymbol symbol = Return t →
  (∃ s, symbol = JStr s ∧ s ≠ "" ∧ t = toUpperCase (trim s))
  ∧ 1 ≤ String.length t ≤ 5
  ∧ forallb is_upper_letter (list_ascii_of_string t) = true
  ∧ validateStockSymbol (JStr t) = Return t
  ∧ accepted_symbol (JStr t) = Some t.
Proof.
  unfold validateStockSymbol. destruct symbol as [| | | |s| |]; try discriminate.
  destruct (String.eqb_spec s "") as [->|Hne]; [discriminate|].
  destruct (symbol_format (toUpperCase (trim s))) eqn:Hfmt; [|discriminate].
  intros [= <-]. set (t := toUpperCase (trim s)) in *.
  assert (Hstable : toUpperCase (trim t) = t).
  { subst t. by rewrite <- !trim_toUpperCase, toUpperCase_idem, trim_idem. }
  assert (Hclean : trim (toUpperCase t) = t) by by rewrite trim_toUpperCase.
  pose proof (symbol_format_nonempty t Hfmt) as Hnonempty.
  split; [by exists s|].
  pose proof Hfmt as Hparts. unfold symbol_format in Hparts.
  apply andb_true_iff in Hparts as [Hlen Hletters].
  apply andb_true_iff in Hlen as [Hlo Hhi].
  apply Nat.leb_le in Hlo, Hhi.
  split; [done|]. split; [done|]. split.
  - destruct (String.eqb_spec t "") as [He|_]; [done|]. by rewrite Hstable, Hfmt.
  - unfold accepted_symbol, cleanSymbol. cbn [js_toUpperCase]. rewrite Hclean.
    by destruct (String.eqb_spec t "").
Qed.

Lemma validated_symbol_is_canonical_witness :
  validateStockSymbol (JStr " aapl ") = Return "AAPL"
  ∧ validateStockSymbol (JStr "AAPL") = Return "AAPL"
  ∧ accepted_symbol (JStr "AAPL") = Some "AAPL".
Proof.
  assert (H : validateStockSymbol (JStr " aapl ") = Return "AAPL")
    by (vm_compute; reflexivity).
  destruct (validated_symbol_is_canonical (JStr " aapl ") "AAPL" H)
    as (_ & _ & _ & Hagain & Hsub).
  split; [exact H|]. split; [exact Hagain|exact Hsub].
Defined.

(** X15. [retryWithBackoff] with a natural number of retries returns the
    value of the first call that succeeds among the first [maxRetries + 1],
    after one call per failed attempt and delays of [baseDelay], twice
    [baseDelay], four times [baseDelay], ... between them, which add up to
    [baseDelay * (2^k - 1)] before the success at attempt [k]. When all
    [maxRetries + 1] calls fail it throws the error of the last one, having
    waited [maxRetries] times. *)
Theorem retry_returns_first_success {A : Type}
    (fn : nat → Completion A) (maxRetries baseDelay : nat) :
  (∀ k a, k ≤ maxRetries →
     (∀ j, j < k → ∃ e, fn j = Throw e) →
     fn k = Return a →
     retryWithBackoff fn maxRetries baseDelay
     = (map (λ j, baseDelay * 2 ^ j) (seq 0 k), Return a)
     ∧ list_sum (retryWithBackoff fn maxRetries baseDelay).1 = baseDelay * (2 ^ k - 1))
  ∧ (∀ e, (∀ j, j < maxRetries → ∃ e', fn j = Throw e') →
     fn maxRetries = Throw e →
     retryWithBackoff fn maxRetries baseDelay
     = (map (λ j, baseDelay * 2 ^ j) (seq 0 maxRetries), Throw e)).
Proof.
  split.
  - intros k a Hk Hfail Hok.
    assert (Heq : retryWithBackoff fn maxRetries baseDelay
                  = (map (λ j, baseDelay * 2 ^ j) (seq 0 k), Return a)).
    { unfold retryWithBackoff. by apply (retry_from_first_success fn baseDelay 0). }
    split; [exact Heq|]. rewrite Heq. apply sum_of_doubling_delays.
  - intros e Hfail Hlast. unfold retryWithBackoff.
    by apply (retry_from_all_fail fn baseDelay 0).
Qed.

Lemma retry_returns_first_success_witness :
  retryWithBackoff
    (λ attempt, if Nat.ltb attempt 2 then Throw "timeout" else Return attempt) 3 1000
  = ([1000; 2000], Return 2).
Proof.
  set (fn := λ attempt, if Nat.ltb attempt 2 then Throw "timeout" else Return attempt).
  refine (proj1 (proj1 (retry_returns_first_success fn 3 1000) 2 2 _ _ _)).
  - lia.
  - intros j Hj. exists "timeout". unfold fn.
    by destruct j as [|[|j]]; [| |lia].
  - reflexivity.
Defined.

Section Throttle.

Lemma throttle_run_spaced delay lastCall times :
  spaced delay lastCall (throttle_run delay lastCall times).
Proof.
  revert lastCall. induction times as [|now times IH]; intros lastCall; [done|].
  cbn [throttle_run]. unfold throttle_call.
  destruct (Z.leb_spec delay (now - lastCall)) as [Hok|Hno].
  - simpl. split; [done|apply IH].
  - apply IH.
Qed.

Lemma throttle_run_sublist delay lastCall times :
  sublist (throttle_run delay lastCall times) times.
Proof.
  revert lastCall. induction times as [|now times IH]; intros lastCall; [done|].
  cbn [throttle_run]. unfold throttle_call.
  destruct (Z.leb_spec delay (now - lastCall)).
  - apply sublist_skip, IH.
  - apply sublist_cons, IH.
Qed.
End Throttle.

(** X16. A function wrapped by [throttle] runs for a subsequence of the
    calls made, and any two successive runs lie at least [delay]
    milliseconds apart (the first at least [delay] after time 0): it never
    runs twice within [delay]. *)
Theorem throttle_keeps_runs_apart (delay : Z) (times : list Z) :
  sublist (throttled delay times) times
  ∧ spaced delay 0 (throttled delay times).
Proof.
  split; [apply throttle_run_sublist|apply throttle_run_spaced].
Qed.

(** ** Authentication is independent of everything else *)

Section Authentication.
Implicit Types (st : State) (c : SocketId) (w : World).

Lemma lookup_forget_users st c :
  connections (forget_users st) !! c = conn_set_userId JNull <$> connections st !! c.
Proof. apply lookup_fmap. Qed.

Lemma forget_users_alter (g : Connection → Connection) c st :
  (∀ conn, conn_set_userId JNull (g conn) = g (conn_set_userId JNull conn)) →
  forget_users (set_connections (alter g c) st)
  = set_connections (alter g c) (forget_users st).
Proof.
  intros Hg. unfold forget_users, set_connections. cbn [connections subscriptions
    updateInterval inflight]. f_equal. apply map_eq. intros i.
  rewrite lookup_fmap. destruct (decide (c = i)) as [<-|Hne].
  - rewrite !lookup_alter_eq, lookup_fmap. destruct (connections st !! c); simpl; [|done].
    by rewrite Hg.
  - by rewrite !lookup_alter_ne, lookup_fmap by done.
Qed.

Lemma forget_users_start_if_needed st :
  forget_users (start_if_needed st) = start_if_needed (forget_users st).
Proof.
  unfold start_if_needed, startUpdateInterval. cbn [forget_users set_connections
    subscriptions updateInterval]. by destruct (_ && _).
Qed.

Lemma forget_users_stop_if_unused st :
  forget_users (stop_if_unused st) = stop_if_unused (forget_users st).
Proof.
  unfold stop_if_unused, stopUpdateInterval. cbn [forget_users set_connections
    subscriptions updateInterval]. destruct (_ && _); [|done].
  by destruct (updateInterval st).
Qed.

Lemma subscribe_symbol_forget c acc v :
  subscribe_symbol c
    (mkSubAcc (forget_users (sa_state acc)) (sa_subscribedSymbols acc) (sa_errors acc)) v
  = mkSubAcc (forget_users (sa_state (subscribe_symbol c acc v)))
      (sa_subscribedSymbols (subscribe_symbol c acc v))
      (sa_errors (subscribe_symbol c acc v)).
Proof.
  unfold subscribe_symbol. cbn [sa_state sa_subscribedSymbols sa_errors].
  destruct (cleanSymbol v) as [clean|msg]; [|done].
  destruct (String.eqb clean ""); [done|].
  cbn [sa_state sa_subscribedSymbols sa_errors]. f_equal.
  change (forget_users (set_subscriptions ?f ?x))
    with (set_subscriptions f (forget_users x)).
  by rewrite forget_users_alter.
Qed.

Lemma subscribe_fold_forget c symbols acc :
  fold_left (subscribe_symbol c) symbols
    (mkSubAcc (forget_users (sa_state acc)) (sa_subscribedSymbols acc) (sa_errors acc))
  = let r := fold_left (subscribe_symbol c) symbols acc in
    mkSubAcc (forget_users (sa_state r)) (sa_subscribedSymbols r) (sa_errors r).
Proof.
  revert acc. induction symbols as [|v symbols IH]; intros acc; [done|].
  cbn [fold_left]. by rewrite subscribe_symbol_forget, IH.
Qed.

Lemma unsubscribe_loop_forget c symbols st done_ :
  unsubscribe_loop c symbols (forget_users st) done_
  = (forget_users (unsubscribe_loop c symbols st done_).1.1,
     (unsubscribe_loop c symbols st done_).1.2,
     (unsubscribe_loop c symbols st done_).2).
Proof.
  revert st done_. induction symbols as [|v symbols IH]; intros st done_; [done|].
  cbn [unsubscribe_loop]. destruct (cleanSymbol v) as [clean|msg]; [|done].
  rewrite <- IH. f_equal.
  change (forget_users (set_subscriptions ?f ?x))
    with (set_subscriptions f (forget_users x)).
  by rewrite forget_users_alter.
Qed.

Lemma is_connected_forget st c : is_connected (forget_users st) c = is_connected st c.
Proof.
  unfold is_connected. rewrite lookup_forget_users.
  by destruct (connections st !! c).
Qed.

Lemma recipients_of_forget st v : recipients_of (forget_users st) v = recipients_of st v.
Proof.
  destruct v; try done. unfold recipients_of, recipients.
  change (subscriptions (forget_users st)) with (subscriptions st).
  destruct (subscriptions st !! s); [|done].
  apply list_filter_iff. intros c'. by rewrite is_connected_forget.
Qed.

Lemma fanout_forget st ups errs : fanout (forget_users st) ups errs = fanout st ups errs.
Proof.
  unfold fanout. f_equal.
  - apply flat_map_ext. intros stock. unfold push_update.
    by rewrite recipients_of_forget.
  - destruct (0 <? length errs); [|done].
    apply flat_map_ext. intros e. unfold push_error. by rewrite recipients_of_forget.
Qed.

(** A handler other than [authenticate] does not read the user ids. *)
Lemma handle_forget w e st :
  is_authenticate e = false →
  handle w e (forget_users st) = (forget_users (handle w e st).1, (handle w e st).2).
Proof.
  intros He. destruct e as [c|c data|c data|c data|c data|c|c| |k r];
    try discriminate He; cbn [handle].
  - unfold on_connection, forget_users, set_connections. cbn. f_equal. f_equal.
    by rewrite fmap_insert.
  - unfold on_subscribe.
    destruct (get_prop "symbols" data) as [[| | | | |symbols|]|]; try done.
    rewrite lookup_forget_users.
    destruct (connections st !! c) as [conn|]; [|done]. cbn [fmap option_fmap option_map
      conn_set_userId conn_subscriptions].
    destruct (_ <? _); [done|].
    unfold subscribe_loop.
    pose proof (subscribe_fold_forget c symbols (mkSubAcc st [] [])) as Hf.
    cbv zeta in Hf. cbn [sa_state sa_subscribedSymbols sa_errors] in Hf. rewrite Hf.
    cbn [sa_state sa_subscribedSymbols sa_errors fst snd].
    by rewrite forget_users_start_if_needed.
  - unfold on_unsubscribe.
    destruct (get_prop "symbols" data) as [[| | | | |symbols|]|]; try done.
    rewrite lookup_forget_users.
    destruct (connections st !! c) as [conn|]; [|done]. cbn [fmap option_fmap option_map].
    rewrite unsubscribe_loop_forget.
    destruct (unsubscribe_loop c symbols st []) as [[st' unsub] [msg|]]; [done|].
    cbn [fst snd]. by rewrite forget_users_stop_if_unused.
  - rewrite (surjective_pairing (on_subscribe_watchlist w c data (forget_users st))).
    rewrite !on_subscribe_watchlist_state. f_equal.
    unfold on_subscribe_watchlist.
    destruct (get_prop "userId" data) as [userId|]; [|done].
    destruct (truthy userId); [|done].
    by rewrite findDefaultWatchlist_is_no_static.
  - done.
  - unfold on_disconnect. cbv zeta. cbn [fst snd]. rewrite lookup_forget_users.
    rewrite forget_users_stop_if_unused. f_equal. f_equal.
    destruct (connections st !! c) as [conn|];
      cbn [fmap option_fmap option_map conn_set_userId conn_subscriptions];
      unfold forget_users, set_connections, set_subscriptions;
      cbn [connections subscriptions updateInterval inflight];
      f_equal; by rewrite fmap_delete.
  - unfold on_timer. change (updateInterval (forget_users st)) with (updateInterval st).
    change (subscriptions (forget_users st)) with (subscriptions st).
    destruct (updateInterval st); [|done].
    by destruct (size (subscriptions st) =? 0).
  - unfold on_settle. change (inflight (forget_users st)) with (inflight st).
    destruct (inflight st !! k) as [cy|]; [|done]. cbv zeta.
    destruct (cycle_running _); [done|]. by rewrite fanout_forget.
Qed.

(** Nothing but the [authenticate] handler emits its two messages. *)
Lemma handle_other_effects w e st :
  is_authenticate e = false → other_effects (handle w e st).2 = (handle w e st).2.
Proof.
  intros He. unfold other_effects. apply forallb_filter_id.
  destruct e as [c|c data|c data|c data|c data|c|c| |k r];
    try discriminate He; cbn [handle].
  - done.
  - unfold on_subscribe.
    destruct (get_prop "symbols" data) as [[| | | | |symbols|]|]; try done.
    destruct (connections st !! c) as [conn|]; [|done].
    destruct (_ <? _); [done|]. cbn [snd forallb]. by destruct (0 <? _).
  - unfold on_unsubscribe.
    destruct (get_prop "symbols" data) as [[| | | | |symbols|]|]; try done.
    destruct (connections st !! c) as [conn|]; [|done].
    by destruct (unsubscribe_loop c symbols st []) as [[st' unsub] [msg|]].
  - unfold on_subscribe_watchlist.
    destruct (get_prop "userId" data) as [userId|]; [|done].
    destruct (truthy userId); [|done].
    by rewrite findDefaultWatchlist_is_no_static.
  - done.
  - done.
  - unfold on_timer. destruct (updateInterval st); [|done].
    by destruct (size (subscriptions st) =? 0).
  - unfold on_settle. destruct (inflight st !! k) as [cy|]; [|done]. cbv zeta.
    destruct (cycle_running _); [done|]. cbn [snd]. unfold fanout.
    rewrite forallb_app. apply andb_true_iff. split.
    + apply forallb_forall. intros x Hx. apply in_flat_map in Hx as (u & _ & Hx).
      unfold push_update in Hx. by apply in_map_iff in Hx as (c' & <- & _).
    + destruct (0 <? _); [|done].
      apply forallb_forall. intros x Hx. apply in_flat_map in Hx as (u & _ & Hx).
      unfold push_error in Hx. by apply in_map_iff in Hx as (c' & <- & _).
Qed.

(** The [authenticate] handler changes user ids only, and emits its own
    messages only. *)
Lemma authenticate_forget c data st :
  forget_users (on_authenticate c data st).1 = forget_users st
  ∧ other_effects (on_authenticate c data st).2 = [].
Proof.
  unfold on_authenticate.
  destruct (get_prop "userId" data) as [userId|]; [|done].
  destruct (truthy userId); [|done].
  destruct (connections st !! c) as [conn|] eqn:Hc; [|done].
  split; [|done]. cbn [fst]. unfold forget_users, set_connections.
  cbn [connections subscriptions updateInterval inflight]. f_equal.
  apply map_eq. intros i. rewrite !lookup_fmap.
  destruct (decide (c = i)) as [<-|Hne].
  - by rewrite lookup_alter_eq, Hc.
  - by rewrite lookup_alter_ne by done.
Qed.

Lemma run_forget w events st :
  run w (other_events events) (forget_users st)
  = (forget_users (run w events st).1, other_effects (run w events st).2).
Proof.
  revert st. induction events as [|e events IH]; intros st; [done|].
  cbn [run]. destruct (handle w e st) as [st1 out1] eqn:Hh.
  destruct (run w events st1) as [st2 out2] eqn:Hr.
  pose proof (IH st1) as IH1. rewrite Hr in IH1. cbn [fst snd] in IH1 |- *.
  unfold other_effects at 1. rewrite List.filter_app.
  fold (other_effects out1) (other_effects out2).
  unfold other_events. cbn [List.filter].
  destruct (is_authenticate e) eqn:He; cbn [negb].
  - destruct e; try discriminate He. cbn [handle] in Hh.
    destruct (authenticate_forget clientId data st) as [Hst Hout].
    rewrite Hh in Hst, Hout. cbn [fst snd] in Hst, Hout.
    fold (other_events events). by rewrite <- Hst, IH1, Hout.
  - fold (other_events events). cbn [run].
    rewrite (handle_forget w e st He), Hh. cbn [fst snd]. rewrite IH1.
    pose proof (handle_other_effects w e st He) as Hout. rewrite Hh in Hout.
    cbn [snd] in Hout. by rewrite Hout.
Qed.

Lemma other_events_idem events : other_events (other_events events) = other_events events.
Proof.
  unfold other_events. induction events as [|e events IH]; [done|].
  cbn [List.filter]. destruct (negb (is_authenticate e)) eqn:He; [|done].
  cbn [List.filter]. by rewrite He, IH.
Qed.

Lemma other_effects_idem effects : other_effects (other_effects effects) = other_effects effects.
Proof.
  unfold other_effects. induction effects as [|x effects IH]; [done|].
  cbn [List.filter]. destruct (negb (is_authenticate_reply x)) eqn:He; [|done].
  cbn [List.filter]. by rewrite He, IH.
Qed.
End Authentication.

(** X17. Authentication is independent of everything else the engine does.
    Take any run and drop its [authenticate] messages: the connections keep
    the same subscription sets, the index, the timer and the cycles in flight
    are the same, and the same effects happen in the same order, apart from
    the replies to the dropped messages. No handler reads the user id that
    [authenticate] stores. *)
Theorem authentication_gates_nothing (w : World) (events : list Event) (st : State) :
  forget_users (run_state w events st)
  = forget_users (run_state w (other_events events) st)
  ∧ other_effects (run w events st).2 = (run w (other_events events) st).2.
Proof.
  pose proof (run_forget w events st) as H1.
  pose proof (run_forget w (other_events events) st) as H2.
  rewrite other_events_idem, H1 in H2.
  assert (Hst := f_equal fst H2). assert (Hout := f_equal snd H2).
  cbn [fst snd] in Hst, Hout. unfold run_state. split; [exact Hst|].
  rewrite Hout. clear. generalize st.
  induction (events) as [|e evs IH]; intros st0; [done|].
  unfold other_events. cbn [List.filter].
  destruct (is_authenticate e) eqn:He; cbn [negb]; [apply IH|].
  cbn [run]. pose proof (handle_other_effects w e st0 He) as Hh.
  destruct (handle w e st0) as [st1 out1]. cbn [snd] in Hh.
  specialize (IH st1). fold (other_events evs).
  destruct (run w (other_events evs) st1) as [st2 out2]. cbn [snd] in IH |- *.
  unfold other_effects in *. by rewrite List.filter_app, Hh, IH.
Qed.
